(** * codegrammer: the syntax validator and the CSS optimizer of [src/App.jsx]

    A shallow embedding of the three text engines of [App.jsx]
    ([validateSyntax], [parseCSSRules] / [optimizeCSS], [extractClassNames])
    and the properties of them that the specification states.

    Conventions of the embedding.
    - A JavaScript string is a list of code units; a code unit is an [ascii],
      so the strings covered are those whose code units are below 256
      (the Latin-1 range).  [\s] and [trim] therefore know the white space
      9-13, 32 and 160.
    - A regular expression literal is transcribed constructor by constructor
      into a [regex] and run by [rmatch], a backtracking matcher with the
      priorities of the JavaScript engine (greedy / lazy repetition, ordered
      alternation, atomic lookahead).
    - A JavaScript object used as a dictionary ([grouped], [mediaGrouped],
      a group) is modelled twice.  [Obj] is the dictionary of its own
      properties in the order of their creation, and [Css.optimizeCSS]
      computes on it alone.  [Dict] adds what the engine does besides: a
      lookup that goes on to [Object.prototype], the setter of [__proto__],
      the assignments that throw [TypeError] or change a built-in object,
      and the order of [Object.keys], which puts array indices first;
      [Run.optimizeCSS] is the optimizer on these objects.  The two agree on
      the style sheets without a selector or a property that is an array
      index or the name of a member of [Object.prototype]
      ([run_ordinary]).
    - A [Set] of class names is a [gset]. *)

From Stdlib Require Import Ascii String.
From stdpp Require Import base list gmap strings.

Open Scope string_scope.
Open Scope nat_scope.
Open Scope list_scope.

Abbreviation str := (list ascii).
Coercion list_ascii_of_string : string >-> list.

(** ** JavaScript string primitives *)

Module Js.

(** White space of [\s] and of [String.prototype.trim]. *)
Definition is_space (c : ascii) : bool :=
  let n := nat_of_ascii c in
  ((9 <=? n) && (n <=? 13)) || (n =? 32) || (n =? 160).

Definition is_upper (c : ascii) : bool :=
  let n := nat_of_ascii c in (65 <=? n) && (n <=? 90).

Definition is_lower (c : ascii) : bool :=
  let n := nat_of_ascii c in (97 <=? n) && (n <=? 122).

Definition is_digit (c : ascii) : bool :=
  let n := nat_of_ascii c in (48 <=? n) && (n <=? 57).

Definition is_alpha (c : ascii) : bool := is_upper c || is_lower c.

(** [s.startsWith(p)] *)
Fixpoint startsWith (s p : str) {struct p} : bool :=
  match p, s with
  | [], _ => true
  | a :: p', b :: s' => Ascii.eqb a b && startsWith s' p'
  | _ :: _, [] => false
  end.

(** [s.includes(sub)] *)
Fixpoint includes (s sub : str) : bool :=
  startsWith s sub ||
  match s with
  | [] => false
  | _ :: s' => includes s' sub
  end.

Fixpoint trimStart (s : str) : str :=
  match s with
  | c :: s' => if is_space c then trimStart s' else s
  | [] => []
  end.

Definition trimEnd (s : str) : str := rev (trimStart (rev s)).

(** [s.trim()] *)
Definition trim (s : str) : str := trimEnd (trimStart s).

(** [s.split(c)] for a separator of one character: never empty,
    [''.split(c)] is [['']]. *)
Fixpoint split (c : ascii) (s : str) : list str :=
  match s with
  | [] => [[]]
  | a :: s' =>
      if Ascii.eqb a c then [] :: split c s'
      else match split c s' with
           | w :: ws => (a :: w) :: ws
           | [] => [[a]]
           end
  end.

(** [s.replace(pat, rep)] with a string pattern: the first occurrence only. *)
Fixpoint replace (s pat rep : str) : str :=
  if startsWith s pat then rep ++ drop (length pat) s
  else match s with
       | [] => []
       | a :: s' => a :: replace s' pat rep
       end.

(** [toLowerCase] on one code unit of the Latin-1 range: A-Z and the
    accented capitals 192-222 (215, the multiplication sign, apart). *)
Definition lower_char (c : ascii) : ascii :=
  let n := nat_of_ascii c in
  if ((65 <=? n) && (n <=? 90)) ||
     ((192 <=? n) && (n <=? 222) && negb (n =? 215))
  then ascii_of_nat (n + 32) else c.

Definition toLowerCase (s : str) : str := map lower_char s.

(** [toUpperCase] on a string of ASCII letters, which is all the validator
    applies it to (one letter of a fixed event name). *)
Definition upper_char (c : ascii) : ascii :=
  if is_lower c then ascii_of_nat (nat_of_ascii c - 32) else c.

Definition toUpperCase (s : str) : str := map upper_char s.

(** [s.charAt(i)]: the empty string out of range. *)
Definition charAt (s : str) (i : nat) : str := take 1 (drop i s).

(** [s.slice(i)] for [0 <= i]. *)
Definition slice (s : str) (i : nat) : str := drop i s.

End Js.

(** ** Regular expressions *)

Module Re.

Inductive regex : Type :=
| Emp                                   (* the empty pattern *)
| Lit (c : ascii)                       (* one literal character *)
| Cls (p : ascii -> bool)               (* a class: [...], [^...], \s, . *)
| Cat (r1 r2 : regex)
| Alt (r1 r2 : regex)                   (* r1|r2, r1 tried first *)
| Rep (greedy : bool) (r : regex)       (* r* and r*? *)
| Grp (n : nat) (r : regex)             (* the n-th capture group *)
| Ahead (r : regex)                     (* (?=r) *)
| Bos                                   (* ^ (no m flag) *)
| Eos.                                  (* $ (no m flag) *)

(** [r+] and [r+?] *)
Definition Rep1 (greedy : bool) (r : regex) : regex := Cat r (Rep greedy r).

(** A literal word. *)
Fixpoint Word (w : str) : regex :=
  match w with
  | [] => Emp
  | [c] => Lit c
  | c :: w' => Cat (Lit c) (Word w')
  end.

(** Capture groups, most recent binding first. *)
Definition caps := list (nat * str).

Fixpoint cap (cs : caps) (n : nat) : option str :=
  match cs with
  | [] => None
  | (m, v) :: cs' => if Nat.eqb m n then Some v else cap cs' n
  end.

(** The outcome of a match: the text left after it, and the groups. *)
Definition outcome : Type := str * caps.

(** One repetition [r*] ([greedy]) or [r*?], with [m] the matcher of [r]
    and [k] the rest of the pattern: either one more iteration is tried
    first and then [k], or [k] first.  An iteration that consumes nothing is
    refused, as in the engine, so a repetition over [s] makes at most
    [length s] iterations, which is the [fuel] it is started with. *)
Definition rep_loop
    (m : str -> caps -> (str -> caps -> option outcome) -> option outcome)
    (greedy : bool) (k : str -> caps -> option outcome)
    : nat -> str -> caps -> option outcome :=
  fix loop (fuel : nat) (s : str) (cs : caps) {struct fuel} :=
    match fuel with
    | 0 => k s cs
    | S fuel' =>
        let more (_ : unit) :=
          m s cs (fun s' cs' =>
                    if length s' <? length s then loop fuel' s' cs'
                    else None) in
        if greedy then
          match more () with
          | Some o => Some o
          | None => k s cs
          end
        else
          match k s cs with
          | Some o => Some o
          | None => more ()
          end
    end.

(** The backtracking matcher.  [total] is the length of the whole subject
    (for [^]), [s] what is left of it, [k] the rest of the pattern.  The
    first alternative that lets [k] succeed wins, as in the engine. *)
Fixpoint rmatch (total : nat) (r : regex) (s : str) (cs : caps)
    (k : str -> caps -> option outcome) {struct r} : option outcome :=
  match r with
  | Emp => k s cs
  | Lit c =>
      match s with
      | a :: s' => if Ascii.eqb a c then k s' cs else None
      | [] => None
      end
  | Cls p =>
      match s with
      | a :: s' => if p a then k s' cs else None
      | [] => None
      end
  | Cat r1 r2 =>
      rmatch total r1 s cs (fun s' cs' => rmatch total r2 s' cs' k)
  | Alt r1 r2 =>
      match rmatch total r1 s cs k with
      | Some o => Some o
      | None => rmatch total r2 s cs k
      end
  | Rep greedy r' => rep_loop (rmatch total r') greedy k (length s) s cs
  | Grp n r' =>
      rmatch total r' s cs
        (fun s' cs' => k s' ((n, take (length s - length s') s) :: cs'))
  | Ahead r' =>
      match rmatch total r' s cs (fun s' cs' => Some (s', cs')) with
      | Some (_, cs') => k s cs'
      | None => None
      end
  | Bos => if length s =? total then k s cs else None
  | Eos => match s with [] => k s cs | _ :: _ => None end
  end.

(** A match anchored where [s] starts. *)
Definition match_here (total : nat) (r : regex) (s : str) : option outcome :=
  rmatch total r s [] (fun s' cs' => Some (s', cs')).

(** One found match: the text skipped before it, the matched text, its
    groups, and the text after it. *)
Record found : Type := Found {
  skipped : str;
  matched : str;
  groups : caps;
  after : str
}.

(** [r.exec(s)] from the position where [s] starts: the leftmost position
    at which the pattern matches, the end of the subject included. *)
Fixpoint search (total : nat) (r : regex) (s : str) : option found :=
  match match_here total r s with
  | Some (s', cs) => Some (Found [] (take (length s - length s') s) cs s')
  | None =>
      match s with
      | [] => None
      | a :: s' =>
          match search total r s' with
          | Some f =>
              Some (Found (a :: skipped f) (matched f) (groups f) (after f))
          | None => None
          end
      end
  end.

(** [s.match(r)] and [r.exec(s)] for a pattern without the g flag. *)
Definition exec (r : regex) (s : str) : option found :=
  search (length s) r s.

(** The successive matches of a pattern with the g flag, as the loop
    [while ((m = r.exec(s)) !== null)], [s.match(r)] and [s.replace(r, ..)]
    enumerate them, with the text left after the last one.  Each search
    resumes where the previous match ended.  Every pattern that [App.jsx]
    uses with the g flag contains a literal character, so a match is never
    empty and [S (length s)] rounds are enough. *)
Fixpoint scan (fuel total : nat) (r : regex) (s : str) : list found * str :=
  match fuel with
  | 0 => ([], s)
  | S fuel' =>
      match search total r s with
      | None => ([], s)
      | Some f =>
          let '(fs, tl) := scan fuel' total r (after f) in (f :: fs, tl)
      end
  end.

Definition matchAll (r : regex) (s : str) : list found * str :=
  scan (S (length s)) (length s) r s.

(** [s.replace(r, '')] for a pattern with the g flag. *)
Definition remove (r : regex) (s : str) : str :=
  let '(fs, tl) := matchAll r s in
  concat (map skipped fs) ++ tl.

(** [(s.match(r) || []).length] for a pattern with the g flag. *)
Definition count (r : regex) (s : str) : nat :=
  length (fst (matchAll r s)).

(** The n-th group of a match; a group of these patterns always takes part. *)
Definition group (f : found) (n : nat) : str :=
  default [] (cap (groups f) n).

(** [stops p s]: a run of characters of the class [p] cannot go on into
    [s]. *)
Definition stops (p : ascii -> bool) (s : str) : Prop :=
  match s with [] => True | c :: _ => p c = false end.

End Re.

(** More of the pattern language, and [split] by a pattern. *)

Module ReLib.
Import Re.

(** A sequence of patterns. *)
Fixpoint Seq (rs : list regex) : regex :=
  match rs with
  | [] => Emp
  | [r] => r
  | r :: rs' => Cat r (Seq rs')
  end.

(** Several alternatives, the first one tried first. *)
Fixpoint Any (rs : list regex) : regex :=
  match rs with
  | [] => Cls (fun _ => false)
  | [r] => r
  | r :: rs' => Alt r (Any rs')
  end.

Definition one_of (cs : str) (c : ascii) : bool :=
  existsb (Ascii.eqb c) cs.

Definition none_of (cs : str) (c : ascii) : bool := negb (one_of cs c).

(** [\s], [[\s\S]] and [.] (which refuses the line terminators). *)
Definition ws : regex := Cls Js.is_space.
Definition anything : regex := Cls (fun _ => true).
Definition dot : regex := Cls (none_of ["010"%char; "013"%char]).

(** [s.split(r)]: the pieces of [s] between the matches of [r]; a match
    that ends where the current piece starts is passed over.  [piece] is the
    piece being read, last character first.  (The groups of [r] would be
    spliced into the result; the pattern split by here has none.) *)
Fixpoint split_loop (fuel total : nat) (r : regex) (piece s : str)
    : list str :=
  match fuel with
  | 0 => [rev piece ++ s]
  | S fuel' =>
      match s with
      | [] => [rev piece]
      | a :: s' =>
          match match_here total r s with
          | Some (rest, _) =>
              if (length rest =? length s) && (length piece =? 0)
              then split_loop fuel' total r (a :: piece) s'
              else rev piece :: split_loop fuel' total r [] rest
          | None => split_loop fuel' total r (a :: piece) s'
          end
      end
  end.

Definition split (r : regex) (s : str) : list str :=
  match s with
  | [] => match match_here 0 r [] with Some _ => [] | None => [[]] end
  | _ :: _ => split_loop (2 * S (length s)) (length s) r [] s
  end.

End ReLib.

(** ** Vocabulary on texts *)

Module Text.

(** [tight s]: no white space at either end of [s]. *)
Definition tight (s : str) : Prop :=
  Re.stops Js.is_space s ∧ Re.stops Js.is_space (rev s).

(** [free w s]: the text [w] does not occur in [s]. *)
Definition free (w s : str) : Prop := Js.includes s w = false.

(** [clear w s]: no position of [s] starts an occurrence of [w], whatever
    follows [s]. *)
Definition clear (w s : str) : Prop :=
  ∀ t rest, t ≠ [] → t `suffix_of` s → Js.startsWith (t ++ rest) w = false.

End Text.

(** ** The class usage extractor *)

Definition dquote : ascii := "034"%char.
Definition squote : ascii := "039"%char.

(** The text of one double quote, to splice into string literals. *)
Definition dq : str := [dquote].

Module Extractor.
Import Re ReLib.

Definition quote : regex := Cls (one_of [dquote; squote]).
Definition unquoted : regex := Cls (none_of [dquote; squote]).

(** [/className=[Q']([^Q']+)[Q']/g], writing [Q] for the double quote. *)
Definition stringRegex : regex :=
  Seq [Word "className="; quote; Grp 1 (Rep1 true unquoted); quote].

(** [/className=\{['Q]([^'Q]+)['Q]\}/g] *)
Definition templateRegex : regex :=
  Seq [Word "className="; Lit "{"; quote; Grp 1 (Rep1 true unquoted); quote;
       Lit "}"].

(** [/className=\{[^}]*['Q]([^'Q]+)['Q]/g] *)
Definition conditionalRegex : regex :=
  Seq [Word "className="; Lit "{"; Rep true (Cls (none_of ["}"%char]));
       quote; Grp 1 (Rep1 true unquoted); quote].

(** [match[1].split(/\s+/).forEach(cls => cls && classes.add(cls))] *)
Definition add_words (classes : gset str) (m : found) : gset str :=
  foldl (fun acc cls => match cls with [] => acc | _ :: _ => acc ∪ {[cls]} end)
        classes (split (Rep1 true ws) (group m 1)).

(** One [while ((match = regex.exec(jsxCode)) !== null)] loop. *)
Definition collect (r : regex) (jsxCode : str) (classes : gset str)
    : gset str :=
  foldl add_words classes (fst (matchAll r jsxCode)).

Definition extractClassNames (jsxCode : str) : gset str :=
  let classes := ∅ in
  let classes := collect stringRegex jsxCode classes in
  let classes := collect templateRegex jsxCode classes in
  let classes := collect conditionalRegex jsxCode classes in
  classes.

(** Sample markup: a literal class attribute and a conditional one. *)
Definition markup_sample : str :=
  "<div className=" ++ dq ++ "a b" ++ dq ++
  "><span className={cond ? 'c' : 'd'}></span></div>".

Definition markup_pair : str :=
  "className=" ++ dq ++ "a b" ++ dq ++ " className={cond ? 'c' : 'd'}".

End Extractor.

(** ** The syntax validator *)

Module Validator.
Import Re ReLib.

Inductive fileType : Type := jsx | tsx | js | ts | php | html | vue.

Definition fileType_eqb (a b : fileType) : bool :=
  match a, b with
  | jsx, jsx | tsx, tsx | js, js | ts, ts | php, php | html, html
  | vue, vue => true
  | _, _ => false
  end.

(** An entry of [FILE_TYPES]. *)
Record config : Type := Config {
  name : str;
  comment : option str;
  blockComment : str * str;
  attributes : list str
}.

Definition FILE_TYPES (t : fileType) : config :=
  let component := ["className"; "onClick"; "onChange"; "style"; "id"; "key";
                    "ref"] : list string in
  match t with
  | jsx => Config "JSX" (Some ("//" : str)) ("/*" : str, "*/" : str)
             (map list_ascii_of_string component)
  | tsx => Config "TSX" (Some ("//" : str)) ("/*" : str, "*/" : str)
             (map list_ascii_of_string component)
  | js => Config "JavaScript" (Some ("//" : str)) ("/*" : str, "*/" : str) []
  | ts => Config "TypeScript" (Some ("//" : str)) ("/*" : str, "*/" : str) []
  | php => Config "PHP" (Some ("//" : str)) ("/*" : str, "*/" : str)
             ["class" : str; "id" : str; "style" : str]
  | html => Config "HTML" None ("<!--" : str, "-->" : str)
              ["class" : str; "id" : str; "style" : str; "data-" : str]
  | vue => Config "Vue" (Some ("//" : str)) ("/*" : str, "*/" : str)
             ["class" : str; ":class" : str; "v-bind:class" : str]
  end.

Inductive category : Type := comment_t | attribute_t | structure_t | style_t.

(** One pushed diagnostic: [{ line, message, type, suggestion }]. *)
Record diag : Type := Diag {
  line : nat;
  message : str;
  type : category;
  suggestion : option str
}.

(** [{ errors, warnings }] *)
Record result : Type := Result {
  errors : list diag;
  warnings : list diag
}.

(** [if (c) list.push(d)] *)
Definition push_if (c : bool) (d : diag) (l : list diag) : list diag :=
  if c then l ++ [d] else l.

Definition quote : regex := Cls (one_of [dquote; squote]).
Definition unquoted : regex := Cls (none_of [dquote; squote]).
Definition letter : regex := Cls Js.is_alpha.
Definition not_gt : regex := Cls (none_of [">"%char]).

(** [/class=[Q'][^Q']*[Q']/], writing [Q] for the double quote. *)
Definition classAttr : regex :=
  Seq [Word "class="; quote; Rep true unquoted; quote].

(** [/<[a-zA-Z][^>]*[^\/]>/g] *)
Definition openTag : regex :=
  Seq [Lit "<"; letter; Rep true not_gt; Cls (none_of ["/"%char]); Lit ">"].

(** [/<\/[a-zA-Z][^>]*>/g] *)
Definition closeTag : regex :=
  Seq [Lit "<"; Lit "/"; letter; Rep true not_gt; Lit ">"].

(** [/<[a-zA-Z][^>]*\/>/g] *)
Definition selfClosingTag : regex :=
  Seq [Lit "<"; letter; Rep true not_gt; Lit "/"; Lit ">"].

(** [/^(const|let|var|return|import|export|throw)\s+.+[^;{}\[\]]$/] *)
Definition statement : regex :=
  Seq [Bos;
       Grp 1 (Any [Word "const"; Word "let"; Word "var"; Word "return";
                   Word "import"; Word "export"; Word "throw"]);
       Rep1 true ws; Rep1 true dot; Cls (none_of ";{}[]"); Eos].

Definition wrongEvents : list str :=
  ["onclick=" : str; "onchange=" : str; "onsubmit=" : str].

(** The body of [wrongEvents.forEach(event => ...)] for the line. *)
Definition check_event (lineNum : nat) (line : str) (errors : list diag)
    (event : str) : list diag :=
  if Js.includes (Js.toLowerCase line) event then
    let correct := Js.toUpperCase (Js.charAt event 2) ++ Js.slice event 3 in
    errors ++ [Diag lineNum
                 ("Use camelCase: '" ++ correct ++ "' instead of '" ++ event
                  ++ "'")
                 attribute_t None]
  else errors.

(** The body of [lines.forEach((line, index) => ...)]: the checks of one
    line, in the order of the source, pushing onto [errors] and [warnings]. *)
Definition check_line (code : str) (ft : fileType) (acc : result)
    (index : nat) (line : str) : result :=
  let errors := errors acc in
  let warnings := warnings acc in
  let config := FILE_TYPES ft in
  let ft_is t := fileType_eqb ft t in
  let lineNum := index + 1 in
  let trimmed := Js.trim line in
  (* wrong comment syntax *)
  let errors :=
    if ft_is jsx || ft_is tsx || ft_is js || ft_is ts then
      let errors :=
        push_if
          (Js.startsWith trimmed "#" && negb (Js.startsWith trimmed "#!/"))
          (Diag lineNum
             "Wrong comment syntax: Use '//' or '/* */' instead of '#'"
             comment_t None) errors in
      push_if (Js.includes trimmed "<!--")
        (Diag lineNum ("HTML comment syntax not allowed in " ++ name config)
           comment_t None) errors
    else errors in
  let warnings :=
    if ft_is php then
      push_if (Js.includes trimmed "<!--" && negb (Js.includes trimmed "?>"))
        (Diag lineNum
           "HTML comment in PHP file - make sure it's in HTML context"
           comment_t None) warnings
    else warnings in
  let errors :=
    if ft_is html then
      push_if (Js.startsWith trimmed "//" ||
               (Js.startsWith trimmed "/*" &&
                negb (Js.includes trimmed "<script")))
        (Diag lineNum
           "JavaScript comment syntax not allowed in HTML (use <!-- -->)"
           comment_t None) errors
    else errors in
  (* wrong attributes in JSX/TSX *)
  let errors :=
    if ft_is jsx || ft_is tsx then
      let errors :=
        if Js.includes line "class=" && negb (Js.includes line "className=")
        then
          match exec classAttr line with
          | Some m =>
              errors ++
              [Diag lineNum
                 ("Use 'className' instead of 'class' in " ++ name config)
                 attribute_t
                 (Some (Js.replace (matched m) "class=" "className="))]
          | None => errors
          end
        else errors in
      push_if (Js.includes line "for=")
        (Diag lineNum ("Use 'htmlFor' instead of 'for' in " ++ name config)
           attribute_t None) errors
    else errors in
  (* className in non-JSX files *)
  let errors :=
    push_if ((ft_is html || ft_is php) && Js.includes line "className=")
      (Diag lineNum ("Use 'class' instead of 'className' in " ++ name config)
         attribute_t None) errors in
  (* unclosed tags *)
  let warnings :=
    if ft_is jsx || ft_is tsx || ft_is html || ft_is vue then
      let openTags := count openTag line in
      let closeTags := count closeTag line in
      let selfClosing := count selfClosingTag line in
      push_if ((closeTags + selfClosing <? openTags) &&
               negb (Js.includes line ">") && Js.includes line "<")
        (Diag lineNum "Possible unclosed tag or multi-line element"
           structure_t None) warnings
    else warnings in
  (* inline styles as strings in JSX *)
  let errors :=
    push_if ((ft_is jsx || ft_is tsx) && Js.includes line ("style=" ++ dq))
      (Diag lineNum
         ("Style should be an object in JSX: style={{...}} not style=" ++ dq
          ++ "..." ++ dq)
         attribute_t None) errors in
  (* event handlers *)
  let errors :=
    if ft_is jsx || ft_is tsx then
      foldl (check_event lineNum line) errors wrongEvents
    else errors in
  (* missing semicolons in JS/TS/JSX/TSX *)
  let warnings :=
    if (ft_is js || ft_is ts || ft_is jsx || ft_is tsx) &&
       negb (length trimmed =? 0) &&
       negb (Js.startsWith trimmed "//") && negb (Js.startsWith trimmed "/*")
    then
      push_if (bool_decide (is_Some (exec statement trimmed)) &&
               negb (Js.includes trimmed "=>"))
        (Diag lineNum "Consider adding semicolon at end of statement"
           style_t None) warnings
    else warnings in
  (* PHP tags *)
  let warnings :=
    push_if (ft_is php && negb (Js.includes code "<?php") &&
             (0 <? length (Js.trim code)))
      (Diag 1 "PHP file should start with <?php tag" structure_t None)
      warnings in
  Result errors warnings.

(** [lines.forEach] with its index. *)
Fixpoint forEach_lines (code : str) (ft : fileType) (acc : result)
    (index : nat) (lines : list str) : result :=
  match lines with
  | [] => acc
  | l :: lines' =>
      forEach_lines code ft (check_line code ft acc index l) (S index) lines'
  end.

Definition validateSyntax (code : str) (ft : fileType) : result :=
  let lines := Js.split "010" code in
  forEach_lines code ft (Result [] []) 0 lines.

(** What the checks of one line push, starting from empty lists. *)
Definition line_result (code : str) (ft : fileType) (index : nat)
    (line : str) : result :=
  check_line code ft (Result [] []) index line.

(** The messages the claims are about. *)
Definition unclosed_msg : str := "Possible unclosed tag or multi-line element".
Definition php_tag_warning : diag :=
  Diag 1 "PHP file should start with <?php tag" structure_t None.
Definition for_error (ft : fileType) (lineNum : nat) : diag :=
  Diag lineNum ("Use 'htmlFor' instead of 'for' in " ++ name (FILE_TYPES ft))
    attribute_t None.
Definition event_error (lineNum : nat) (correct event : str) : diag :=
  Diag lineNum
    ("Use camelCase: '" ++ correct ++ "' instead of '" ++ event ++ "'")
    attribute_t None.

Definition is_structure (d : diag) : bool :=
  match type d with structure_t => true | _ => false end.

(** Sample lines. *)
Definition button_onClick : str :=
  "<button onClick=" ++ dq ++ "x" ++ dq ++ ">".
Definition button_onclick : str :=
  "<button onclick=" ++ dq ++ "x" ++ dq ++ ">".
Definition label_htmlFor : str :=
  "<label htmlFor=" ++ dq ++ "x" ++ dq ++ ">".
Definition two_php_lines : str := "echo 1;" ++ ["010"%char] ++ "echo 2;".

(** The component dialects. *)
Definition component (ft : fileType) : bool :=
  fileType_eqb ft jsx || fileType_eqb ft tsx.

End Validator.

(** ** JavaScript objects used as dictionaries *)

Module Obj.
Section Obj.
Context {V : Type}.

(** The own properties, in insertion order. *)
Definition t : Type := list (str * V).

Definition eqb (a b : str) : bool := bool_decide (a = b).

(** [o[k]] *)
Fixpoint get (o : t) (k : str) : option V :=
  match o with
  | [] => None
  | (k', v) :: o' => if eqb k' k then Some v else get o' k
  end.

(** [o[k] = v]: an existing property keeps its place, a new one goes last. *)
Fixpoint set (o : t) (k : str) (v : V) : t :=
  match o with
  | [] => [(k, v)]
  | (k', v') :: o' => if eqb k' k then (k', v) :: o' else (k', v') :: set o' k v
  end.

(** [delete o[k]] *)
Fixpoint delete (o : t) (k : str) : t :=
  match o with
  | [] => []
  | (k', v') :: o' => if eqb k' k then o' else (k', v') :: delete o' k
  end.

(** [Object.keys(o)] *)
Definition keys (o : t) : list str := map fst o.

End Obj.
Arguments t : clear implicits.
End Obj.

(** ** The CSS rule parser and the optimizer *)

Module Css.
Import Re ReLib.

(** [{ selector, declarations }] *)
Record rule : Type := Rule { selector : str; declarations : str }.

(** [{ query, content }] *)
Record mediaRule : Type := MediaRule { query : str; content : str }.

(** [{ rules, mediaRules }] *)
Record parsed : Type := Parsed {
  rules : list rule;
  mediaRules : list mediaRule
}.

(** [/\/\*[\s\S]*?\*\//g] *)
Definition commentRegex : regex :=
  Seq [Lit "/"; Lit "*"; Rep false anything; Lit "*"; Lit "/"].

(** [/@media\s*([^{]+)\s*\{([\s\S]*?)\}(?=\s*(@media|$))/g] *)
Definition mediaRegex : regex :=
  Seq [Word "@media"; Rep true ws; Grp 1 (Rep1 true (Cls (none_of "{")));
       Rep true ws; Lit "{"; Grp 2 (Rep false anything); Lit "}";
       Ahead (Seq [Rep true ws; Grp 3 (Alt (Word "@media") Eos)])].

(** [/([^{]+)\{([^}]+)\}/g] *)
Definition ruleRegex : regex :=
  Seq [Grp 1 (Rep1 true (Cls (none_of "{"))); Lit "{";
       Grp 2 (Rep1 true (Cls (none_of "}"))); Lit "}"].

(** [if (selector && declarations) rules.push({ selector, declarations })] *)
Definition push_rule (rules : list rule) (m : found) : list rule :=
  let selector := Js.trim (group m 1) in
  let declarations := Js.trim (group m 2) in
  match selector, declarations with
  | _ :: _, _ :: _ => rules ++ [Rule selector declarations]
  | _, _ => rules
  end.

Definition parseCSSRules (cssText : str) : parsed :=
  let cssText := remove commentRegex cssText in
  let mediaRules :=
    map (fun m => MediaRule (Js.trim (group m 1)) (group m 2))
        (fst (matchAll mediaRegex cssText)) in
  let cssText := remove mediaRegex cssText in
  let rules := foldl push_rule [] (fst (matchAll ruleRegex cssText)) in
  Parsed rules mediaRules.

(** [grouped]: selector to (property to value).  The definitions that
    follow compute on the own properties, in the order of their creation;
    module [Run] has the same statements on the objects of the engine. *)
Abbreviation grouping := (Obj.t (Obj.t str)).

(** The body of [declarations.split(';').forEach(decl => ...)]:
    [const [prop, val] = decl.split(':').map(s => s.trim());
     if (prop && val) grouped[selector][prop] = val]. *)
Definition add_decl (selector : str) (grouped : grouping) (decl : str)
    : grouping :=
  match map Js.trim (Js.split ":" decl) with
  | (_ :: _) as prop :: (_ :: _) as val :: _ =>
      Obj.set grouped selector
        (Obj.set (default [] (Obj.get grouped selector)) prop val)
  | _ => grouped
  end.

(** The body of [rules.forEach(({ selector, declarations }) => ...)]. *)
Definition add_rule (grouped : grouping) (r : rule) : grouping :=
  let grouped :=
    match Obj.get grouped (selector r) with
    | None => Obj.set grouped (selector r) []
    | Some _ => grouped
    end in
  foldl (add_decl (selector r)) grouped (Js.split ";" (declarations r)).

Definition group_rules (rules : list rule) : grouping :=
  foldl add_rule [] rules.

(** [/\.[a-zA-Z0-9_-]+/g] *)
Definition class_char (c : ascii) : bool :=
  Js.is_lower c || Js.is_upper c || Js.is_digit c || one_of "_-" c.

Definition classRegex : regex := Seq [Lit "."; Rep1 true (Cls class_char)].

(** [selector.match(/\.[a-zA-Z0-9_-]+/g)]: [null] without a match. *)
Definition class_tokens (selector : str) : option (list str) :=
  match fst (matchAll classRegex selector) with
  | [] => None
  | ms => Some (map matched ms)
  end.

(** The test under which a selector is deleted:
    [classes && classes.some(cls => !usedClasses.has(cls.slice(1)))
     && !selector.includes(':')]. *)
Definition unused (usedClasses : gset str) (selector : str) : bool :=
  match class_tokens selector with
  | Some classes =>
      let hasUnused :=
        existsb (fun cls => negb (bool_decide (Js.slice cls 1 ∈ usedClasses)))
                classes in
      hasUnused && negb (Js.includes selector ":")
  | None => false
  end.

(** [if (usedClasses) Object.keys(grouped).forEach(selector => ...)];
    [null] is [None], and a [Set], even an empty one, is truthy. *)
Definition drop_unused (usedClasses : option (gset str)) (grouped : grouping)
    : grouping :=
  match usedClasses with
  | Some used =>
      foldl (fun g selector =>
               if unused used selector then Obj.delete g selector else g)
            grouped (Obj.keys grouped)
  | None => grouped
  end.

(** [prop:value;] for every property of a group. *)
Definition write_decls (decls : Obj.t str) : str :=
  foldl (fun output '(prop, val) => output ++ prop ++ ":" ++ val ++ ";")
        [] decls.

(** [selector{...}] for every group. *)
Definition write_groups (grouped : grouping) : str :=
  foldl (fun output '(selector, decls) =>
           output ++ selector ++ "{" ++ write_decls decls ++ "}")
        [] grouped.

(** The body of [mediaRules.forEach(({ query, content }) => ...)]. *)
Definition write_media (usedClasses : option (gset str)) (output : str)
    (m : mediaRule) : str :=
  let mediaContentRules := rules (parseCSSRules (content m)) in
  let mediaGrouped := group_rules mediaContentRules in
  let mediaGrouped := drop_unused usedClasses mediaGrouped in
  if 0 <? length (Obj.keys mediaGrouped) then
    output ++ "@media " ++ query m ++ "{" ++ write_groups mediaGrouped ++ "}"
  else output.

Definition optimizeCSS (cssText : str) (usedClasses : option (gset str))
    : str :=
  let p := parseCSSRules cssText in
  let grouped := group_rules (rules p) in
  let grouped := drop_unused usedClasses grouped in
  let output := write_groups grouped in
  foldl (write_media usedClasses) output (mediaRules p).

(** *** Vocabulary of the properties *)

(** The text of one group and of one declaration in the output. *)
Definition group_text (selector : str) (decls : Obj.t str) : str :=
  selector ++ "{" ++ write_decls decls ++ "}".

Definition decl_text (prop val : str) : str := prop ++ ":" ++ val ++ ";".

(** The groups of the top level, before and after the filter. *)
Definition merged (cssText : str) : grouping :=
  group_rules (rules (parseCSSRules cssText)).

Definition emitted (cssText : str) (usedClasses : option (gset str))
    : grouping :=
  drop_unused usedClasses (merged cssText).

(** The groups of one media block after the filter, and its text. *)
Definition media_emitted (usedClasses : option (gset str)) (m : mediaRule)
    : grouping :=
  drop_unused usedClasses (group_rules (rules (parseCSSRules (content m)))).

Definition media_text (usedClasses : option (gset str)) (m : mediaRule)
    : str :=
  write_media usedClasses [] m.

(** The filter deletes the selector. *)
Definition deleted (usedClasses : option (gset str)) (selector : str)
    : bool :=
  match usedClasses with
  | Some used => unused used selector
  | None => false
  end.

(** [sel] is the selector of a rule of the top level. *)
Definition top_selector (cssText sel : str) : Prop :=
  sel ∈ map selector (rules (parseCSSRules cssText)).


(** The output has the group of [sel] with the declarations [decls]. *)
Definition emits (output sel : str) (decls : Obj.t str) : Prop :=
  ∃ pre post, output = pre ++ group_text sel decls ++ post.

(** The groups of one media block before the filter. *)
Definition media_merged (m : mediaRule) : grouping :=
  group_rules (rules (parseCSSRules (content m))).

(** [sel] is kept at the top level, resp. in the media block [m]: the
    declarations merged for it are still under it after the filter, and its
    group is in the output. *)
Definition kept_top (cssText : str) (usedClasses : option (gset str))
    (sel : str) : Prop :=
  ∃ decls, Obj.get (merged cssText) sel = Some decls ∧
           Obj.get (emitted cssText usedClasses) sel = Some decls ∧
           emits (optimizeCSS cssText usedClasses) sel decls.

Definition kept_media (cssText : str) (usedClasses : option (gset str))
    (m : mediaRule) (sel : str) : Prop :=
  ∃ decls, Obj.get (media_merged m) sel = Some decls ∧
           Obj.get (media_emitted usedClasses m) sel = Some decls ∧
           emits (optimizeCSS cssText usedClasses) sel decls.

(** [sel] is kept wherever the parser met it. *)
Definition kept_everywhere (cssText : str) (usedClasses : option (gset str))
    (sel : str) : Prop :=
  (top_selector cssText sel → kept_top cssText usedClasses sel) ∧
  (∀ m, m ∈ mediaRules (parseCSSRules cssText) →
        sel ∈ map selector (rules (parseCSSRules (content m))) →
        kept_media cssText usedClasses m sel).

(** What one rule occurrence declares by itself: its declarations written,
    in order, into the mapping [decls] (the empty one for [declared]). *)
Definition write_decl (decls : Obj.t str) (decl : str) : Obj.t str :=
  match map Js.trim (Js.split ":" decl) with
  | (_ :: _) as prop :: (_ :: _) as val :: _ => Obj.set decls prop val
  | _ => decls
  end.

Definition rule_decls (r : rule) (decls : Obj.t str) : Obj.t str :=
  foldl write_decl decls (Js.split ";" (declarations r)).

Definition declared (r : rule) (prop : str) : option str :=
  Obj.get (rule_decls r []) prop.

(** The media blocks that are written: the query and the groups of each
    block that keeps a group. *)
Definition blocks (cssText : str) (usedClasses : option (gset str))
    : list (str * grouping) :=
  omap (fun m =>
          match media_emitted usedClasses m with
          | [] => None
          | g => Some (query m, g)
          end)
       (mediaRules (parseCSSRules cssText)).

Definition block_text (b : str * grouping) : str :=
  "@media " ++ fst b ++ "{" ++ write_groups (snd b) ++ "}".

(** The text of an output with the groups [G] and the media blocks [B]. *)
Definition render (G : grouping) (B : list (str * grouping)) : str :=
  write_groups G ++ concat (map block_text B).

(** What the parser and the grouping guarantee of their results: a selector
    is not empty, has no white space around it and no [{]; a property or a
    value is not empty, has no white space around it and none of [:], [;]
    and [}]; a query has no white space around it and no [{]; no key comes
    twice. *)
Definition selector_ok (sel : str) : Prop :=
  sel ≠ [] ∧ Text.tight sel ∧ ("{"%char ∉ sel).

Definition word_ok (w : str) : Prop :=
  w ≠ [] ∧ Text.tight w ∧ (":"%char ∉ w) ∧ (";"%char ∉ w) ∧ ("}"%char ∉ w).

Definition query_ok (q : str) : Prop :=
  Text.tight q ∧ ("{"%char ∉ q).

Definition decls_ok (decls : Obj.t str) : Prop :=
  NoDup (Obj.keys decls) ∧
  Forall (fun pv => word_ok (fst pv) ∧ word_ok (snd pv)) decls.

Definition groups_ok (g : grouping) : Prop :=
  NoDup (Obj.keys g) ∧
  Forall (fun sd => selector_ok (fst sd) ∧ decls_ok (snd sd)) g.

Definition blocks_ok (B : list (str * grouping)) : Prop :=
  Forall (fun b => query_ok (fst b) ∧ groups_ok (snd b) ∧ snd b ≠ []) B.

(** What an output must have besides to be read back as it is: every group
    has a declaration, and no selector, property, value or query contains
    the text [@media] or the opening of a comment. *)
Definition plain (s : str) : bool :=
  negb (Js.includes s "@media") && negb (Js.includes s "/*").

Definition plain_decls (decls : Obj.t str) : bool :=
  forallb (fun pv => plain (fst pv) && plain (snd pv)) decls.

Definition plain_groups (g : grouping) : bool :=
  forallb (fun sd =>
             plain (fst sd) && (0 <? length (snd sd)) &&
             plain_decls (snd sd)) g.

Definition plain_blocks (B : list (str * grouping)) : bool :=
  forallb (fun b => plain (fst b) && plain_groups (snd b)) B.

Definition plain_output (cssText : str) (usedClasses : option (gset str))
    : bool :=
  plain_groups (emitted cssText usedClasses) &&
  plain_blocks (blocks cssText usedClasses).

(** No group is one that the filter deletes. *)
Definition all_kept (usedClasses : option (gset str)) (g : grouping) : Prop :=
  Forall (fun sd => deleted usedClasses (fst sd) = false) g.

(** Sample style sheets. *)
Definition css_a_b : str := ".a{color:red}.b{color:blue}".
Definition css_b_a : str := ".b{color:blue}.a{color:red}".
Definition css_hover : str := ".unused:hover{color:red}".
Definition css_media : str := "@media (max-width:600px){.x{color:red}}".
Definition css_bare : str := "a{x}".

End Css.

(** ** The dictionaries as the engine keeps them *)

(** [grouped], [mediaGrouped] and the groups in them are objects created by
    [{}]: their prototype is [Object.prototype].  An [Obj.t] holds the own
    properties of such an object in the order of their creation; this module
    adds what the engine does on top of them.  [App.jsx] is a module, so its
    code is strict: an assignment that cannot be done throws [TypeError]. *)

Module Dict.

(** The methods of [Object.prototype]; [__proto__], its one accessor, is
    treated by name. *)
Definition methods : list str :=
  ["constructor" : str; "__defineGetter__" : str; "__defineSetter__" : str;
   "hasOwnProperty" : str; "__lookupGetter__" : str;
   "__lookupSetter__" : str; "isPrototypeOf" : str;
   "propertyIsEnumerable" : str; "toString" : str; "valueOf" : str;
   "toLocaleString" : str].

(** What the code changes of the built-in objects and reads again: the
    properties, with a string for value, that it has put on
    [Object.prototype] ([added]), and whether [Object.keys] is still the
    function ([keys_fn]).  Any other property that it sets on a method is
    read by nothing here and is not recorded. *)
Record heap : Type := Heap { added : Obj.t str; keys_fn : bool }.

(** The built-in objects as the language defines them. *)
Definition pristine : heap := Heap [] true.

(** A computation that reads and changes the built-in objects and returns
    or throws a [TypeError]. *)
Inductive outcome (A : Type) : Type :=
| Returns (a : A)
| Throws.
Arguments Returns {A} a.
Arguments Throws {A}.

Definition M (A : Type) : Type := heap → outcome A * heap.

Definition ret {A} (a : A) : M A := λ h, (Returns a, h).

Definition bind {A B} (m : M A) (k : A → M B) : M B := λ h,
  match m h with
  | (Returns a, h') => k a h'
  | (Throws, h') => (Throws, h')
  end.

Definition throw {A} : M A := λ h, (Throws, h).

Notation "'let*' x := m 'in' k" := (bind m (λ x, k))
  (at level 10, x name, m at level 100, k at level 200, only parsing).

(** [l.forEach(a => ...)], the callback changing the state [s]. *)
Fixpoint forEach {A S} (f : S → A → M S) (l : list A) (s : S) : M S :=
  match l with
  | [] => ret s
  | a :: l' => let* s' := f s a in forEach f l' s'
  end.

(** The value of the digits [s] after the digits of value [acc]. *)
Fixpoint digits (acc : N) (s : str) : option N :=
  match s with
  | [] => Some acc
  | c :: s' =>
      if Js.is_digit c
      then digits (acc * 10 + (N_of_ascii c - 48))%N s'
      else None
  end.

(** An array index: the canonical decimal of an integer from 0 to
    2^32 - 2. *)
Definition array_index (k : str) : option N :=
  match k with
  | [] => None
  | c :: s' =>
      if Ascii.eqb c "0" && negb (length s' =? 0) then None
      else match digits 0 k with
           | Some n => if (n <? 4294967295)%N then Some n else None
           | None => None
           end
  end.

Definition is_index (k : str) : bool :=
  match array_index k with Some _ => true | None => false end.

(** The own properties in the order of [Object.keys]: those whose key is
    an array index in ascending order of the index, then the others in the
    order of their creation. *)
Fixpoint insert {V} (n : N) (e : str * V) (l : list (N * (str * V)))
    : list (N * (str * V)) :=
  match l with
  | [] => [(n, e)]
  | (m, e') :: l' =>
      if (n <? m)%N then (n, e) :: l else (m, e') :: insert n e l'
  end.

Definition indexed {V} (o : Obj.t V) : list (N * (str * V)) :=
  foldr (λ e acc, match array_index (fst e) with
                  | Some n => insert n e acc
                  | None => acc
                  end) [] o.

Definition ordered {V} (o : Obj.t V) : Obj.t V :=
  map snd (indexed o) ++ List.filter (λ e, negb (is_index (fst e))) o.

(** [Object.keys(o)]: a [TypeError] when [Object.keys] is no function. *)
Definition keys {V} (o : Obj.t V) : M (list str) := λ h,
  if keys_fn h then (Returns (Obj.keys (ordered o)), h) else (Throws, h).

(** What [grouped[k]] evaluates to: a group of [grouped]; or, found on the
    prototype, [Object.prototype] itself for [__proto__], a string that the
    code has put there, or one of the methods; or [undefined]. *)
Inductive jsval : Type :=
| Own (decls : Obj.t str)
| Proto
| Text (s : str)
| Method (name : str)
| Undefined.

Definition lookup (grouped : Obj.t (Obj.t str)) (k : str) : M jsval := λ h,
  (Returns
     match Obj.get grouped k with
     | Some decls => Own decls
     | None =>
         if Obj.eqb k "__proto__" then Proto
         else match Obj.get (added h) k with
              | Some s => Text s
              | None =>
                  if bool_decide (k ∈ methods) then Method k else Undefined
              end
     end, h).

(** [!v] *)
Definition falsy (v : jsval) : bool :=
  match v with
  | Undefined => true
  | Text [] => true
  | _ => false
  end.

(** The properties of a built-in function that an assignment cannot set:
    [length] and [name] are not writable, [arguments] and [caller] are
    accessors of [Function.prototype] that throw, and the property
    [prototype] of [Object], which is the method [constructor], is not
    writable either. *)
Definition readonly (method prop : str) : bool :=
  bool_decide (prop ∈ ["length" : str; "name" : str; "arguments" : str;
                       "caller" : str]) ||
  (Obj.eqb method "constructor" && Obj.eqb prop "prototype").

(** [grouped[k][prop] = val], for a string [val].  The setter of
    [__proto__] ignores a string, whatever the object.  Otherwise the
    property is set on the group; on [Object.prototype]; on the method,
    where [Object.keys] may be lost; and setting a property on a string or
    on [undefined] throws. *)
Definition assign (grouped : Obj.t (Obj.t str)) (k prop val : str)
    : M (Obj.t (Obj.t str)) :=
  let* v := lookup grouped k in
  match v with
  | Undefined => throw
  | _ =>
      if Obj.eqb prop "__proto__" then ret grouped
      else match v with
           | Own decls => ret (Obj.set grouped k (Obj.set decls prop val))
           | Proto =>
               λ h, (Returns grouped,
                     Heap (Obj.set (added h) prop val) (keys_fn h))
           | Text _ => throw
           | Method f =>
               if readonly f prop then throw
               else if Obj.eqb f "constructor" && Obj.eqb prop "keys"
                    then λ h, (Returns grouped, Heap (added h) false)
                    else ret grouped
           | Undefined => throw
           end
  end.

End Dict.

(** ** The optimizer as the engine runs it *)

(** [Css.optimizeCSS] computes with dictionaries that have nothing but
    their own properties in the order of creation.  Here the same
    statements run on the objects of [Dict]; the two agree where no
    selector and no property is an array index or the name of a member of
    [Object.prototype] ([Run.ordinary]). *)

Module Run.
Import Re ReLib Css Dict.

(** The body of [declarations.split(';').forEach(decl => ...)]. *)
Definition add_decl (selector : str) (grouped : grouping) (decl : str)
    : M grouping :=
  match map Js.trim (Js.split ":" decl) with
  | (_ :: _) as prop :: (_ :: _) as val :: _ =>
      assign grouped selector prop val
  | _ => ret grouped
  end.

(** The body of [rules.forEach(({ selector, declarations }) => ...)]:
    [if (!grouped[selector]) grouped[selector] = {}], then the
    declarations. *)
Definition add_rule (grouped : grouping) (r : rule) : M grouping :=
  let* v := lookup grouped (selector r) in
  let grouped :=
    if falsy v then Obj.set grouped (selector r) [] else grouped in
  forEach (add_decl (selector r)) (Js.split ";" (declarations r)) grouped.

Definition group_rules (rules : list rule) : M grouping :=
  forEach add_rule rules [].

(** [if (usedClasses) Object.keys(grouped).forEach(selector => ...)]. *)
Definition drop_unused (usedClasses : option (gset str))
    (grouped : grouping) : M grouping :=
  match usedClasses with
  | Some used =>
      let* ks := keys grouped in
      ret (foldl (λ g selector,
                     if unused used selector then Obj.delete g selector
                     else g)
                  grouped ks)
  | None => ret grouped
  end.

(** [Object.keys(decls).forEach(prop => output += ...)]. *)
Definition write_decls (decls : Obj.t str) (output : str) : M str :=
  let* ks := keys decls in
  ret (foldl (λ output prop,
                 output ++ prop ++ ":" ++ default [] (Obj.get decls prop)
                 ++ ";")
              output ks).

(** [Object.keys(grouped).forEach(selector => ...)]. *)
Definition write_groups (grouped : grouping) (output : str) : M str :=
  let* ks := keys grouped in
  forEach (λ output selector,
             let* output := write_decls (default [] (Obj.get grouped selector))
                        (output ++ selector ++ "{") in
             ret (output ++ "}"))
          ks output.

(** The body of [mediaRules.forEach(({ query, content }) => ...)]. *)
Definition write_media (usedClasses : option (gset str)) (output : str)
    (m : mediaRule) : M str :=
  let* mediaGrouped := group_rules (rules (parseCSSRules (content m))) in
  let* mediaGrouped := drop_unused usedClasses mediaGrouped in
  let* ks := keys mediaGrouped in
  if 0 <? length ks then
    let* output := write_groups mediaGrouped
               (output ++ "@media " ++ query m ++ "{") in
    ret (output ++ "}")
  else ret output.

Definition optimizeCSS (cssText : str) (usedClasses : option (gset str))
    : M str :=
  let p := parseCSSRules cssText in
  let* grouped := group_rules (rules p) in
  let* grouped := drop_unused usedClasses grouped in
  let* output := write_groups grouped [] in
  forEach (write_media usedClasses) (mediaRules p) output.

(** *** Vocabulary of the properties *)

(** The groups of the top level, before and after the filter. *)
Definition merged (cssText : str) : M grouping :=
  group_rules (rules (parseCSSRules cssText)).

Definition emitted (cssText : str) (usedClasses : option (gset str))
    : M grouping :=
  let* grouped := merged cssText in drop_unused usedClasses grouped.

(** The groups of one media block after the filter. *)
Definition media_emitted (usedClasses : option (gset str)) (m : mediaRule)
    : M grouping :=
  let* grouped := group_rules (rules (parseCSSRules (content m))) in
  drop_unused usedClasses grouped.

(** The text of a dictionary of groups, groups and declarations in the
    order of [Object.keys]. *)
Definition groups_text (grouped : grouping) : str :=
  Css.write_groups (map (λ sd, (fst sd, ordered (snd sd))) (ordered grouped)).

(** [kept U grouped h sel decls]: with the built-in objects [h], the filter
    leaves the group [decls] of [sel] in [grouped], and the writer writes
    it. *)
Definition kept (usedClasses : option (gset str)) (grouped : grouping)
    (h : heap) (sel : str) (decls : Obj.t str) : Prop :=
  ∃ grouped' output,
    drop_unused usedClasses grouped h = (Returns grouped', h) ∧
    Obj.get grouped' sel = Some decls ∧
    write_groups grouped' [] h = (Returns output, h) ∧
    emits output sel (ordered decls).

(** The declarations of a rule that are written: those with a property and
    a value. *)
Definition writes (r : rule) : list (str * str) :=
  omap (λ decl,
          match map Js.trim (Js.split ":" decl) with
          | (_ :: _) as prop :: (_ :: _) as val :: _ => Some (prop, val)
          | _ => None
          end)
       (Js.split ";" (declarations r)).

(** A selector, resp. a property, on which the object and the dictionary
    of own properties agree: no array index and no name of a member of
    [Object.prototype]; for a property, [__proto__] is the one name that
    matters. *)
Definition ordinary_selector (k : str) : bool :=
  negb (is_index k) && negb (Obj.eqb k "__proto__") &&
  negb (bool_decide (k ∈ methods)).

Definition ordinary_property (k : str) : bool :=
  negb (is_index k) && negb (Obj.eqb k "__proto__").

Definition ordinary_rules (rs : list rule) : bool :=
  forallb (λ r, ordinary_selector (selector r) &&
                forallb (λ pv, ordinary_property (fst pv)) (writes r)) rs.

Definition ordinary_groups (g : grouping) : bool :=
  forallb (λ sd, ordinary_selector (fst sd) &&
                 forallb (λ pv, ordinary_property (fst pv)) (snd sd)) g.

(** A style sheet all of whose rules, at the top level and in the media
    blocks, are ordinary. *)
Definition ordinary (cssText : str) : bool :=
  let p := parseCSSRules cssText in
  ordinary_rules (rules p) &&
  forallb (λ m, ordinary_rules (rules (parseCSSRules (content m))))
          (mediaRules p).

End Run.

(** ** The handlers of the component *)

Module App.
Import Validator Css Extractor.

(** The state [mode]: ['css-only'] or ['jsx-css']. *)
Inductive mode : Type := css_only | jsx_css.

(** [handleValidate]: the state [validation] after the handler, from the
    states [jsxInput], [fileType] and [validation] before it:
    [if (!jsxInput.trim()) return;
     setValidation(validateSyntax(jsxInput, fileType))]. *)
Definition handleValidate (jsxInput : str) (fileType : fileType)
    (validation : option result) : option result :=
  match Js.trim jsxInput with
  | [] => validation
  | _ :: _ => Some (validateSyntax jsxInput fileType)
  end.

(** The first statements of [handleOptimize]: [usedClasses] is [null]
    unless the mode is ['jsx-css'] and the code is not blank. *)
Definition usedClasses (mode : mode) (jsxInput : str) : option (gset str) :=
  match mode, Js.trim jsxInput with
  | jsx_css, _ :: _ => Some (extractClassNames jsxInput)
  | _, _ => None
  end.

(** What [handleOptimize] puts into the state [output]: the result of
    [optimizeCSS], or in the [catch] the comment
    [/* Error: ${error.message} */] with the message of the engine. *)
Inductive shown : Type :=
| Output (s : str)
| ErrorComment.

Definition result (mode : mode) (jsxInput cssInput : str)
    : Dict.heap → shown * Dict.heap := λ h,
  match Run.optimizeCSS cssInput (usedClasses mode jsxInput) h with
  | (Dict.Returns s, h') => (Output s, h')
  | (Dict.Throws, h') => (ErrorComment, h')
  end.

(** What the component shows of the state [validation]: the panel of the
    results, [validation && (validation.errors.length > 0 ||
    validation.warnings.length > 0)], and the message of success,
    [validation && validation.errors.length === 0 &&
    validation.warnings.length === 0]. *)
Definition shows_results (validation : option Validator.result) : bool :=
  match validation with
  | Some v => (0 <? length (errors v)) || (0 <? length (warnings v))
  | None => false
  end.

Definition shows_success (validation : option Validator.result) : bool :=
  match validation with
  | Some v => (length (errors v) =? 0) && (length (warnings v) =? 0)
  | None => false
  end.

End App.

(** ** Vocabulary on the patterns *)

Module Pattern.
Import Re.

(** [progress r]: a match of [r] is never empty. *)
Definition progress (r : regex) : Prop :=
  ∀ total (t s' : str) cs,
    match_here total r t = Some (s', cs) → length s' < length t.

(** [lengthless r]: [r] matches alike whatever the length of the subject,
    which only [^] looks at. *)
Definition lengthless (r : regex) : Prop :=
  ∀ total total' (t : str), match_here total r t = match_here total' r t.

End Pattern.

(** ** Vocabulary on the diagnostics *)

Module Report.
Import Validator.

(** The diagnostics of a wrong [#] comment and of a missing semicolon. *)
Definition hash_error (lineNum : nat) : diag :=
  Diag lineNum "Wrong comment syntax: Use '//' or '/* */' instead of '#'"
    comment_t None.


(** A diagnostic moved [n] lines down. *)
Definition shift (n : nat) (d : diag) : diag :=
  Diag (line d + n) (message d) (type d) (suggestion d).

(** The types of the errors and of the warnings that a dialect can draw. *)
Definition error_types (ft : fileType) : list category :=
  match ft with
  | jsx | tsx | html => [comment_t; attribute_t]
  | js | ts => [comment_t]
  | php => [attribute_t]
  | vue => []
  end.

Definition warning_types (ft : fileType) : list category :=
  match ft with
  | jsx | tsx | js | ts => [style_t]
  | php => [comment_t; structure_t]
  | html | vue => []
  end.

(** The dialects of the script family, which have the comment checks and
    the semicolon check. *)
Definition script (ft : fileType) : bool :=
  match ft with jsx | tsx | js | ts => true | _ => false end.


End Report.

(** [blank s]: [s] is made of white space only. *)
Definition blank (s : str) : Prop := Forall (λ c, Js.is_space c = true) s.


(** ** Vocabulary on the merge *)

Module Merge.
Import Css.

(** The selectors of a list, each at its first occurrence. *)
Fixpoint first_occurrences (l : list str) : list str :=
  match l with
  | [] => []
  | x :: l' =>
      x :: List.filter (λ y, negb (Obj.eqb y x)) (first_occurrences l')
  end.

(** The value that the last rule of the selector [sel] to declare the
    property [prop] gives it. *)
Fixpoint last_declared (rs : list rule) (sel prop : str) : option str :=
  match rs with
  | [] => None
  | r :: rs' =>
      match last_declared rs' sel prop with
      | Some v => Some v
      | None => if Obj.eqb (selector r) sel then declared r prop else None
      end
  end.

(** The value of a property in a group of a dictionary of groups. *)
Definition value (g : grouping) (sel prop : str) : option str :=
  match Obj.get g sel with
  | Some decls => Obj.get decls prop
  | None => None
  end.

End Merge.

(** ** Vocabulary on the extractor *)

(** [clean_word code c]: [c] is a piece of [code] that is not empty and has
    no white space and no quote in it. *)
Definition clean_word (code c : str) : Prop :=
  c ≠ [] ∧ Forall (λ a, Js.is_space a = false) c ∧
  (dquote ∉ c) ∧ (squote ∉ c) ∧ Js.includes code c = true.

(** [word_of v w]: [w] is a word of [v]: it is not empty, has no white space
    in it, and has white space or an end of [v] on either side. *)
Definition word_of (v w : str) : Prop :=
  w ≠ [] ∧ Forall (λ c, Js.is_space c = false) w ∧
  ∃ a b, v = a ++ w ++ b ∧
         (a = [] ∨ ∃ a' c, a = a' ++ [c] ∧ Js.is_space c = true) ∧
         (b = [] ∨ ∃ c b', b = c :: b' ∧ Js.is_space c = true).

(** ** Vocabulary on the layout of a style sheet *)

Module Layout.
Import Css.

(** [padded x y]: [y] is [x] with white space around it. *)
Definition padded (x y : str) : Prop :=
  ∃ a b, blank a ∧ blank b ∧ y = a ++ x ++ b.

(** The pieces [ps] put together with [sep] between them. *)
Fixpoint join (sep : ascii) (ps : list str) : str :=
  match ps with
  | [] => []
  | [p] => p
  | p :: ps' => p ++ sep :: join sep ps'
  end.

(** [laid_decls d ps]: the pieces [ps], which are to stand between [;],
    lay out the declarations [d]: each piece is white space, or the next
    property and its value with [:] between them and white space around
    each. *)
Inductive laid_decls : Obj.t str → list str → Prop :=
| laid_none : laid_decls [] []
| laid_blank x d ps :
    blank x → laid_decls d ps → laid_decls d (x :: ps)
| laid_decl p v p' v' d ps :
    padded p p' → padded v v' → laid_decls d ps →
    laid_decls ((p, v) :: d) ((p' ++ ":" ++ v') :: ps).

(** [laid_out G text]: [text] lays out the groups [G], one rule for each in
    order: the selector with white space around it, and between the braces
    a layout of the declarations; white space may end the text. *)
Inductive laid_out : grouping → str → Prop :=
| laid_end tl : blank tl → laid_out [] tl
| laid_rule sel sel' d ps G rest :
    padded sel sel' → laid_decls d ps → laid_out G rest →
    laid_out ((sel, d) :: G)
             (sel' ++ "{" ++ join ";" ps ++ "}" ++ rest).

End Layout.

(** * Properties *)

(** ** Facts on the string primitives *)

Section JsFacts.

Lemma ascii_eqb_eq (a b : ascii) : Ascii.eqb a b = true ↔ a = b.
Proof. apply Ascii.eqb_eq. Qed.

Lemma startsWith_app (s p : str) :
  Js.startsWith s p = true ↔ ∃ t, s = p ++ t.
Proof.
  revert s. induction p as [|a p IH]; intros s; simpl.
  - split; [intros _; by exists s | done].
  - destruct s as [|b s]; simpl.
    + split; [done | intros [t Ht]; done].
    + rewrite andb_true_iff, ascii_eqb_eq, IH. split.
      * intros [-> [t ->]]. by exists t.
      * intros [t Ht]. simplify_eq. eauto.
Qed.

Lemma includes_app (s sub : str) :
  Js.includes s sub = true ↔ ∃ pre post, s = pre ++ sub ++ post.
Proof.
  induction s as [|a s IH]; simpl.
  - rewrite orb_false_r, startsWith_app. split.
    + intros [t Ht]. by exists [], t.
    + intros (pre & post & H). symmetry in H.
      apply app_eq_nil in H as [-> H]. apply app_eq_nil in H as [-> ->].
      by exists [].
  - rewrite orb_true_iff, startsWith_app, IH. split.
    + intros [[t Ht] | (pre & post & Ht)].
      * by exists [], t.
      * exists (a :: pre), post. by rewrite Ht.
    + intros (pre & post & Ht). destruct pre as [|b pre]; simpl in Ht.
      * left. by exists post.
      * right. simplify_eq. by exists pre, post.
Qed.

Lemma includes_char (s : str) (c : ascii) :
  Js.includes s [c] = true ↔ c ∈ s.
Proof.
  rewrite includes_app. split.
  - intros (pre & post & ->). set_solver.
  - intros (pre & post & ->)%list_elem_of_split. by exists pre, post.
Qed.

Lemma includes_false_char (s : str) (c : ascii) :
  Js.includes s [c] = false ↔ c ∉ s.
Proof.
  rewrite <- includes_char. destruct (Js.includes s [c]); naive_solver.
Qed.

End JsFacts.

(** ** Facts on the matcher *)

Section ReFacts.
Import Re ReLib.

(** A pattern fails where its continuation fails on every suffix. *)
Lemma rmatch_none (total : nat) (r : regex) :
  ∀ (s : str) (cs : caps) (k : str → caps → option outcome),
    (∀ s' cs', s' `suffix_of` s → k s' cs' = None) →
    rmatch total r s cs k = None.
Proof.
  induction r as [| c | p | r1 IH1 r2 IH2 | r1 IH1 r2 IH2 | g r IH | n r IH
                 | r IH | |]; intros s cs k Hk; simpl.
  - by apply Hk.
  - destruct s as [|a s]; [done|]. destruct (Ascii.eqb a c); [|done].
    apply Hk, suffix_cons_r. done.
  - destruct s as [|a s]; [done|]. destruct (p a); [|done].
    apply Hk, suffix_cons_r. done.
  - apply IH1. intros s1 cs1 H1. apply IH2. intros s2 cs2 H2.
    apply Hk. by etrans.
  - rewrite IH1 by done. by apply IH2.
  - generalize (length s) at 1. intros fuel. revert s cs Hk.
    induction fuel as [|fuel IHf]; intros s cs Hk; simpl; [by apply Hk|].
    assert (rmatch total r s cs
              (λ s' cs', if length s' <? length s
                         then rep_loop (rmatch total r) g k fuel s' cs'
                         else None) = None) as Hr.
    { apply IH. intros s1 cs1 H1. destruct (length s1 <? length s); [|done].
      apply IHf. intros s2 cs2 H2. apply Hk. by etrans. }
    destruct g.
    + rewrite Hr. by apply Hk.
    + rewrite Hk by done. apply Hr.
  - apply IH. intros s1 cs1 H1. by apply Hk.
  - destruct (rmatch total r s cs _) as [[? ?]|]; [|done]. by apply Hk.
  - destruct (length s =? total); [|done]. by apply Hk.
  - destruct s; [|done]. by apply Hk.
Qed.

Lemma rmatch_cat_none total r1 r2 s cs k :
  (∀ s' cs', s' `suffix_of` s → rmatch total r2 s' cs' k = None) →
  rmatch total (Cat r1 r2) s cs k = None.
Proof. intros H. simpl. by apply rmatch_none. Qed.

Lemma rmatch_lit_none total c (s : str) cs k :
  c ∉ s → rmatch total (Lit c) s cs k = None.
Proof.
  destruct s as [|a s]; [done|]. simpl. intros H.
  destruct (Ascii.eqb a c) eqn:E; [|done].
  apply Ascii.eqb_eq in E. set_solver.
Qed.

Lemma suffix_not_elem_of (c : ascii) (s s' : str) :
  s' `suffix_of` s → c ∉ s → c ∉ s'.
Proof. intros [t ->]. set_solver. Qed.

(** No match anywhere in [s] when no suffix of [s] starts one. *)
Lemma search_none total r (s : str) :
  (∀ s', s' `suffix_of` s → match_here total r s' = None) →
  search total r s = None.
Proof.
  induction s as [|a s IH]; intros H; simpl.
  - by rewrite H.
  - rewrite H by done. rewrite IH; [done|].
    intros s' Hs'. apply H. by apply suffix_cons_r.
Qed.

Lemma count_none r (s : str) :
  (∀ s', s' `suffix_of` s → match_here (length s) r s' = None) →
  count r s = 0.
Proof.
  intros H. unfold count, matchAll. simpl. by rewrite search_none.
Qed.

End ReFacts.

(** ** The validator *)

Section ValidatorFacts.
Import Re ReLib Validator.

(** An opening tag ends with [>]: a line without [>] has none. *)
Lemma openTag_needs_gt (line : str) :
  ">"%char ∉ line → count openTag line = 0.
Proof.
  intros Hgt. apply count_none. intros s Hs. unfold match_here, openTag.
  cbn [Seq Word].
  repeat (apply rmatch_cat_none; intros).
  apply rmatch_lit_none.
  repeat (eapply suffix_not_elem_of; [eassumption|]). exact Hgt.
Qed.

End ValidatorFacts.

Section ValidatorLines.
Import Re ReLib Validator.

Lemma push_if_app c d l : push_if c d l = l ++ (if c then [d] else []).
Proof. destruct c; simpl; by rewrite ?app_nil_r. Qed.

Lemma check_event_app lineNum line errors event :
  check_event lineNum line errors event =
  errors ++ check_event lineNum line [] event.
Proof.
  unfold check_event. destruct (Js.includes _ _); by rewrite ?app_nil_r.
Qed.

Lemma check_events_app lineNum line errors events :
  foldl (check_event lineNum line) errors events =
  errors ++ foldl (check_event lineNum line) [] events.
Proof.
  revert errors. induction events as [|e es IH]; intros errors; simpl.
  - by rewrite app_nil_r.
  - rewrite IH, (IH (check_event _ _ [] _)), check_event_app.
    by rewrite app_assoc.
Qed.

(** The test that guards the unclosed-tag warning never holds: it asks for
    more opening tags than closing ones on a line without [>]. *)
Lemma tag_condition_false (line : str) :
  (count closeTag line + count selfClosingTag line <? count openTag line)
  && negb (Js.includes line ">") && Js.includes line "<" = false.
Proof.
  destruct (Js.includes line ">") eqn:E.
  - by rewrite andb_false_r.
  - apply (includes_false_char line ">"%char) in E.
    rewrite (openTag_needs_gt _ E). done.
Qed.

(** The checks of a line only push: they extend both lists. *)
Lemma check_line_app code ft acc index line :
  check_line code ft acc index line =
  Result (errors acc ++ errors (line_result code ft index line))
         (warnings acc ++ warnings (line_result code ft index line)).
Proof.
  unfold line_result, check_line.
  destruct acc as [es ws]; cbn [errors warnings].
  rewrite tag_condition_false, !push_if_app.
  destruct ft; cbn [fileType_eqb orb andb]; f_equal;
    repeat match goal with
           | |- context [match ?x with Some _ => _ | None => _ end] =>
               destruct x
           | |- context [if ?c then ?a else ?b] =>
               lazymatch b with [] => fail | _ => destruct c end
           end;
    rewrite ?(check_events_app _ _ (_ ++ _));
    cbn [app]; rewrite ?app_nil_r, <- ?app_assoc; done.
Qed.

End ValidatorLines.

Lemma elem_of_if_singleton {A} (c : bool) (x y : A) :
  x ∈ (if c then [y] else []) ↔ c = true ∧ x = y.
Proof.
  destruct c.
  - rewrite list_elem_of_singleton. split; [done | by intros [_ ?]].
  - rewrite elem_of_nil. split; [done | by intros [? _]].
Qed.

(** Splits a membership in a concatenation of pushes into its cases. *)
Ltac split_elem H :=
  first [ apply elem_of_app in H; destruct H as [H|H];
          [split_elem H | split_elem H]
        | apply elem_of_if_singleton in H; destruct H as [? H]
        | apply list_elem_of_singleton in H
        | apply elem_of_nil in H; destruct H ].

(** Finds an element in a concatenation of pushes. *)
Ltac find_elem :=
  first [ apply list_elem_of_singleton; reflexivity
        | apply elem_of_app; first [left; find_elem | right; find_elem] ].

(** Two diagnostics that differ in type, suggestion or message. *)
Ltac diag_neq H :=
  first [ discriminate (f_equal Validator.type H)
        | discriminate (f_equal Validator.suggestion H)
        | let Hm := fresh in
          pose proof (f_equal Validator.message H) as Hm; vm_compute in Hm;
          discriminate Hm ].

Section ValidatorClaims.
Import Re ReLib Validator.

Lemma forEach_lines_app code ft acc index lines :
  forEach_lines code ft acc index lines =
  Result
    (errors acc ++
     concat (imap (λ j l, errors (line_result code ft (index + j) l)) lines))
    (warnings acc ++
     concat (imap (λ j l, warnings (line_result code ft (index + j) l)) lines)).
Proof.
  revert acc index. induction lines as [|l ls IH]; intros acc index;
    cbn [forEach_lines imap concat].
  - destruct acc. by rewrite !app_nil_r.
  - rewrite IH, check_line_app. cbn [errors warnings].
    rewrite Nat.add_0_r, <- !app_assoc.
    f_equal; do 3 f_equal; apply imap_ext; intros j x _; cbn [compose];
      do 2 f_equal; lia.
Qed.

Lemma validateSyntax_errors code ft :
  errors (validateSyntax code ft) =
  concat (imap (λ j l, errors (line_result code ft j l)) (Js.split "010" code)).
Proof. unfold validateSyntax. by rewrite forEach_lines_app. Qed.

Lemma validateSyntax_warnings code ft :
  warnings (validateSyntax code ft) =
  concat (imap (λ j l, warnings (line_result code ft j l))
               (Js.split "010" code)).
Proof. unfold validateSyntax. by rewrite forEach_lines_app. Qed.

Lemma line_never_unclosed code ft index line :
  Forall (λ d, message d ≠ unclosed_msg)
         (warnings (line_result code ft index line)).
Proof.
  unfold line_result, check_line. cbn [errors warnings].
  rewrite tag_condition_false. unfold push_if.
  destruct ft; cbn [fileType_eqb orb andb];
    repeat match goal with
           | |- context [if ?c then _ else _] => destruct c
           end;
    cbn [app];
    repeat (apply Forall_cons; split; [cbv; discriminate|]);
    by apply Forall_nil.
Qed.

(** C9 (the code never does what the claim describes): no source text, in
    any dialect, draws the warning of a possible unclosed tag or multi-line
    element; its guard counts opening tags, each of which needs a [>], on a
    line required to have no [>]. *)
Theorem unclosed_tag_warning_never_emitted (code : str) (ft : fileType) :
  Forall (λ d, message d ≠ unclosed_msg) (warnings (validateSyntax code ft)).
Proof.
  rewrite validateSyntax_warnings. apply Forall_concat, Forall_forall.
  intros ws (j & l & -> & _)%elem_of_lookup_imap.
  apply line_never_unclosed.
Qed.

(** C7 (the code departs from the claim): the camelCase handler [onClick=]
    is reported like the lower-case one, because the line is lower-cased
    before the search, and the replacement named in the message is
    [Click=], the handler without its prefix. *)
Theorem camelCase_handler_reported :
  errors (validateSyntax button_onClick jsx)
    = [event_error 1 "Click=" "onclick="] ∧
  errors (validateSyntax button_onclick jsx)
    = [event_error 1 "Click=" "onclick="] ∧
  errors (validateSyntax button_onClick tsx)
    = [event_error 1 "Click=" "onclick="] ∧
  errors (validateSyntax button_onclick tsx)
    = [event_error 1 "Click=" "onclick="].
Proof. repeat split; vm_compute; reflexivity. Qed.

Lemma filter_concat_imap (w : diag) (lines : list str) :
  ∀ f : nat → str → list diag,
    (∀ j l, List.filter is_structure (f j l) = [w]) →
    List.filter is_structure (concat (imap f lines))
    = replicate (length lines) w.
Proof.
  induction lines as [|l ls IH]; intros f Hf; cbn [imap concat]; [done|].
  rewrite List.filter_app, Hf, IH; [done|]. intros j x. apply Hf.
Qed.

Lemma php_line_structure code index line :
  Js.includes code "<?php" = false → Js.trim code ≠ [] →
  List.filter is_structure (warnings (line_result code php index line))
  = [php_tag_warning].
Proof.
  intros Htag Hne. unfold line_result, check_line. cbn [errors warnings].
  rewrite Htag. cbn [fileType_eqb orb andb negb push_if].
  destruct (Js.trim code) as [|c t] eqn:E; [done|].
  cbn [length Nat.ltb Nat.leb].
  unfold push_if. destruct (_ && _); reflexivity.
Qed.

(** C8 (the code departs from the claim): a PHP source without the opening
    tag and not blank draws the structural warning once per line of the
    source, every copy anchored at line 1; the test sits inside the loop
    over the lines. *)
Theorem php_tag_warning_per_line (code : str) :
  Js.includes code "<?php" = false → Js.trim code ≠ [] →
  List.filter is_structure (warnings (validateSyntax code php))
  = replicate (length (Js.split "010" code)) php_tag_warning.
Proof.
  intros Htag Hne. rewrite validateSyntax_warnings.
  apply filter_concat_imap. intros j l. by apply php_line_structure.
Qed.

Lemma php_tag_warning_per_line_witness :
  Js.includes two_php_lines "<?php" = false ∧ Js.trim two_php_lines ≠ [] ∧
  List.filter is_structure (warnings (validateSyntax two_php_lines php))
  = [php_tag_warning; php_tag_warning].
Proof.
  split; [reflexivity|]. split; [discriminate|].
  apply (php_tag_warning_per_line two_php_lines); [reflexivity|discriminate].
Defined.

Lemma for_error_in_line code ft n index line :
  component ft = true →
  for_error ft n ∈ errors (line_result code ft index line) ↔
  n = index + 1 ∧ Js.includes line "for=" = true.
Proof.
  intros Hft. unfold line_result, check_line. cbn [errors warnings].
  rewrite !push_if_app.
  destruct ft; try discriminate Hft; cbn [fileType_eqb orb andb];
    cbn [foldl wrongEvents]; rewrite !(check_event_app _ _ (_ ++ _));
    unfold check_event, for_error;
    repeat match goal with
           | |- context [match ?x with Some _ => _ | None => _ end] =>
               destruct x
           | |- context [if ?c then ?a else ?b] =>
               lazymatch b with [] => fail | _ => destruct c end
           end;
    cbn [app];
    (split;
     [ intros H; split_elem H; try (exfalso; diag_neq H);
       split; [exact (f_equal Validator.line H) | assumption]
     | intros [-> Hc]; rewrite Hc; find_elem ]).
Qed.

Lemma elem_of_concat {A} (x : A) (ls : list (list A)) :
  x ∈ concat ls ↔ ∃ l, l ∈ ls ∧ x ∈ l.
Proof.
  rewrite list_elem_of_In, in_concat.
  split; intros (l & H1 & H2); exists l; by rewrite ?list_elem_of_In in *.
Qed.

(** C10 (amended): in the component dialects a line is reported with the
    error that asks for [htmlFor] exactly when it contains the text [for=],
    in lower case; [htmlFor=], with its capital F, does not contain it. *)
Theorem for_error_iff_lowercase_for (code : str) (ft : fileType)
    (index : nat) (line : str) :
  component ft = true →
  Js.split "010" code !! index = Some line →
  for_error ft (index + 1) ∈ errors (validateSyntax code ft) ↔
  Js.includes line "for=" = true.
Proof.
  intros Hft Hline. rewrite validateSyntax_errors, elem_of_concat. split.
  - intros (es & (j & l & -> & Hj)%elem_of_lookup_imap & Hin).
    apply for_error_in_line in Hin as [Hidx Hfor]; [|done].
    assert (j = index) as -> by lia. by simplify_eq.
  - intros Hfor. exists (errors (line_result code ft index line)). split.
    + apply elem_of_lookup_imap. by exists index, line.
    + by apply for_error_in_line.
Qed.

Lemma for_error_iff_lowercase_for_witness :
  component jsx = true ∧
  Js.split "010" label_htmlFor !! 0 = Some label_htmlFor ∧
  (for_error jsx 1 ∈ errors (validateSyntax label_htmlFor jsx) ↔
   Js.includes label_htmlFor "for=" = true).
Proof.
  split; [reflexivity|]. split; [reflexivity|].
  apply (for_error_iff_lowercase_for label_htmlFor jsx 0 label_htmlFor);
    reflexivity.
Defined.

(** C10 (as stated, refuted): a line with [htmlFor=] and no error at all. *)
Lemma htmlFor_line_not_reported :
  Js.includes label_htmlFor "htmlFor=" = true ∧
  (for_error jsx 1 ∉ errors (validateSyntax label_htmlFor jsx)) ∧
  errors (validateSyntax label_htmlFor jsx) = [].
Proof.
  split; [reflexivity|].
  assert (E : errors (validateSyntax label_htmlFor jsx) = []).
  { vm_compute. reflexivity. }
  rewrite E. split; [apply not_elem_of_nil | reflexivity].
Qed.

End ValidatorClaims.

(** ** Dictionaries *)

Section ObjFacts.
Context {V : Type}.
Implicit Types (o : Obj.t V) (k : str) (v : V).

Lemma obj_eqb_true k k' : Obj.eqb k k' = true ↔ k = k'.
Proof. unfold Obj.eqb. by rewrite bool_decide_eq_true. Qed.

Lemma obj_eqb_refl k : Obj.eqb k k = true.
Proof. by apply obj_eqb_true. Qed.

Lemma obj_eqb_ne k k' : k ≠ k' → Obj.eqb k k' = false.
Proof. unfold Obj.eqb. intros. by rewrite bool_decide_eq_false. Qed.

Lemma get_set_eq o k v : Obj.get (Obj.set o k v) k = Some v.
Proof.
  induction o as [|[k' v'] o IH]; simpl.
  - by rewrite obj_eqb_refl.
  - destruct (Obj.eqb k' k) eqn:E; simpl; by rewrite E.
Qed.

Lemma get_set_ne o k k' v :
  k ≠ k' → Obj.get (Obj.set o k v) k' = Obj.get o k'.
Proof.
  intros Hne. induction o as [|[k0 v0] o IH]; simpl.
  - by rewrite obj_eqb_ne.
  - destruct (Obj.eqb k0 k) eqn:E; simpl; [|by rewrite IH].
    apply obj_eqb_true in E as ->. by rewrite obj_eqb_ne.
Qed.

Lemma get_delete_ne o k k' :
  k ≠ k' → Obj.get (Obj.delete o k) k' = Obj.get o k'.
Proof.
  intros Hne. induction o as [|[k0 v0] o IH]; simpl; [done|].
  destruct (Obj.eqb k0 k) eqn:E; simpl; [|by rewrite IH].
  apply obj_eqb_true in E as ->. by rewrite obj_eqb_ne.
Qed.

Lemma get_Some_keys o k v : Obj.get o k = Some v → k ∈ Obj.keys o.
Proof.
  induction o as [|[k0 v0] o IH]; simpl; [done|].
  destruct (Obj.eqb k0 k) eqn:E.
  - apply obj_eqb_true in E as ->. intros _. apply elem_of_cons. by left.
  - intros H. apply elem_of_cons. right. by apply IH.
Qed.

Lemma get_None_keys o k : Obj.get o k = None ↔ k ∉ Obj.keys o.
Proof.
  induction o as [|[k0 v0] o IH]; simpl.
  - split; [intros _; apply not_elem_of_nil | done].
  - rewrite not_elem_of_cons. destruct (Obj.eqb k0 k) eqn:E.
    + apply obj_eqb_true in E as ->. naive_solver.
    + rewrite IH. split; [|naive_solver]. intros H. split; [|done].
      intros ->. by rewrite obj_eqb_refl in E.
Qed.

(** A property that is present splits the dictionary around it. *)
Lemma get_Some_split o k v :
  Obj.get o k = Some v →
  ∃ o1 o2, o = o1 ++ (k, v) :: o2 ∧ k ∉ Obj.keys o1.
Proof.
  induction o as [|[k0 v0] o IH]; simpl; [done|].
  destruct (Obj.eqb k0 k) eqn:E.
  - apply obj_eqb_true in E as ->. intros [= ->].
    exists [], o. split; [done|]. apply not_elem_of_nil.
  - intros (o1 & o2 & -> & Hk)%IH. exists ((k0, v0) :: o1), o2.
    split; [done|]. simpl. apply not_elem_of_cons. split; [|done].
    intros ->. by rewrite obj_eqb_refl in E.
Qed.

Lemma keys_set o k v :
  Obj.keys (Obj.set o k v) =
  match Obj.get o k with Some _ => Obj.keys o | None => Obj.keys o ++ [k] end.
Proof.
  induction o as [|[k0 v0] o IH]; simpl; [done|].
  destruct (Obj.eqb k0 k) eqn:E; simpl; [done|].
  rewrite IH. by destruct (Obj.get o k).
Qed.

Lemma keys_set_NoDup o k v :
  NoDup (Obj.keys o) → NoDup (Obj.keys (Obj.set o k v)).
Proof.
  intros H. rewrite keys_set. destruct (Obj.get o k) eqn:E; [done|].
  apply NoDup_app. split_and!; [done| |apply NoDup_singleton].
  intros x Hx ->%list_elem_of_singleton. by apply get_None_keys in E.
Qed.

Lemma keys_delete_subseteq o k : Obj.keys (Obj.delete o k) ⊆ Obj.keys o.
Proof.
  induction o as [|[k0 v0] o IH]; simpl; [done|].
  destruct (Obj.eqb k0 k); simpl; set_solver.
Qed.

Lemma keys_delete_NoDup o k :
  NoDup (Obj.keys o) → NoDup (Obj.keys (Obj.delete o k)).
Proof.
  induction o as [|[k0 v0] o IH]; simpl; [done|].
  intros [Hk Hnd]%NoDup_cons. destruct (Obj.eqb k0 k); simpl; [done|].
  apply NoDup_cons. split; [|by apply IH].
  intros H. by apply keys_delete_subseteq in H.
Qed.

Lemma get_delete_eq o k :
  NoDup (Obj.keys o) → Obj.get (Obj.delete o k) k = None.
Proof.
  induction o as [|[k0 v0] o IH]; simpl; [done|].
  intros [Hk Hnd]%NoDup_cons. destruct (Obj.eqb k0 k) eqn:E; simpl.
  - apply obj_eqb_true in E as ->. by apply get_None_keys.
  - rewrite E. by apply IH.
Qed.

End ObjFacts.

(** ** The optimizer: what is kept *)

Section CssKept.
Import Css.

Lemma foldl_app_concat {A} (f : str → A → str) (g : A → str)
    (l : list A) (acc : str) :
  (∀ out x, f out x = out ++ g x) →
  foldl f acc l = acc ++ concat (map g l).
Proof.
  intros Hf. revert acc. induction l as [|x l IH]; intros acc; simpl.
  - by rewrite app_nil_r.
  - by rewrite IH, Hf, app_assoc.
Qed.

Lemma write_groups_concat (g : grouping) :
  write_groups g = concat (map (λ '(sel, decls), group_text sel decls) g).
Proof.
  unfold write_groups. rewrite <- (app_nil_l (concat _)).
  apply foldl_app_concat. by intros out [sel decls].
Qed.

Lemma write_groups_app (g1 g2 : grouping) :
  write_groups (g1 ++ g2) = write_groups g1 ++ write_groups g2.
Proof. by rewrite !write_groups_concat, map_app, concat_app. Qed.

Lemma write_groups_cons sel decls (g : grouping) :
  write_groups ((sel, decls) :: g) = group_text sel decls ++ write_groups g.
Proof. by rewrite !write_groups_concat. Qed.

Lemma write_decls_concat (d : Obj.t str) :
  write_decls d = concat (map (λ '(prop, val), decl_text prop val) d).
Proof.
  unfold write_decls. rewrite <- (app_nil_l (concat _)).
  apply foldl_app_concat. by intros out [prop val].
Qed.

Lemma write_media_app U out m :
  write_media U out m = out ++ media_text U m.
Proof.
  unfold media_text, write_media. destruct (0 <? _); simpl; [done|].
  by rewrite app_nil_r.
Qed.

Lemma write_medias_concat U out ms :
  foldl (write_media U) out ms = out ++ concat (map (media_text U) ms).
Proof.
  apply foldl_app_concat. intros. apply write_media_app.
Qed.

(** The output: the groups of the top level, then the media blocks. *)
Lemma optimizeCSS_eq css U :
  optimizeCSS css U =
  write_groups (emitted css U) ++
  concat (map (media_text U) (mediaRules (parseCSSRules css))).
Proof. unfold optimizeCSS. by rewrite write_medias_concat. Qed.

Lemma media_text_eq U m :
  media_text U m =
  match media_emitted U m with
  | [] => []
  | g => "@media " ++ query m ++ "{" ++ write_groups g ++ "}"
  end.
Proof.
  unfold media_text, write_media, media_emitted.
  by destruct (drop_unused U _).
Qed.

(** A group that is present is written out. *)
Lemma emits_group (g : grouping) sel decls pre post :
  Obj.get g sel = Some decls →
  emits (pre ++ write_groups g ++ post) sel decls.
Proof.
  intros (g1 & g2 & -> & _)%get_Some_split.
  rewrite write_groups_app, write_groups_cons.
  exists (pre ++ write_groups g1), (write_groups g2 ++ post).
  by rewrite <- !app_assoc.
Qed.

(** Grouping keeps every selector it meets. *)
Lemma add_decl_get sel (g : grouping) decl sel' :
  is_Some (Obj.get g sel') → is_Some (Obj.get (add_decl sel g decl) sel').
Proof.
  intros H. unfold add_decl.
  destruct (map Js.trim _) as [|[|? ?] [|[|? ?] ?]]; try done.
  destruct (decide (sel = sel')) as [->|Hne].
  - rewrite get_set_eq. eauto.
  - by rewrite get_set_ne.
Qed.

Lemma add_decls_get sel (g : grouping) decls sel' :
  is_Some (Obj.get g sel') →
  is_Some (Obj.get (foldl (add_decl sel) g decls) sel').
Proof.
  revert g. induction decls as [|d ds IH]; intros g H; simpl; [done|].
  by apply IH, add_decl_get.
Qed.

Lemma add_rule_get (g : grouping) r sel :
  is_Some (Obj.get g sel) ∨ sel = selector r →
  is_Some (Obj.get (add_rule g r) sel).
Proof.
  intros H. unfold add_rule. apply add_decls_get.
  destruct (Obj.get g (selector r)) eqn:E.
  - destruct H as [H| ->]; [done|]. by rewrite E.
  - destruct (decide (selector r = sel)) as [<-|Hne].
    + rewrite get_set_eq. eauto.
    + rewrite get_set_ne by done. by destruct H.
Qed.

Lemma group_rules_get rs sel :
  sel ∈ map selector rs → is_Some (Obj.get (group_rules rs) sel).
Proof.
  unfold group_rules.
  assert (∀ g : grouping,
             is_Some (Obj.get g sel) ∨ sel ∈ map selector rs →
             is_Some (Obj.get (foldl add_rule g rs) sel)) as H.
  { induction rs as [|r rs IH]; intros g Hg; simpl.
    - destruct Hg as [?|Hg]; [done|]. by apply elem_of_nil in Hg.
    - apply IH. simpl in Hg. rewrite elem_of_cons in Hg.
      destruct Hg as [Hg|[->|Hg]]; [| |by right]; left; apply add_rule_get;
        auto. }
  intros Hs. apply H. by right.
Qed.

(** The filter leaves alone what it does not delete. *)
Lemma drop_unused_get U (g : grouping) sel :
  deleted U sel = false → Obj.get (drop_unused U g) sel = Obj.get g sel.
Proof.
  destruct U as [u|]; [|done]. simpl. intros Hsel.
  generalize (Obj.keys g). intros ks. revert g.
  induction ks as [|k ks IH]; intros g; simpl; [done|].
  rewrite IH. destruct (unused u k) eqn:E; [|done].
  apply get_delete_ne. intros ->. congruence.
Qed.

(** A selector the filter does not delete is in the output, with the
    declarations merged for it. *)
Lemma selector_kept_top css U sel :
  top_selector css sel → deleted U sel = false → kept_top css U sel.
Proof.
  intros Htop Hkeep. destruct (group_rules_get _ _ Htop) as [decls Hd].
  assert (Obj.get (emitted css U) sel = Some decls) as He.
  { unfold emitted. by rewrite drop_unused_get. }
  exists decls. split_and!; [done|done|]. rewrite optimizeCSS_eq.
  by apply (emits_group _ _ _ []).
Qed.

Lemma emits_concat (ls : list str) l sel decls pre :
  l ∈ ls → emits l sel decls → emits (pre ++ concat ls) sel decls.
Proof.
  intros (l1 & l2 & ->)%list_elem_of_split (a & b & ->).
  rewrite concat_app. simpl.
  exists (pre ++ concat l1 ++ a), (b ++ concat l2). by rewrite <- !app_assoc.
Qed.

Lemma selector_kept_media css U m sel :
  m ∈ mediaRules (parseCSSRules css) →
  sel ∈ map selector (rules (parseCSSRules (content m))) →
  deleted U sel = false → kept_media css U m sel.
Proof.
  intros Hm Hsel Hkeep.
  destruct (group_rules_get _ _ Hsel) as [decls Hd].
  assert (Obj.get (media_emitted U m) sel = Some decls) as Hg.
  { unfold media_emitted. by rewrite drop_unused_get. }
  exists decls. split_and!; [done|done|]. rewrite optimizeCSS_eq.
  apply (emits_concat _ (media_text U m)).
  { apply list_elem_of_fmap. by exists m. }
  rewrite media_text_eq.
  destruct (media_emitted U m) as [|x g] eqn:E; [done|].
  rewrite <- E in Hg.
  apply (emits_group _ _ _ ("@media " ++ query m ++ "{") "}") in Hg.
  rewrite E in Hg. by rewrite <- !app_assoc in Hg.
Qed.

Lemma selector_kept css U sel :
  deleted U sel = false → kept_everywhere css U sel.
Proof.
  intros Hk. split.
  - intros H. by apply selector_kept_top.
  - intros m Hm H. by apply selector_kept_media.
Qed.

End CssKept.

Section CssClaims.
Import Css.

Lemma deleted_no_class U sel :
  class_tokens sel = None → deleted U sel = false.
Proof.
  intros H. destruct U as [u|]; [|done]. simpl. unfold unused. by rewrite H.
Qed.

Lemma deleted_pseudo U sel : Js.includes sel ":" = true → deleted U sel = false.
Proof.
  intros H. destruct U as [u|]; [|done]. simpl. unfold unused.
  destruct (class_tokens sel); [|done]. by rewrite H, andb_false_r.
Qed.

Lemma unused_x (U : gset str) : ("x" : str) ∈ U → unused U ".x" = false.
Proof.
  intros Hx. unfold unused.
  assert (class_tokens ".x" = Some [".x" : str]) as ->
    by (vm_compute; reflexivity).
  cbn [existsb]. change (Js.slice ".x" 1) with ("x" : str).
  by rewrite bool_decide_eq_true_2.
Qed.

(** C5: the media block of [.x] comes out as [@media <query>{...}] when
    [x] is among the used classes, and not at all when the set of used
    classes is empty: no group of the block is left. *)
Theorem media_block_kept_or_omitted :
  (∀ U : gset str, ("x" : str) ∈ U →
     optimizeCSS css_media (Some U)
     = "@media (max-width:600px){.x{color:red;}}") ∧
  (map (media_emitted (Some ∅)) (mediaRules (parseCSSRules css_media)) = [[]] ∧
   optimizeCSS css_media (Some ∅) = []).
Proof.
  split; [|split; vm_compute; reflexivity].
  intros U Hx. rewrite optimizeCSS_eq. unfold emitted, merged.
  assert (parseCSSRules css_media
          = Parsed [] [MediaRule "(max-width:600px)" ".x{color:red}"]) as ->
    by (vm_compute; reflexivity).
  cbn [rules mediaRules map concat]. rewrite media_text_eq.
  unfold media_emitted. cbn [content query].
  assert (group_rules (rules (parseCSSRules ".x{color:red}"))
          = [(".x" : str, [("color" : str, "red" : str)])]) as ->
    by (vm_compute; reflexivity).
  unfold drop_unused. cbn [Obj.keys map fst foldl].
  rewrite (unused_x U Hx). vm_compute. reflexivity.
Qed.

Lemma media_block_kept_or_omitted_witness :
  ("x" : str) ∈ ({["x" : str]} : gset str) ∧
  optimizeCSS css_media (Some {["x" : str]})
  = "@media (max-width:600px){.x{color:red;}}".
Proof.
  split; [by apply elem_of_singleton|].
  apply (proj1 media_block_kept_or_omitted). by apply elem_of_singleton.
Defined.

End CssClaims.

(** ** The class usage extractor *)

Section ExtractorClaims.
Import Extractor.

(** C6 (the code departs from the claim): from a literal attribute [a b]
    and a conditional attribute with the literals [c] and [d], the
    extractor returns a, b and d.  The greedy [[^}]*] of the conditional
    pattern runs to the last quoted literal of the braces and the search
    resumes after it, so [c] is never read. *)
Theorem conditional_first_literal_missed :
  extractClassNames markup_sample = {["a" : str; "b" : str; "d" : str]} ∧
  extractClassNames markup_pair = {["a" : str; "b" : str; "d" : str]} ∧
  ("c" : str) ∉ extractClassNames markup_sample.
Proof.
  assert (E : extractClassNames markup_sample
              = {["a" : str; "b" : str; "d" : str]}).
  { vm_compute. reflexivity. }
  split; [exact E|]. split; [vm_compute; reflexivity|].
  rewrite E.
  apply (bool_decide_eq_false_1
           (("c" : str) ∈ ({["a" : str; "b" : str; "d" : str]} : gset str))).
  vm_compute. reflexivity.
Qed.

End ExtractorClaims.

(** ** The optimizer: merging *)

Section CssMerge.
Import Css.

Lemma add_decl_keys_NoDup sel (g : grouping) decl :
  NoDup (Obj.keys g) → NoDup (Obj.keys (add_decl sel g decl)).
Proof.
  intros H. unfold add_decl.
  destruct (map Js.trim _) as [|[|? ?] [|[|? ?] ?]]; try done.
  by apply keys_set_NoDup.
Qed.

Lemma add_rule_keys_NoDup (g : grouping) r :
  NoDup (Obj.keys g) → NoDup (Obj.keys (add_rule g r)).
Proof.
  intros H. unfold add_rule.
  assert (∀ ds (g : grouping), NoDup (Obj.keys g) →
            NoDup (Obj.keys (foldl (add_decl (selector r)) g ds))) as Hf.
  { induction ds as [|d ds IH]; intros g' Hg'; simpl; [done|].
    by apply IH, add_decl_keys_NoDup. }
  apply Hf. destruct (Obj.get g (selector r)); [done|].
  by apply keys_set_NoDup.
Qed.

Lemma foldl_add_rule_keys_NoDup rs (g : grouping) :
  NoDup (Obj.keys g) → NoDup (Obj.keys (foldl add_rule g rs)).
Proof.
  revert g. induction rs as [|r rs IH]; intros g Hg; simpl; [done|].
  by apply IH, add_rule_keys_NoDup.
Qed.

Lemma group_rules_keys_NoDup rs : NoDup (Obj.keys (group_rules rs)).
Proof. apply foldl_add_rule_keys_NoDup. simpl. apply NoDup_nil_2. Qed.

Lemma drop_unused_keys_NoDup U (g : grouping) :
  NoDup (Obj.keys g) → NoDup (Obj.keys (drop_unused U g)).
Proof.
  destruct U as [u|]; [|done]. simpl. generalize (Obj.keys g) at 2.
  intros ks. revert g. induction ks as [|k ks IH]; intros g Hg; simpl; [done|].
  apply IH. destruct (unused u k); [|done]. by apply keys_delete_NoDup.
Qed.


(** Writing the declarations of a rule into the group of its selector. *)
Lemma add_decl_get_eq sel (g : grouping) decl d :
  Obj.get g sel = Some d →
  Obj.get (add_decl sel g decl) sel = Some (write_decl d decl).
Proof.
  intros H. unfold add_decl, write_decl.
  destruct (map Js.trim _) as [|[|? ?] [|[|? ?] ?]]; try done.
  by rewrite get_set_eq, H.
Qed.

Lemma add_decl_get_ne sel (g : grouping) decl sel' :
  sel ≠ sel' → Obj.get (add_decl sel g decl) sel' = Obj.get g sel'.
Proof.
  intros H. unfold add_decl.
  destruct (map Js.trim _) as [|[|? ?] [|[|? ?] ?]]; try done.
  by rewrite get_set_ne.
Qed.

Lemma add_decls_get_eq sel ds : ∀ (g : grouping) d,
  Obj.get g sel = Some d →
  Obj.get (foldl (add_decl sel) g ds) sel = Some (foldl write_decl d ds).
Proof.
  induction ds as [|x ds IH]; intros g d H; simpl; [done|].
  by apply IH, add_decl_get_eq.
Qed.

Lemma add_decls_get_ne sel sel' ds : ∀ (g : grouping),
  sel ≠ sel' →
  Obj.get (foldl (add_decl sel) g ds) sel' = Obj.get g sel'.
Proof.
  induction ds as [|x ds IH]; intros g H; simpl; [done|].
  by rewrite IH, add_decl_get_ne.
Qed.

Lemma add_rule_get_eq (g : grouping) r :
  Obj.get (add_rule g r) (selector r)
  = Some (rule_decls r (default [] (Obj.get g (selector r)))).
Proof.
  unfold add_rule, rule_decls. apply add_decls_get_eq.
  destruct (Obj.get g (selector r)) eqn:E; simpl; [done|].
  by rewrite get_set_eq.
Qed.

Lemma add_rule_get_ne (g : grouping) r sel :
  selector r ≠ sel → Obj.get (add_rule g r) sel = Obj.get g sel.
Proof.
  intros H. unfold add_rule. rewrite add_decls_get_ne by done.
  destruct (Obj.get g (selector r)); [done|]. by rewrite get_set_ne.
Qed.


(** Last write wins: what a rule declares overrides what was there. *)
Lemma write_decl_get d decl prop :
  Obj.get (write_decl d decl) prop =
  match Obj.get (write_decl [] decl) prop with
  | Some v => Some v
  | None => Obj.get d prop
  end.
Proof.
  unfold write_decl.
  destruct (map Js.trim _) as [|[|a p] [|[|b v] ?]]; try done.
  destruct (decide (a :: p = prop)) as [<-|Hne].
  - by rewrite !get_set_eq.
  - by rewrite !get_set_ne.
Qed.

Lemma write_decls_get ds prop : ∀ d,
  Obj.get (foldl write_decl d ds) prop =
  match Obj.get (foldl write_decl [] ds) prop with
  | Some v => Some v
  | None => Obj.get d prop
  end.
Proof.
  induction ds as [|x ds IH]; intros d; simpl; [done|].
  rewrite IH, (IH (write_decl [] x)).
  destruct (Obj.get (foldl write_decl [] ds) prop); [done|].
  apply write_decl_get.
Qed.




End CssMerge.

(** ** More on the matcher: repetitions of a class *)

Section RepFacts.
Import Re ReLib.

Abbreviation cont := (str → caps → option outcome).

Lemma rep_loop_0 m g (k : cont) (s : str) cs :
  rep_loop m g k 0 s cs = k s cs.
Proof. reflexivity. Qed.

Lemma rep_loop_S m g (k : cont) fuel (s : str) cs :
  rep_loop m g k (S fuel) s cs =
  if g then
    match m s cs (λ s' cs', if length s' <? length s
                            then rep_loop m g k fuel s' cs' else None) with
    | Some o => Some o
    | None => k s cs
    end
  else
    match k s cs with
    | Some o => Some o
    | None => m s cs (λ s' cs', if length s' <? length s
                                then rep_loop m g k fuel s' cs' else None)
    end.
Proof. reflexivity. Qed.

Lemma rmatch_Rep total g r (s : str) cs (k : cont) :
  rmatch total (Rep g r) s cs k
  = rep_loop (rmatch total r) g k (length s) s cs.
Proof. reflexivity. Qed.

(** A pattern sees its continuation only through its values. *)
Lemma rmatch_ext (total : nat) (r : regex) :
  ∀ (s : str) (cs : caps) (k1 k2 : cont),
    (∀ s' cs', k1 s' cs' = k2 s' cs') →
    rmatch total r s cs k1 = rmatch total r s cs k2.
Proof.
  induction r as [| c | p | r1 IH1 r2 IH2 | r1 IH1 r2 IH2 | g r IH | n r IH
                 | r IH | |]; intros s cs k1 k2 Hk.
  - apply Hk.
  - simpl. destruct s as [|a s]; [done|].
    destruct (Ascii.eqb a c); [apply Hk|done].
  - simpl. destruct s as [|a s]; [done|]. destruct (p a); [apply Hk|done].
  - simpl. apply IH1. intros. by apply IH2.
  - simpl. rewrite (IH1 _ _ k1 k2) by done. by rewrite (IH2 _ _ k1 k2).
  - rewrite !rmatch_Rep. generalize (length s). intros fuel. revert s cs.
    induction fuel as [|fuel IHf]; intros s cs; [apply Hk|].
    rewrite !rep_loop_S, Hk.
    rewrite (IH s cs _
               (λ s' cs', if length s' <? length s
                          then rep_loop (rmatch total r) g k2 fuel s' cs'
                          else None)); [done|].
    intros s' cs'. destruct (length s' <? length s); [apply IHf|done].
  - simpl. apply IH. intros. apply Hk.
  - simpl. destruct (rmatch total r s cs _) as [[? ?]|]; [apply Hk|done].
  - simpl. destruct (length s =? total); [apply Hk|done].
  - simpl. destruct s; [apply Hk|done].
Qed.

(** No iteration is possible on the empty subject. *)
Lemma rep_loop_nil total r g (k : cont) fuel cs :
  rep_loop (rmatch total r) g k fuel [] cs = k [] cs.
Proof.
  destruct fuel as [|fuel]; [done|]. rewrite rep_loop_S.
  rewrite rmatch_none by done. by destruct g, (k [] cs).
Qed.

(** More fuel than the length of the subject changes nothing. *)
Lemma rep_loop_fuel total r g (k : cont) :
  ∀ fuel (s : str) cs,
    (length s ≤ fuel) →
    rep_loop (rmatch total r) g k fuel s cs
    = rep_loop (rmatch total r) g k (length s) s cs.
Proof.
  induction fuel as [fuel IH] using lt_wf_ind. intros s cs Hlen.
  destruct s as [|a s]; [by rewrite !rep_loop_nil|].
  destruct fuel as [|fuel]; [simpl in Hlen; lia|].
  cbn [length]. rewrite !rep_loop_S.
  rewrite (rmatch_ext total r (a :: s) cs _
             (λ s' cs', if length s' <? length (a :: s)
                        then rep_loop (rmatch total r) g k (length s) s' cs'
                        else None)); [done|].
  intros s' cs'. destruct (length s' <? length (a :: s)) eqn:E; [|done].
  apply Nat.ltb_lt in E. simpl in E, Hlen.
  rewrite (IH fuel) by lia. rewrite (IH (length s)); [done|lia|lia].
Qed.

(** A repetition, unfolded once. *)
Lemma rep_unfold total g r (s : str) cs (k : cont) :
  rmatch total (Rep g r) s cs k =
  let more :=
    rmatch total r s cs
      (λ s' cs', if length s' <? length s
                 then rmatch total (Rep g r) s' cs' k else None) in
  if g then match more with Some o => Some o | None => k s cs end
  else match k s cs with Some o => Some o | None => more end.
Proof.
  cbv zeta. rewrite rmatch_Rep. destruct s as [|a s].
  - rewrite rep_loop_nil, rmatch_none by done. by destruct g, (k [] cs).
  - cbn [length]. rewrite rep_loop_S.
    rewrite (rmatch_ext total r (a :: s) cs _
               (λ s' cs', if length s' <? length (a :: s)
                          then rmatch total (Rep g r) s' cs' k
                          else None)); [done|].
    intros s' cs'. destruct (length s' <? length (a :: s)) eqn:E; [|done].
    apply Nat.ltb_lt in E. simpl in E. rewrite rmatch_Rep.
    apply rep_loop_fuel. lia.
Qed.

Lemma rep_cls_cons total g p c (s : str) cs (k : cont) :
  p c = true →
  rmatch total (Rep g (Cls p)) (c :: s) cs k =
  if g then
    match rmatch total (Rep g (Cls p)) s cs k with
    | Some o => Some o
    | None => k (c :: s) cs
    end
  else
    match k (c :: s) cs with
    | Some o => Some o
    | None => rmatch total (Rep g (Cls p)) s cs k
    end.
Proof.
  intros Hp. rewrite rep_unfold. cbv zeta. cbn [rmatch]. rewrite Hp.
  assert ((length s <? length (c :: s)) = true) as ->; [|done].
  apply Nat.ltb_lt. simpl. lia.
Qed.

Lemma rep_cls_stop total g p (s : str) cs (k : cont) :
  stops p s → rmatch total (Rep g (Cls p)) s cs k = k s cs.
Proof.
  intros Hs. rewrite rep_unfold. cbv zeta. cbn [rmatch].
  destruct s as [|c s]; simpl in Hs.
  - by destruct g, (k [] cs).
  - rewrite Hs. by destruct g, (k (c :: s) cs).
Qed.

(** A greedy run that the rest of the pattern accepts in full. *)
Lemma rep_greedy_run total p (run rest : str) cs (k : cont) o :
  Forall (λ c, p c = true) run →
  stops p rest →
  k rest cs = Some o →
  rmatch total (Rep true (Cls p)) (run ++ rest) cs k = Some o.
Proof.
  intros Hrun Hstop Hk. induction Hrun as [|c run Hc Hrun IH]; cbn [app].
  - by rewrite rep_cls_stop.
  - rewrite rep_cls_cons by done. by rewrite IH.
Qed.

(** A lazy run of anything goes on while the rest of the pattern fails. *)
Lemma rep_lazy_skip total (skip rest : str) cs (k : cont) :
  (∀ t, t ≠ [] → t `suffix_of` skip → k (t ++ rest) cs = None) →
  rmatch total (Rep false anything) (skip ++ rest) cs k
  = rmatch total (Rep false anything) rest cs k.
Proof.
  induction skip as [|c skip IH]; intros Hk; [done|].
  cbn [app]. unfold anything at 1. rewrite rep_cls_cons by done.
  pose proof (Hk (c :: skip) ltac:(done) ltac:(done)) as H0.
  cbn [app] in H0. rewrite H0.
  apply IH. intros t Ht Hsuf. apply Hk; [done|]. by apply suffix_cons_r.
Qed.

Lemma rep_lazy_here total p (s : str) cs (k : cont) o :
  k s cs = Some o → rmatch total (Rep false (Cls p)) s cs k = Some o.
Proof.
  intros Hk. rewrite rep_unfold. cbv zeta. by rewrite Hk.
Qed.

(** What a repetition of a class can have consumed. *)
Lemma rep_cls_inv total g p : ∀ (s : str) cs (k : cont) o,
  rmatch total (Rep g (Cls p)) s cs k = Some o →
  ∃ run rest, s = run ++ rest ∧ Forall (λ c, p c = true) run ∧
              k rest cs = Some o.
Proof.
  induction s as [|c s IH]; intros cs k o H.
  - rewrite rep_cls_stop in H by done. by exists [], [].
  - destruct (p c) eqn:Hp.
    + rewrite rep_cls_cons in H by done.
      assert (rmatch total (Rep g (Cls p)) s cs k = Some o ∨
              k (c :: s) cs = Some o) as [H'|H'].
      { destruct g.
        - destruct (rmatch total (Rep true (Cls p)) s cs k); auto.
        - destruct (k (c :: s) cs); auto. }
      * apply IH in H' as (run & rest & -> & Hrun & Hk).
        exists (c :: run), rest. split_and!; [done| |done].
        by apply Forall_cons.
      * by exists [], (c :: s).
    + rewrite rep_cls_stop in H by done. by exists [], (c :: s).
Qed.

End RepFacts.

(** ** More on the string primitives *)

Section TextFacts.
Import Re Text.

Implicit Types (s t w : str) (c : ascii).

Lemma trimStart_stops s : stops Js.is_space (Js.trimStart s).
Proof.
  induction s as [|c s IH]; simpl; [done|].
  destruct (Js.is_space c) eqn:E; [done|]. simpl. done.
Qed.

Lemma trimStart_id s : stops Js.is_space s → Js.trimStart s = s.
Proof. destruct s as [|c s]; simpl; [done|]. by intros ->. Qed.

Lemma trimStart_suffix s : Js.trimStart s `suffix_of` s.
Proof.
  induction s as [|c s IH]; simpl; [done|].
  destruct (Js.is_space c); [by apply suffix_cons_r|done].
Qed.

Lemma trimStart_snoc s c :
  Js.is_space c = false → ∃ t, Js.trimStart (s ++ [c]) = t ++ [c].
Proof.
  intros Hc. induction s as [|a s IH]; simpl.
  - rewrite Hc. by exists [].
  - destruct (Js.is_space a); [done|]. by exists (a :: s).
Qed.

Lemma trim_tight s : tight (Js.trim s).
Proof.
  unfold tight, Js.trim, Js.trimEnd. rewrite rev_involutive.
  split; [|apply trimStart_stops].
  pose proof (trimStart_stops s) as H.
  destruct (Js.trimStart s) as [|c t]; [done|]. simpl in H.
  cbn [rev]. destruct (trimStart_snoc (rev t) c H) as [u ->].
  rewrite rev_app_distr. simpl. done.
Qed.

Lemma trim_of_tight s : tight s → Js.trim s = s.
Proof.
  intros [H1 H2]. unfold Js.trim, Js.trimEnd.
  rewrite (trimStart_id s H1), (trimStart_id _ H2). apply rev_involutive.
Qed.

Lemma elem_of_rev s c : c ∈ rev s ↔ c ∈ s.
Proof. by rewrite !list_elem_of_In, <- in_rev. Qed.

Lemma trim_subseteq s c : c ∈ Js.trim s → c ∈ s.
Proof.
  unfold Js.trim, Js.trimEnd. rewrite elem_of_rev.
  intros H. destruct (trimStart_suffix (rev (Js.trimStart s))) as [k Hk].
  assert (c ∈ rev (Js.trimStart s)) as H'.
  { rewrite Hk. apply elem_of_app. by right. }
  rewrite elem_of_rev in H'.
  destruct (trimStart_suffix s) as [k' ->]. apply elem_of_app. by right.
Qed.

Lemma tight_app_stops s t : tight s → s ≠ [] → stops Js.is_space (s ++ t).
Proof. intros [H _] Hne. destruct s; [done|]. done. Qed.

(** [split] *)
Lemma split_no_sep c s : c ∉ s → Js.split c s = [s].
Proof.
  induction s as [|a s IH]; [done|]. intros [Ha Hs]%not_elem_of_cons.
  simpl. rewrite IH by done.
  destruct (Ascii.eqb a c) eqn:E; [|done].
  apply Ascii.eqb_eq in E. congruence.
Qed.

Lemma split_app_sep c s t :
  c ∉ s → Js.split c (s ++ c :: t) = s :: Js.split c t.
Proof.
  induction s as [|a s IH]; intros Hs; simpl.
  - by rewrite Ascii.eqb_refl.
  - apply not_elem_of_cons in Hs as [Ha Hs]. rewrite IH by done.
    destruct (Ascii.eqb a c) eqn:E; [|done].
    apply Ascii.eqb_eq in E. congruence.
Qed.

Lemma split_pieces c s :
  Forall (λ t, (c ∉ t) ∧ ∀ a, a ∈ t → a ∈ s) (Js.split c s).
Proof.
  induction s as [|a s IH]; simpl.
  - apply Forall_singleton. split; [apply not_elem_of_nil|done].
  - assert (Forall (λ t, (c ∉ t) ∧ ∀ b, b ∈ t → b ∈ a :: s) (Js.split c s))
      as IH'.
    { eapply Forall_impl; [exact IH|]. intros t [H1 H2]. split; [done|].
      intros b Hb. apply elem_of_cons. right. by apply H2. }
    destruct (Ascii.eqb a c) eqn:E.
    + apply Forall_cons. split; [|done].
      split; [apply not_elem_of_nil|]. intros b Hb. by apply elem_of_nil in Hb.
    + destruct (Js.split c s) as [|w ws]; [|].
      * apply Forall_singleton. split.
        -- apply not_elem_of_cons. split; [|apply not_elem_of_nil].
           intros ->. by rewrite Ascii.eqb_refl in E.
        -- intros b Hb. apply list_elem_of_singleton in Hb as ->.
           apply elem_of_cons. by left.
      * apply Forall_cons in IH' as [[H1 H2] IH']. apply Forall_cons.
        split; [|done]. split.
        -- apply not_elem_of_cons. split; [|done].
           intros ->. by rewrite Ascii.eqb_refl in E.
        -- intros b [->|Hb]%elem_of_cons; [apply elem_of_cons; by left|].
           by apply H2.
Qed.

(** [includes] *)
Lemma includes_infix s w pre post :
  Js.includes s w = true → Js.includes (pre ++ s ++ post) w = true.
Proof.
  rewrite !includes_app. intros (a & b & ->).
  exists (pre ++ a), (b ++ post). by rewrite <- !app_assoc.
Qed.

Lemma free_infix w s pre post : free w (pre ++ s ++ post) → free w s.
Proof.
  unfold free. intros H. destruct (Js.includes s w) eqn:E; [|done].
  by rewrite (includes_infix s w pre post E) in H.
Qed.

Lemma includes_nil s : Js.includes s [] = true.
Proof. by destruct s. Qed.

(** A separator that is not in [w] cuts the search of [w] in two. *)
Lemma free_sep w s c t :
  c ∉ w → free w s → free w t → free w (s ++ c :: t).
Proof.
  unfold free. intros Hc Hs Ht.
  destruct (Js.includes (s ++ c :: t) w) eqn:E; [|done]. exfalso.
  apply includes_app in E as (pre & post & E).
  apply app_eq_inv in E as [(k & -> & Hk)|(k & -> & Hk)].
  - apply app_eq_inv in Hk as [(k' & -> & Hk')|(k' & -> & Hk')].
    + destruct k' as [|a k'].
      * rewrite app_nil_r in *.
        assert (Js.includes (pre ++ k) k = true) as Hin; [|congruence].
        apply includes_app. exists pre, []. by rewrite app_nil_r.
      * simplify_eq. apply Hc. set_solver.
    + assert (Js.includes (pre ++ w ++ k') w = true) as Hin; [|congruence].
      apply includes_app. by exists pre, k'.
  - destruct k as [|a k].
    + simpl in Hk. destruct w as [|a w].
      * by rewrite includes_nil in Hs.
      * simplify_eq. apply Hc. set_solver.
    + simpl in Hk. injection Hk as -> ->.
      assert (Js.includes (k ++ w ++ post) w = true) as Hin; [|congruence].
      apply includes_app. by exists k, post.
Qed.

Lemma free_cons w c t : c ∉ w → w ≠ [] → free w t → free w (c :: t).
Proof.
  intros Hc Hw Ht. apply (free_sep w [] c t); [done| |done].
  unfold free. by destruct w.
Qed.

(** A text that ends with a character foreign to [w] and does not contain
    [w] has no position where [w] starts. *)
Lemma free_clear w s c :
  free w (s ++ [c]) → c ∉ w → clear w (s ++ [c]).
Proof.
  intros Hfree Hc t rest Ht Hsuf.
  destruct (Js.startsWith (t ++ rest) w) eqn:E; [|done]. exfalso.
  apply startsWith_app in E as [u E].
  destruct Hsuf as [pre Hpre].
  apply app_eq_inv in E as [(k & -> & Hk)|(k & -> & Hk)].
  - (* [w] is within [t] *)
    unfold free in Hfree. rewrite Hpre in Hfree.
    assert (Js.includes (pre ++ w ++ k) w = true) as Hin; [|congruence].
    apply includes_app. by exists pre, k.
  - (* [t] is a proper part of [w]: its last character is [c] *)
    apply Hc. destruct (exists_last Ht) as (t' & a & ->).
    rewrite app_assoc in Hpre. apply app_inj_tail in Hpre as [_ <-].
    set_solver.
Qed.

Lemma clear_nil w : clear w [].
Proof. intros t rest Ht Hsuf. apply suffix_nil_inv in Hsuf. done. Qed.

End TextFacts.

(** ** More on the matcher: words, searches and scans *)

Section ScanFacts.
Import Re ReLib Text.

Abbreviation cont := (str → caps → option outcome).

Lemma rmatch_Word total w : ∀ (s : str) cs (k : cont),
  rmatch total (Word w) s cs k =
  if Js.startsWith s w then k (drop (length w) s) cs else None.
Proof.
  induction w as [|c w IH]; intros s cs k; [done|].
  destruct w as [|c' w].
  - destruct s as [|a s]; [done|]. simpl.
    rewrite Ascii.eqb_sym. destruct (Ascii.eqb c a); [|done].
    by rewrite drop_0.
  - change (Word (c :: c' :: w)) with (Cat (Lit c) (Word (c' :: w))).
    destruct s as [|a s]; [done|]. cbn [rmatch].
    rewrite Ascii.eqb_sym. cbn [Js.startsWith].
    destruct (Ascii.eqb c a); [|done]. by rewrite IH.
Qed.

Lemma rmatch_Cat total r1 r2 (s : str) cs (k : cont) :
  rmatch total (Cat r1 r2) s cs k
  = rmatch total r1 s cs (λ s' cs', rmatch total r2 s' cs' k).
Proof. reflexivity. Qed.

Lemma rmatch_Grp total n r (s : str) cs (k : cont) :
  rmatch total (Grp n r) s cs k
  = rmatch total r s cs
      (λ s' cs', k s' ((n, take (length s - length s') s) :: cs')).
Proof. reflexivity. Qed.

Lemma rmatch_Ahead total r (s : str) cs (k : cont) :
  rmatch total (Ahead r) s cs k
  = match rmatch total r s cs (λ s' cs', Some (s', cs')) with
    | Some (_, cs') => k s cs'
    | None => None
    end.
Proof. reflexivity. Qed.

Lemma rmatch_Lit_cons total c (s : str) cs (k : cont) :
  rmatch total (Lit c) (c :: s) cs k = k s cs.
Proof. simpl. by rewrite Ascii.eqb_refl. Qed.

Lemma rmatch_Lit_ne total c a (s : str) cs (k : cont) :
  a ≠ c → rmatch total (Lit c) (a :: s) cs k = None.
Proof.
  intros H. simpl. destruct (Ascii.eqb a c) eqn:E; [|done].
  by apply Ascii.eqb_eq in E.
Qed.

Lemma rmatch_Cls_cons total p c (s : str) cs (k : cont) :
  p c = true → rmatch total (Cls p) (c :: s) cs k = k s cs.
Proof. intros H. simpl. by rewrite H. Qed.

(** [r+] over a run of the class that must stop where the run ends. *)
Lemma rep1_greedy_run total p (run rest : str) cs (k : cont) o :
  run ≠ [] →
  Forall (λ c, p c = true) run →
  stops p rest →
  k rest cs = Some o →
  rmatch total (Rep1 true (Cls p)) (run ++ rest) cs k = Some o.
Proof.
  intros Hne Hrun Hstop Hk. destruct run as [|c run]; [done|].
  apply Forall_cons in Hrun as [Hc Hrun].
  unfold Rep1. rewrite rmatch_Cat. cbn [app].
  rewrite rmatch_Cls_cons by done. by apply rep_greedy_run.
Qed.

Lemma take_app_length_diff (run rest : str) :
  take (length (run ++ rest) - length rest) (run ++ rest) = run.
Proof.
  rewrite length_app.
  replace (length run + length rest - length rest) with (length run) by lia.
  by rewrite take_app_length.
Qed.

(** Searches *)
Lemma search_eq total r (s : str) :
  search total r s =
  match match_here total r s with
  | Some (s', cs) => Some (Found [] (take (length s - length s') s) cs s')
  | None =>
      match s with
      | [] => None
      | a :: s' =>
          match search total r s' with
          | Some f =>
              Some (Found (a :: skipped f) (matched f) (groups f) (after f))
          | None => None
          end
      end
  end.
Proof. by destruct s. Qed.

Lemma search_here total r (s s' : str) cs :
  match_here total r s = Some (s', cs) →
  search total r s = Some (Found [] (take (length s - length s') s) cs s').
Proof. intros H. by rewrite search_eq, H. Qed.

Lemma search_skip total r (pre s : str) :
  (∀ t, t ≠ [] → t `suffix_of` pre → match_here total r (t ++ s) = None) →
  search total r (pre ++ s) =
  match search total r s with
  | Some f => Some (Found (pre ++ skipped f) (matched f) (groups f) (after f))
  | None => None
  end.
Proof.
  induction pre as [|a pre IH]; intros H.
  - simpl. by destruct (search total r s) as [[]|].
  - cbn [app]. rewrite search_eq.
    pose proof (H (a :: pre) ltac:(done) ltac:(done)) as H0.
    cbn [app] in H0. rewrite H0. rewrite IH.
    + by destruct (search total r s).
    + intros t Ht Hsuf. apply H; [done|]. by apply suffix_cons_r.
Qed.

Lemma scan_S fuel total r (s : str) :
  scan (S fuel) total r s =
  match search total r s with
  | None => ([], s)
  | Some f => let '(fs, tl) := scan fuel total r (after f) in (f :: fs, tl)
  end.
Proof. reflexivity. Qed.

(** Every match a scan finds is a match of the pattern somewhere. *)
Lemma search_found total r (s : str) f :
  search total r s = Some f →
  ∃ t, t `suffix_of` s ∧
       match_here total r t = Some (after f, groups f).
Proof.
  revert f. induction s as [|a s IH]; intros f; rewrite search_eq.
  - destruct (match_here total r []) as [[s' cs]|] eqn:E; [|done].
    intros [= <-]. by exists [].
  - destruct (match_here total r (a :: s)) as [[s' cs]|] eqn:E.
    + intros [= <-]. by exists (a :: s).
    + destruct (search total r s) as [f'|] eqn:E'; [|done].
      intros [= <-]. destruct (IH f' eq_refl) as (t & Ht & Hm).
      exists t. split; [by apply suffix_cons_r|done].
Qed.

Lemma scan_found (P : caps → Prop) total r :
  (∀ t s' cs, match_here total r t = Some (s', cs) → P cs) →
  ∀ fuel (s : str), Forall (λ f, P (groups f)) (fst (scan fuel total r s)).
Proof.
  intros HP. induction fuel as [|fuel IH]; intros s; [by apply Forall_nil|].
  rewrite scan_S. destruct (search total r s) as [f|] eqn:E;
    [|by apply Forall_nil].
  specialize (IH (after f)). destruct (scan fuel total r (after f)) as [fs tl].
  simpl in *. apply Forall_cons. split; [|done].
  apply search_found in E as (t & _ & Hm). by eapply HP.
Qed.

End ScanFacts.

(** ** Reading back what the optimizer writes: the patterns *)

Section PatternFacts.
Import Re ReLib Text Css.

Abbreviation cont := (str → caps → option outcome).
Abbreviation final := (λ (s' : str) (cs' : caps), Some (s', cs')).

(** *** Comments *)

Lemma comment_needs_opening total (s : str) :
  Js.startsWith s "/*" = false → match_here total commentRegex s = None.
Proof.
  intros H. unfold match_here, commentRegex. cbn [Seq].
  destruct s as [|a s]; [done|]. rewrite rmatch_Cat.
  destruct (decide (a = "/"%char)) as [->|Ha]; [|by rewrite rmatch_Lit_ne].
  rewrite rmatch_Lit_cons, rmatch_Cat. destruct s as [|b s]; [done|].
  destruct (decide (b = "*"%char)) as [->|Hb]; [done|by rewrite rmatch_Lit_ne].
Qed.

Lemma free_startsWith w (s t : str) :
  free w s → t `suffix_of` s → Js.startsWith t w = false.
Proof.
  intros Hfree [pre ->]. destruct (Js.startsWith t w) eqn:E; [|done].
  apply startsWith_app in E as [u ->].
  unfold free in Hfree. rewrite (proj2 (includes_app _ _)) in Hfree; [done|].
  by exists pre, u.
Qed.

Lemma matchAll_none r (s : str) :
  (∀ t, t `suffix_of` s → match_here (length s) r t = None) →
  matchAll r s = ([], s).
Proof.
  intros H. unfold matchAll. rewrite scan_S. by rewrite search_none.
Qed.

Lemma remove_none r (s : str) :
  (∀ t, t `suffix_of` s → match_here (length s) r t = None) →
  remove r s = s.
Proof. intros H. unfold remove. by rewrite matchAll_none. Qed.

(** A text without the opening of a comment has no comment to strip. *)
Lemma remove_comments_free (s : str) :
  free "/*" s → remove commentRegex s = s.
Proof.
  intros H. apply remove_none. intros t Ht.
  apply comment_needs_opening. by eapply free_startsWith.
Qed.

(** *** Media blocks *)

Lemma media_needs_word total (s : str) :
  Js.startsWith s "@media" = false → match_here total mediaRegex s = None.
Proof.
  intros H. unfold match_here, mediaRegex.
  change (Seq (Word "@media" :: ?l)) with (Cat (Word "@media") (Seq l)).
  by rewrite rmatch_Cat, rmatch_Word, H.
Qed.

(** The lookahead [(?=\s*(@media|$))]. *)
Abbreviation ahead :=
  (Cat (Rep true ws) (Grp 3 (Alt (Word "@media") Eos))).

Lemma ahead_fail total (s : str) cs :
  (∀ run rest, s = run ++ rest → Forall (λ c, Js.is_space c = true) run →
               rest ≠ [] ∧ Js.startsWith rest "@media" = false) →
  rmatch total ahead s cs final = None.
Proof.
  intros H. destruct (rmatch total ahead s cs final) as [o|] eqn:E; [|done].
  exfalso. cbn [Seq] in E. unfold ws in E. rewrite rmatch_Cat in E.
  apply rep_cls_inv in E as (run & rest & -> & Hrun & E).
  destruct (H run rest eq_refl Hrun) as [Hne Hst].
  rewrite rmatch_Grp in E. cbn [rmatch] in E.
  rewrite rmatch_Word, Hst in E. by destruct rest.
Qed.

(** The lookahead after a brace closed inside the content of a block. *)
Lemma ahead_inside total (content t rest : str) cs :
  clear "@media" content → t `suffix_of` content →
  rmatch total ahead (t ++ "}" ++ rest) cs final = None.
Proof.
  intros Hclear Hsuf. apply ahead_fail. intros run rest' Heq Hrun.
  apply app_eq_inv in Heq as [(k & -> & Hk)|(k & -> & Hk)].
  - subst rest'. destruct k as [|a k]; [done|]. split; [done|].
    apply Hclear; [done|]. by eapply suffix_app_l.
  - destruct k as [|a k].
    + simpl in Hk. by subst rest'.
    + rewrite Forall_app in Hrun. destruct Hrun as [_ Hrun].
      apply Forall_cons in Hrun as [Ha _].
      simpl in Hk. injection Hk as <- _. done.
Qed.

(** The part of the media pattern from the opening brace on, over the
    content written for a block. *)
Lemma media_tail total (content rest : str) cs :
  clear "@media" content →
  rest = [] ∨ (∃ s, rest = "@media" ++ s) →
  ∃ c3,
    rmatch total
      (Cat (Lit "{")
         (Cat (Grp 2 (Rep false anything)) (Cat (Lit "}") (Ahead ahead))))
      ("{" ++ content ++ "}" ++ rest) cs final
    = Some (rest, (3, c3) :: (2, content) :: cs).
Proof.
  intros Hclear Hrest.
  assert (∃ c3, ∀ cs', ∃ s', rmatch total ahead rest cs' final
                              = Some (s', (3, c3) :: cs')) as [c3 Hahead].
  { destruct Hrest as [->|[s ->]].
    - exists []. intros cs'. exists []. vm_compute. reflexivity.
    - exists ("@media" : str). intros cs'. exists s.
      cbn [Seq]. unfold ws. rewrite rmatch_Cat, rep_cls_stop by done.
      rewrite rmatch_Grp. cbn [rmatch]. rewrite rmatch_Word.
      change (Js.startsWith ("@media" ++ s) "@media") with true. cbv iota.
      change (drop (length ("@media" : str)) ("@media" ++ s)) with s.
      by rewrite take_app_length_diff. }
  exists c3. cbn [Seq].
  change ("{" ++ content ++ "}" ++ rest)
    with ("{"%char :: (content ++ "}" ++ rest)).
  rewrite rmatch_Cat, rmatch_Lit_cons, rmatch_Cat, rmatch_Grp.
  rewrite rep_lazy_skip.
  - apply rep_lazy_here.
    change ("}" ++ rest) with ("}"%char :: rest).
    rewrite rmatch_Cat, rmatch_Lit_cons, rmatch_Ahead.
    match goal with
    | |- context [rmatch total _ rest ?c _] =>
        destruct (Hahead c) as [s' ->]
    end.
    by rewrite take_app_length_diff.
  - intros t Ht Hsuf. destruct t as [|a t]; [done|].
    rewrite rmatch_Cat. cbn [app].
    destruct (decide (a = "}"%char)) as [->|Ha];
      [|by rewrite rmatch_Lit_ne].
    rewrite rmatch_Lit_cons, rmatch_Ahead.
    rewrite (ahead_inside total content t rest); [done|done|].
    by eapply suffix_cons_l.
Qed.

Lemma take_cons_diff (c : ascii) (s : str) :
  take (length (c :: s) - length s) (c :: s) = [c].
Proof. apply (take_app_length_diff [c] s). Qed.

Lemma notbrace_run (q : str) :
  "{"%char ∉ q → Forall (λ c, none_of "{" c = true) q.
Proof.
  intros H. apply Forall_forall. intros c Hc. unfold none_of, one_of.
  simpl. rewrite orb_false_r. apply negb_true_iff.
  destruct (Ascii.eqb c "{") eqn:E; [|done].
  apply Ascii.eqb_eq in E. congruence.
Qed.

(** The media pattern over a block as it is written, with [rest] after it:
    the end of the text or the next block. *)
Lemma media_block_match total (q content rest : str) :
  tight q → "{"%char ∉ q →
  clear "@media" content →
  rest = [] ∨ (∃ s, rest = "@media" ++ s) →
  ∃ cs q1,
    match_here total mediaRegex
      ("@media " ++ q ++ "{" ++ content ++ "}" ++ rest) = Some (rest, cs) ∧
    cap cs 1 = Some q1 ∧ Js.trim q1 = q ∧ cap cs 2 = Some content.
Proof.
  intros Hq Hqb Hclear Hrest.
  set (q1 := match q with [] => " " : str | _ => q end).
  destruct (media_tail total content rest [(1, q1)] Hclear Hrest) as [c3 Ht].
  exists ((3, c3) :: (2, content) :: [(1, q1)]), q1.
  split_and!; [| done | | done].
  2:{ subst q1. destruct q; [done|]. by apply trim_of_tight. }
  unfold match_here, mediaRegex. cbn [Seq].
  rewrite rmatch_Cat, rmatch_Word.
  change (Js.startsWith ("@media " ++ ?x) "@media") with true. cbv iota.
  change (drop (length ("@media" : str)) ("@media " ++ ?x))
    with (" "%char :: x).
  unfold ws. rewrite rmatch_Cat.
  destruct q as [|c q].
  - (* an empty query: the white space is given back to the group *)
    rewrite rep_cls_cons by done. cbn [app].
    rewrite rep_cls_stop by done.
    rewrite rmatch_Cat, rmatch_Grp. unfold Rep1 at 1. rewrite rmatch_Cat.
    assert (∀ (s : str) cs (k : cont),
              rmatch total (Cls (none_of "{")) ("{" ++ s) cs k = None) as HN
      by done.
    rewrite HN.
    rewrite rmatch_Cat, rmatch_Grp. unfold Rep1. rewrite rmatch_Cat.
    rewrite rmatch_Cls_cons by done.
    rewrite rep_cls_stop by done.
    rewrite rmatch_Cat, rep_cls_stop by done.
    rewrite take_cons_diff. exact Ht.
  - destruct Hq as [Hq1 Hq2]. simpl in Hq1.
    apply (rep_greedy_run total Js.is_space [" "%char]);
      [by repeat constructor|done|].
    rewrite rmatch_Cat, rmatch_Grp.
    apply (rep1_greedy_run total _ (c :: q) ("{" ++ content ++ "}" ++ rest));
      [done|by apply notbrace_run|done|].
    rewrite (take_app_length_diff (c :: q)).
    rewrite rmatch_Cat, rep_cls_stop by done.
    exact Ht.
Qed.

End PatternFacts.

(** ** Reading back what the optimizer writes: the parser *)

Section ReadBack.
Import Re ReLib Text Css.

Abbreviation final := (λ (s' : str) (cs' : caps), Some (s', cs')).

Lemma notclose_run (s : str) :
  "}"%char ∉ s → Forall (λ c, none_of "}" c = true) s.
Proof.
  intros H. apply Forall_forall. intros c Hc. unfold none_of, one_of.
  simpl. rewrite orb_false_r. apply negb_true_iff.
  destruct (Ascii.eqb c "}") eqn:E; [|done].
  apply Ascii.eqb_eq in E. congruence.
Qed.

(** The rule pattern over a group as it is written. *)
Lemma rule_match total (sel body rest : str) :
  sel ≠ [] → "{"%char ∉ sel → body ≠ [] → "}"%char ∉ body →
  match_here total ruleRegex (sel ++ "{" ++ body ++ "}" ++ rest)
  = Some (rest, [(2, body); (1, sel)]).
Proof.
  intros Hsel Hsb Hbody Hbb. unfold match_here, ruleRegex. cbn [Seq].
  rewrite rmatch_Cat, rmatch_Grp.
  apply rep1_greedy_run; [done|by apply notbrace_run|done|].
  rewrite take_app_length_diff.
  change ("{" ++ body ++ "}" ++ rest) with ("{"%char :: (body ++ "}" ++ rest)).
  rewrite rmatch_Cat, rmatch_Lit_cons, rmatch_Cat, rmatch_Grp.
  apply rep1_greedy_run; [done|by apply notclose_run|done|].
  rewrite take_app_length_diff.
  change ("}" ++ rest) with ("}"%char :: rest).
  by rewrite rmatch_Lit_cons.
Qed.

(** The text of the declarations of a group that is not empty. *)
Lemma write_decls_cons prop val (d : Obj.t str) :
  write_decls ((prop, val) :: d) = prop ++ ":" ++ val ++ ";" ++ write_decls d.
Proof.
  rewrite !write_decls_concat. simpl. unfold decl_text.
  by rewrite <- !app_assoc.
Qed.

Lemma write_decls_nonempty (d : Obj.t str) : d ≠ [] → write_decls d ≠ [].
Proof.
  destruct d as [|[p v] d]; [done|]. intros _. rewrite write_decls_cons.
  destruct p; done.
Qed.

Lemma write_decls_no_close (d : Obj.t str) :
  Forall (λ pv, word_ok (fst pv) ∧ word_ok (snd pv)) d →
  "}"%char ∉ write_decls d.
Proof.
  induction 1 as [|[p v] d [Hp Hv] _ IH].
  - apply not_elem_of_nil.
  - rewrite write_decls_cons. simpl in Hp, Hv.
    destruct Hp as (_ & _ & _ & _ & Hp), Hv as (_ & _ & _ & _ & Hv).
    rewrite !not_elem_of_app.
    split_and!; try done;
      (apply not_elem_of_cons; split; [done|apply not_elem_of_nil]).
Qed.

Lemma write_groups_unfold (g : grouping) :
  ∀ sel d, write_groups ((sel, d) :: g)
           = sel ++ "{" ++ write_decls d ++ "}" ++ write_groups g.
Proof.
  intros. rewrite write_groups_cons. unfold group_text.
  by rewrite <- !app_assoc.
Qed.

(** The groups that the rule pattern finds in the text of [g]. *)
Lemma scan_rules total (g : grouping) :
  Forall (λ sd, selector_ok (fst sd) ∧ decls_ok (snd sd) ∧ snd sd ≠ []) g →
  ∀ fuel, length (write_groups g) < fuel →
  ∃ fs, scan fuel total ruleRegex (write_groups g) = (fs, []) ∧
        Forall2 (λ f sd, groups f = [(2, write_decls (snd sd)); (1, fst sd)])
                fs g.
Proof.
  induction 1 as [|[sel d] g (Hsel & Hd & Hne) _ IH]; intros fuel Hfuel.
  - destruct fuel as [|fuel]; [simpl in Hfuel; lia|].
    exists []. split; [|constructor]. done.
  - destruct fuel as [|fuel]; [lia|]. simpl in Hsel, Hd, Hne.
    rewrite write_groups_unfold in *. rewrite scan_S.
    destruct Hsel as (Hs1 & _ & Hs2). destruct Hd as [_ Hd].
    rewrite (search_here _ _ _ (write_groups g)
               [(2, write_decls d); (1, sel)]).
    2:{ apply rule_match; [done|done|by apply write_decls_nonempty|].
        by apply write_decls_no_close. }
    cbn [after].
    destruct (IH fuel) as (fs & -> & Hfs).
    { rewrite !length_app in Hfuel. simpl in Hfuel. lia. }
    eexists. split; [reflexivity|]. constructor; [done|done].
Qed.

Lemma write_decls_app (d1 d2 : Obj.t str) :
  write_decls (d1 ++ d2) = write_decls d1 ++ write_decls d2.
Proof. by rewrite !write_decls_concat, map_app, concat_app. Qed.

Lemma write_decls_tight (d : Obj.t str) :
  Forall (λ pv, word_ok (fst pv) ∧ word_ok (snd pv)) d → d ≠ [] →
  tight (write_decls d).
Proof.
  intros Hd Hne. split.
  - destruct d as [|[p v] d]; [done|]. rewrite write_decls_cons.
    apply Forall_cons in Hd as [[(Hp & Ht & _) _] _].
    by apply tight_app_stops.
  - destruct (exists_last Hne) as (d' & [p v] & ->).
    rewrite write_decls_app, write_decls_cons.
    change (write_decls []) with ([] : str).
    rewrite !app_assoc, app_nil_r, rev_app_distr. done.
Qed.

Abbreviation rule_of := (λ sd : str * Obj.t str,
                           Rule (fst sd) (write_decls (snd sd))).

Lemma push_rule_eq acc f sel (d : Obj.t str) :
  selector_ok sel → decls_ok d → d ≠ [] →
  groups f = [(2, write_decls d); (1, sel)] →
  push_rule acc f = acc ++ [Rule sel (write_decls d)].
Proof.
  intros (Hs1 & Hs2 & _) [_ Hd] Hne Hf.
  unfold push_rule, group. rewrite Hf. cbn [cap Nat.eqb default]. unfold id.
  rewrite (trim_of_tight sel Hs2).
  rewrite (trim_of_tight _ (write_decls_tight d Hd Hne)).
  pose proof (write_decls_nonempty d Hne) as Hw.
  destruct sel; [done|]. by destruct (write_decls d).
Qed.

Lemma push_rules (g : grouping) :
  Forall (λ sd, selector_ok (fst sd) ∧ decls_ok (snd sd) ∧ snd sd ≠ []) g →
  ∀ fs acc,
    Forall2 (λ f sd, groups f = [(2, write_decls (snd sd)); (1, fst sd)])
            fs g →
    foldl push_rule acc fs = acc ++ map rule_of g.
Proof.
  induction 1 as [|[sel d] g (Hsel & Hd & Hne) _ IH]; intros fs acc Hfs.
  - apply Forall2_nil_inv_r in Hfs as ->. simpl. by rewrite app_nil_r.
  - apply Forall2_cons_inv_r in Hfs as (f & fs' & Hf & Hfs' & ->).
    cbn [foldl map fst snd] in *. rewrite (IH fs' _ Hfs').
    rewrite (push_rule_eq acc f sel d) by done.
    by rewrite <- app_assoc.
Qed.

(** The text of a group list ends with a closing brace. *)
Lemma write_groups_snoc (g : grouping) :
  g ≠ [] → ∃ s, write_groups g = s ++ ["}"%char].
Proof.
  intros Hne. destruct (exists_last Hne) as (g' & [sel d] & ->).
  rewrite write_groups_app, write_groups_cons. unfold group_text.
  change (write_groups []) with ([] : str). rewrite app_nil_r.
  exists (write_groups g' ++ sel ++ "{" ++ write_decls d).
  by rewrite <- !app_assoc.
Qed.

Lemma write_groups_clear w (g : grouping) :
  free w (write_groups g) → "}"%char ∉ w → clear w (write_groups g).
Proof.
  intros Hfree Hw. destruct g as [|x g]; [apply clear_nil|].
  destruct (write_groups_snoc (x :: g)) as [s Hs]; [done|].
  rewrite Hs in *. by apply free_clear.
Qed.

Abbreviation media_of := (λ b : str * grouping,
                            MediaRule (fst b) (write_groups (snd b))).
Abbreviation media_found := (λ m : found,
                               MediaRule (Js.trim (group m 1)) (group m 2)).

Lemma blocks_text_start (B : list (str * grouping)) :
  concat (map block_text B) = [] ∨
  ∃ s, concat (map block_text B) = "@media" ++ s.
Proof.
  destruct B as [|[q g] B]; [by left|]. right. simpl. unfold block_text.
  eexists. rewrite <- !app_assoc. reflexivity.
Qed.

(** The blocks that the media pattern finds in an output: [pre], where no
    block starts, is skipped; the blocks are found one after the other. *)
Lemma scan_media total (B : list (str * grouping)) :
  Forall (λ b, query_ok (fst b) ∧ clear "@media" (write_groups (snd b))) B →
  ∀ fuel (pre : str),
    clear "@media" pre →
    length (pre ++ concat (map block_text B)) < fuel →
    ∃ fs tl,
      scan fuel total mediaRegex (pre ++ concat (map block_text B))
      = (fs, tl) ∧
      map media_found fs = map media_of B ∧
      concat (map skipped fs) ++ tl = pre.
Proof.
  induction 1 as [|[q g] B [[Hq1 Hq2] Hg] _ IH]; intros fuel pre Hpre Hfuel.
  - destruct fuel as [|fuel]; [lia|]. exists [], pre. simpl.
    rewrite app_nil_r. rewrite search_none; [done|].
    intros t Ht. apply media_needs_word.
    destruct t as [|a t]; [done|].
    pose proof (Hpre (a :: t) [] ltac:(done) Ht) as H0.
    by rewrite app_nil_r in H0.
  - destruct fuel as [|fuel]; [lia|]. rewrite scan_S.
    cbn [map concat] in *. simpl in Hq1, Hq2, Hg.
    destruct (media_block_match total q (write_groups g)
                (concat (map block_text B)) Hq1 Hq2 Hg
                (blocks_text_start B)) as (cs & q1 & Hm & Hc1 & Htrim & Hc2).
    rewrite search_skip.
    2:{ intros t Ht Hsuf. apply media_needs_word. by apply Hpre. }
    unfold block_text at 1. cbn [fst snd]. rewrite <- !app_assoc.
    rewrite (search_here _ _ _ _ _ Hm). cbn [after skipped matched groups].
    destruct (IH fuel []) as (fs & tl & Hscan & Hfs & Hskip).
    { apply clear_nil. }
    { rewrite !length_app in Hfuel. simpl in *. lia. }
    simpl in Hscan. rewrite Hscan.
    exists (Found (pre ++ [])
              (take (length ("@media " ++ q ++ "{" ++ write_groups g ++ "}"
                             ++ concat (map block_text B))
                     - length (concat (map block_text B)))
                    ("@media " ++ q ++ "{" ++ write_groups g ++ "}"
                     ++ concat (map block_text B)))
              cs (concat (map block_text B)) :: fs), tl.
    split_and!; [done| |].
    + cbn [map]. rewrite Hfs. f_equal.
      unfold group. cbn [groups]. rewrite Hc1, Hc2. simpl. by rewrite Htrim.
    + cbn [map concat skipped]. rewrite <- !app_assoc, Hskip.
      by rewrite !app_nil_r.
Qed.

End ReadBack.

(** ** Reading back what the optimizer writes: the round trip *)

Section RoundTrip.
Import Re ReLib Text Css.

Abbreviation rule_of := (λ sd : str * Obj.t str,
                           Rule (fst sd) (write_decls (snd sd))).
Abbreviation media_of := (λ b : str * grouping,
                            MediaRule (fst b) (write_groups (snd b))).
Abbreviation media_found := (λ m : found,
                               MediaRule (Js.trim (group m 1)) (group m 2)).
Abbreviation full := (λ sd : str * Obj.t str,
                        selector_ok (fst sd) ∧ decls_ok (snd sd) ∧
                        snd sd ≠ []).

Lemma parse_render (G : grouping) (B : list (str * grouping)) :
  Forall full G →
  Forall (λ b, query_ok (fst b) ∧ clear "@media" (write_groups (snd b))) B →
  clear "@media" (write_groups G) →
  free "/*" (render G B) →
  parseCSSRules (render G B) = Parsed (map rule_of G) (map media_of B).
Proof.
  intros HG HB Hclear Hfree. unfold parseCSSRules. cbv zeta.
  rewrite (remove_comments_free _ Hfree).
  unfold remove, matchAll, render in *.
  destruct (scan_media (length (write_groups G ++ concat (map block_text B)))
              B HB
              (S (length (write_groups G ++ concat (map block_text B))))
              (write_groups G) Hclear ltac:(lia))
    as (fs & tl & -> & Hfs & Hskip).
  cbn [fst]. rewrite Hskip, Hfs.
  destruct (scan_rules (length (write_groups G)) G HG
              (S (length (write_groups G))) ltac:(lia)) as (rs & -> & Hrs).
  cbn [fst]. by rewrite (push_rules G HG rs [] Hrs).
Qed.

(** *** Grouping again *)

Lemma set_new {V} (o : Obj.t V) k v :
  k ∉ Obj.keys o → Obj.set o k v = o ++ [(k, v)].
Proof.
  induction o as [|[k0 v0] o IH]; simpl; [done|].
  intros [Hne Hk]%not_elem_of_cons.
  rewrite obj_eqb_ne by done. by rewrite IH.
Qed.

Lemma get_last {V} (o : Obj.t V) k v :
  k ∉ Obj.keys o → Obj.get (o ++ [(k, v)]) k = Some v.
Proof.
  induction o as [|[k0 v0] o IH]; simpl.
  - by rewrite obj_eqb_refl.
  - intros [Hne Hk]%not_elem_of_cons. rewrite obj_eqb_ne by done. by apply IH.
Qed.

Lemma set_last {V} (o : Obj.t V) k v v' :
  k ∉ Obj.keys o → Obj.set (o ++ [(k, v)]) k v' = o ++ [(k, v')].
Proof.
  induction o as [|[k0 v0] o IH]; simpl.
  - by rewrite obj_eqb_refl.
  - intros [Hne Hk]%not_elem_of_cons. rewrite obj_eqb_ne by done.
    by rewrite IH.
Qed.

Lemma sets_app {V} (d : Obj.t V) :
  NoDup (Obj.keys d) →
  ∀ o, (∀ k, k ∈ Obj.keys d → k ∉ Obj.keys o) →
       foldl (λ o pv, Obj.set o (fst pv) (snd pv)) o d = o ++ d.
Proof.
  induction d as [|[k v] d IH]; intros Hnd o Hdis; simpl.
  - by rewrite app_nil_r.
  - simpl in Hnd. apply NoDup_cons in Hnd as [Hk Hnd].
    rewrite set_new by (apply Hdis; simpl; apply elem_of_cons; by left).
    rewrite IH; [by rewrite <- app_assoc|done|].
    intros k' Hk'. unfold Obj.keys. rewrite map_app. simpl.
    apply not_elem_of_app. split.
    + apply Hdis. simpl. apply elem_of_cons. by right.
    + apply not_elem_of_cons. split; [|apply not_elem_of_nil].
      intros ->. done.
Qed.

(** The declarations as they are split again. *)
Lemma split_write_decls (d : Obj.t str) :
  Forall (λ pv, word_ok (fst pv) ∧ word_ok (snd pv)) d →
  Js.split ";" (write_decls d)
  = map (λ pv, fst pv ++ ":" ++ snd pv) d ++ [[]].
Proof.
  induction 1 as [|[p v] d [Hp Hv] _ IH]; [done|].
  rewrite write_decls_cons. simpl in Hp, Hv.
  destruct Hp as (_ & _ & _ & Hp & _), Hv as (_ & _ & _ & Hv & _).
  replace (p ++ ":" ++ v ++ ";" ++ write_decls d)
    with ((p ++ ":" ++ v) ++ ";"%char :: write_decls d)
    by (by rewrite <- !app_assoc).
  rewrite split_app_sep.
  - by rewrite IH.
  - rewrite !not_elem_of_app. split_and!; [done| |done].
    apply not_elem_of_cons. split; [done|apply not_elem_of_nil].
Qed.

Lemma write_decl_pair (o : Obj.t str) p v :
  word_ok p → word_ok v →
  write_decl o (p ++ ":" ++ v) = Obj.set o p v.
Proof.
  intros (Hp1 & Hp2 & Hp3 & _) (Hv1 & Hv2 & Hv3 & _). unfold write_decl.
  change (p ++ ":" ++ v) with (p ++ ":"%char :: v).
  rewrite split_app_sep, split_no_sep by done. cbn [map].
  rewrite !trim_of_tight by done. destruct p; [done|]. by destruct v.
Qed.

Lemma write_decl_empty (o : Obj.t str) : write_decl o [] = o.
Proof. done. Qed.

Lemma rule_decls_render sel (d : Obj.t str) :
  decls_ok d → rule_decls (Rule sel (write_decls d)) [] = d.
Proof.
  intros [Hnd Hd]. unfold rule_decls. cbn [declarations].
  rewrite split_write_decls by done. rewrite foldl_app. cbn [foldl].
  rewrite write_decl_empty.
  rewrite <- (sets_app d Hnd []) at 2.
  2:{ intros. apply not_elem_of_nil. }
  clear Hnd. generalize ([] : Obj.t str).
  induction Hd as [|[p v] d [Hp Hv] _ IH];
    intros o; [done|].
  cbn [map foldl fst snd]. rewrite write_decl_pair by done. apply IH.
Qed.

Lemma add_decl_last sel (g : grouping) o decl :
  sel ∉ Obj.keys g →
  add_decl sel (g ++ [(sel, o)]) decl = g ++ [(sel, write_decl o decl)].
Proof.
  intros Hsel. unfold add_decl, write_decl.
  destruct (map Js.trim _) as [|[|? ?] [|[|? ?] ?]]; try done.
  rewrite get_last by done. by rewrite set_last.
Qed.

Lemma add_decls_last sel (g : grouping) ds :
  sel ∉ Obj.keys g →
  ∀ o, foldl (add_decl sel) (g ++ [(sel, o)]) ds
       = g ++ [(sel, foldl write_decl o ds)].
Proof.
  intros Hsel. induction ds as [|x ds IH]; intros o; [done|].
  cbn [foldl]. by rewrite add_decl_last, IH.
Qed.

Lemma add_rule_new (g : grouping) r :
  selector r ∉ Obj.keys g →
  add_rule g r = g ++ [(selector r, rule_decls r [])].
Proof.
  intros Hsel. unfold add_rule.
  rewrite (proj2 (get_None_keys g (selector r)) Hsel).
  rewrite set_new by done. by apply add_decls_last.
Qed.

(** Grouping the rules read back from the text of [G] gives [G]. *)
Lemma group_rules_render (G : grouping) :
  groups_ok G → group_rules (map rule_of G) = G.
Proof.
  intros [Hnd HG]. unfold group_rules.
  assert (∀ acc : grouping,
            NoDup (Obj.keys (acc ++ G)) →
            foldl add_rule acc (map rule_of G) = acc ++ G) as H.
  { clear Hnd. induction HG as [|[sel d] G [_ Hd] _ IH]; intros acc Hnd.
    - simpl. by rewrite app_nil_r.
    - cbn [map foldl fst snd]. simpl in Hd.
      unfold Obj.keys in Hnd. rewrite map_app in Hnd. simpl in Hnd.
      apply NoDup_app in Hnd as (Hacc & Hdis & Hnd).
      rewrite add_rule_new; cbn [selector].
      2:{ intros Hin. apply (Hdis sel Hin). apply elem_of_cons. by left. }
      rewrite rule_decls_render by done.
      rewrite IH; [by rewrite <- app_assoc|].
      unfold Obj.keys. rewrite !map_app. simpl.
      rewrite <- app_assoc. simpl.
      apply NoDup_app. split_and!; [done| |done].
      intros x Hx. by apply Hdis. }
  apply (H []). done.
Qed.

(** The filter deletes nothing where every group is kept. *)
Lemma drop_unused_id U (g : grouping) :
  all_kept U g → drop_unused U g = g.
Proof.
  destruct U as [u|]; [|done]. unfold all_kept, drop_unused, deleted.
  intros H.
  assert (Forall (λ sel, unused u sel = false) (Obj.keys g)) as Hk.
  { unfold Obj.keys. apply Forall_fmap. exact H. }
  clear H. revert Hk. generalize (Obj.keys g). intros ks Hk.
  induction Hk as [|k ks Hk _ IH]; [done|]. cbn [foldl]. by rewrite Hk.
Qed.

(** *** Where [@media] and the opening of a comment cannot be *)

(** A given character is not in a given word. *)
Ltac not_in_word :=
  let H := fresh in
  intros H; apply list_elem_of_In in H; simpl in H; intuition discriminate.


Abbreviation pieces_free := (λ (w : str) (sd : str * Obj.t str),
  free w (fst sd) ∧
  Forall (λ pv : str * str, free w (fst pv) ∧ free w (snd pv)) (snd sd)).

Lemma free_write_decls_app w (d : Obj.t str) (Y : str) :
  ":"%char ∉ w → ";"%char ∉ w →
  Forall (λ pv, free w (fst pv) ∧ free w (snd pv)) d →
  free w Y → free w (write_decls d ++ Y).
Proof.
  intros Hc Hs Hd HY. induction Hd as [|[p v] d [Hp Hv] _ IH]; [done|].
  rewrite write_decls_cons. rewrite <- !app_assoc.
  apply (free_sep w p ":"%char); [done|done|].
  by apply (free_sep w v ";"%char).
Qed.

Lemma free_write_groups_app w (G : grouping) (X : str) :
  ":"%char ∉ w → ";"%char ∉ w → "{"%char ∉ w → "}"%char ∉ w → w ≠ [] →
  Forall (pieces_free w) G →
  free w X → free w (write_groups G ++ X).
Proof.
  intros Hc Hs Ho Hcl Hw HG HX.
  induction HG as [|[sel d] G [Hsel Hd] _ IH]; [done|].
  rewrite write_groups_cons. unfold group_text. rewrite <- !app_assoc.
  apply (free_sep w sel "{"%char); [done|done|].
  apply free_write_decls_app; [done..|].
  by apply free_cons.
Qed.

Lemma plain_free (s : str) :
  plain s = true → free "@media" s ∧ free "/*" s.
Proof.
  unfold plain, free. intros [H1 H2]%andb_true_iff.
  by apply negb_true_iff in H1, H2.
Qed.

Lemma plain_groups_spec (g : grouping) :
  plain_groups g = true →
  Forall (λ sd, snd sd ≠ []) g ∧
  Forall (pieces_free "@media") g ∧ Forall (pieces_free "/*") g.
Proof.
  induction g as [|[sel d] g IH]; [by repeat constructor|].
  cbn [plain_groups forallb].
  intros [[[Hsel Hlen]%andb_true_iff Hd]%andb_true_iff Hg]%andb_true_iff.
  destruct (IH Hg) as (IH1 & IH2 & IH3).
  apply plain_free in Hsel as [Hs1 Hs2]. simpl in Hlen, Hd.
  assert (Forall (λ pv : str * str,
                    (free "@media" (fst pv) ∧ free "@media" (snd pv)) ∧
                    (free "/*" (fst pv) ∧ free "/*" (snd pv))) d) as Hd'.
  { clear -Hd. induction d as [|[p v] d IH]; [constructor|].
    cbn [plain_decls forallb] in Hd.
    apply andb_true_iff in Hd as [[Hp Hv]%andb_true_iff Hd].
    apply plain_free in Hp as [? ?], Hv as [? ?].
    constructor; [done|by apply IH]. }
  split_and!; constructor; try done.
  - simpl. by destruct d.
  - split; [done|]. eapply Forall_impl; [exact Hd'|]. by intros ? [? ?].
  - split; [done|]. eapply Forall_impl; [exact Hd'|]. by intros ? [? ?].
Qed.

Lemma free_blocks_comment (B : list (str * grouping)) :
  Forall (λ b, free "/*" (fst b) ∧ Forall (pieces_free "/*") (snd b)) B →
  free "/*" (concat (map block_text B)).
Proof.
  induction 1 as [|[q g] B [Hq Hg] _ IH]; [done|].
  cbn [map concat]. unfold block_text. cbn [fst snd] in *.
  rewrite <- !app_assoc.
  change ("@media " ++ ?x) with
    ("@"%char :: "m"%char :: "e"%char :: "d"%char :: "i"%char :: "a"%char
     :: " "%char :: x).
  do 7 (apply free_cons; [not_in_word|done|]).
  apply (free_sep "/*" q "{"%char);
    [not_in_word|done|].
  apply free_write_groups_app; try done; not_in_word.
Qed.

Lemma groups_full (g : grouping) :
  groups_ok g → plain_groups g = true →
  Forall full g ∧ clear "@media" (write_groups g) ∧
  Forall (pieces_free "/*") g.
Proof.
  intros [_ Hok] (Hne & Hm & Hc)%plain_groups_spec. split_and!; [| |done].
  - apply Forall_forall. intros sd Hsd.
    rewrite Forall_forall in Hok, Hne.
    destruct (Hok sd Hsd). split_and!; [done|done|by apply Hne].
  - apply write_groups_clear; [|not_in_word].
    rewrite <- (app_nil_r (write_groups g)).
    apply free_write_groups_app; try done; not_in_word.
Qed.

(** A block as it is written is read back and written again as it is. *)
Lemma media_text_render U (q : str) (g : grouping) :
  groups_ok g → g ≠ [] → plain_groups g = true → all_kept U g →
  media_text U (MediaRule q (write_groups g)) = block_text (q, g).
Proof.
  intros Hok Hne Hplain Hkept.
  destruct (groups_full g Hok Hplain) as (Hfull & Hclear & Hfree).
  rewrite media_text_eq. unfold media_emitted. cbn [content query].
  pose proof (parse_render g [] Hfull ltac:(constructor) Hclear) as Hparse.
  unfold render in Hparse. cbn [map concat] in Hparse.
  rewrite app_nil_r in Hparse. rewrite Hparse.
  2:{ rewrite <- (app_nil_r (write_groups g)).
      apply free_write_groups_app; try done; not_in_word. }
  cbn [rules]. rewrite group_rules_render, drop_unused_id by done.
  by destruct g.
Qed.

(** The round trip: an output with the groups [G] and the blocks [B], all
    of them kept by the filter, is optimized into itself. *)
Lemma optimizeCSS_render U (G : grouping) (B : list (str * grouping)) :
  groups_ok G → blocks_ok B →
  plain_groups G = true → plain_blocks B = true →
  all_kept U G → Forall (λ b, all_kept U (snd b)) B →
  optimizeCSS (render G B) U = render G B.
Proof.
  intros HG HB HpG HpB HkG HkB.
  destruct (groups_full G HG HpG) as (Hfull & Hclear & Hfree).
  assert (Forall (λ b, plain (fst b) = true ∧ plain_groups (snd b) = true) B)
    as HpB'.
  { clear -HpB. induction B as [|b B IH]; [constructor|].
    cbn [plain_blocks forallb] in HpB.
    apply andb_true_iff in HpB as [[? ?]%andb_true_iff HpB].
    constructor; [done|by apply IH]. }
  rewrite optimizeCSS_eq. unfold emitted, merged.
  rewrite (parse_render G B Hfull); [| |done|].
  - cbn [rules mediaRules].
    rewrite group_rules_render, drop_unused_id by done.
    unfold render. f_equal. rewrite map_map. f_equal.
    apply Forall_fmap_ext_1. unfold blocks_ok in HB.
    rewrite Forall_forall in HB, HkB, HpB'. apply Forall_forall.
    intros [q g] Hb. cbn [fst snd].
    destruct (HB _ Hb) as (_ & Hg & Hne). destruct (HpB' _ Hb) as [_ Hpg].
    apply media_text_render; try done. by apply (HkB _ Hb).
  - unfold blocks_ok in HB. rewrite Forall_forall in HB, HpB'.
    apply Forall_forall. intros [q g] Hb. cbn [fst snd].
    destruct (HB _ Hb) as (Hq & Hg & Hne). destruct (HpB' _ Hb) as [_ Hpg].
    split; [done|]. by apply groups_full.
  - unfold render. apply free_write_groups_app; try done; try not_in_word.
    apply free_blocks_comment.
    unfold blocks_ok in HB. rewrite Forall_forall in HB, HpB'.
    apply Forall_forall. intros [q g] Hb. cbn [fst snd].
    destruct (HB _ Hb) as (Hq & Hg & Hne). destruct (HpB' _ Hb) as [Hpq Hpg].
    split; [by apply plain_free in Hpq as [_ ?]|]. by apply groups_full.
Qed.

End RoundTrip.

(** ** What the parser captures *)

Section Captures.
Import Re ReLib Text Css.

Abbreviation cont := (str → caps → option outcome).
Abbreviation final := (λ (s' : str) (cs' : caps), Some (s', cs')).

Lemma rmatch_Lit_inv total c (s : str) cs (k : cont) o :
  rmatch total (Lit c) s cs k = Some o →
  ∃ s', s = c :: s' ∧ k s' cs = Some o.
Proof.
  destruct s as [|a s]; [done|]. simpl.
  destruct (Ascii.eqb a c) eqn:E; [|done].
  apply Ascii.eqb_eq in E as ->. eauto.
Qed.

Lemma rmatch_Cls_inv total p (s : str) cs (k : cont) o :
  rmatch total (Cls p) s cs k = Some o →
  ∃ c s', s = c :: s' ∧ p c = true ∧ k s' cs = Some o.
Proof.
  destruct s as [|a s]; [done|]. simpl.
  destruct (p a) eqn:E; [|done]. eauto.
Qed.

Lemma rep1_cls_inv total g p (s : str) cs (k : cont) o :
  rmatch total (Rep1 g (Cls p)) s cs k = Some o →
  ∃ run rest, s = run ++ rest ∧ Forall (λ c, p c = true) run ∧
              k rest cs = Some o.
Proof.
  unfold Rep1. rewrite rmatch_Cat.
  intros (c & s' & -> & Hc & H)%rmatch_Cls_inv.
  apply rep_cls_inv in H as (run & rest & -> & Hrun & Hk).
  exists (c :: run), rest. split_and!; [done| |done]. by constructor.
Qed.

Lemma run_not_elem_of (cs : str) (run : str) c :
  Forall (λ a, none_of cs a = true) run → c ∈ cs → c ∉ run.
Proof.
  intros Hrun Hc Hin. rewrite Forall_forall in Hrun.
  specialize (Hrun c Hin). unfold none_of, one_of in Hrun.
  apply negb_true_iff in Hrun.
  assert (existsb (Ascii.eqb c) cs = true) as E; [|congruence].
  apply existsb_exists. exists c. split; [by apply list_elem_of_In|].
  apply Ascii.eqb_refl.
Qed.

(** The groups of a match of the rule pattern: a selector without [{] and
    declarations without [}]. *)
Lemma rule_captures total (t s' : str) cs :
  match_here total ruleRegex t = Some (s', cs) →
  ∃ sel body, cs = [(2, body); (1, sel)] ∧
              ("{"%char ∉ sel) ∧ ("}"%char ∉ body).
Proof.
  unfold match_here, ruleRegex. cbn [Seq].
  rewrite rmatch_Cat, rmatch_Grp.
  intros (sel & rest & -> & Hsel & H)%rep1_cls_inv.
  rewrite take_app_length_diff in H.
  rewrite rmatch_Cat in H. apply rmatch_Lit_inv in H as (rest' & -> & H).
  rewrite rmatch_Cat, rmatch_Grp in H.
  apply rep1_cls_inv in H as (body & rest & -> & Hbody & H).
  rewrite take_app_length_diff in H.
  apply rmatch_Lit_inv in H as (rest' & -> & H).
  injection H as <- <-. exists sel, body. split_and!; [done| |].
  - eapply run_not_elem_of; [exact Hsel|]. by apply list_elem_of_singleton.
  - eapply run_not_elem_of; [exact Hbody|]. by apply list_elem_of_singleton.
Qed.

(** The first group of a match of the media pattern: a query without [{]. *)
Lemma media_captures total (t s' : str) cs :
  match_here total mediaRegex t = Some (s', cs) →
  ∃ q, cap cs 1 = Some q ∧ ("{"%char ∉ q).
Proof.
  unfold match_here, mediaRegex. cbn [Seq].
  rewrite rmatch_Cat, rmatch_Word.
  destruct (Js.startsWith t "@media"); [|done].
  rewrite rmatch_Cat. unfold ws.
  intros (sp & t1 & _ & _ & H)%rep_cls_inv.
  rewrite rmatch_Cat, rmatch_Grp in H.
  apply rep1_cls_inv in H as (q & t2 & -> & Hq & H).
  rewrite take_app_length_diff in H.
  rewrite rmatch_Cat in H.
  apply rep_cls_inv in H as (sp2 & t3 & -> & _ & H).
  rewrite rmatch_Cat in H. apply rmatch_Lit_inv in H as (t4 & -> & H).
  rewrite rmatch_Cat, rmatch_Grp in H.
  apply rep_cls_inv in H as (content & t5 & -> & _ & H).
  rewrite rmatch_Cat in H. apply rmatch_Lit_inv in H as (t6 & -> & H).
  rewrite rmatch_Ahead in H.
  destruct (rmatch total _ t6 _ _) as [[s3 cs3]|] eqn:E; [|done].
  injection H as <- <-.
  rewrite rmatch_Cat in E. apply rep_cls_inv in E as (sp3 & t7 & -> & _ & E).
  rewrite rmatch_Grp in E. cbn [rmatch] in E.
  exists q. split.
  2:{ eapply run_not_elem_of; [exact Hq|]. by apply list_elem_of_singleton. }
  rewrite rmatch_Word in E.
  destruct (Js.startsWith t7 "@media").
  - by injection E as <- <-.
  - destruct t7; [|done]. by injection E as <- <-.
Qed.

End Captures.

(** ** What the first pass guarantees of its output *)

Section FirstPass.
Import Re ReLib Text Css.

Abbreviation rule_ok := (λ r : rule,
  selector_ok (selector r) ∧ ("}"%char ∉ declarations r)).
Abbreviation group_ok := (λ sd : str * Obj.t str,
  selector_ok (fst sd) ∧ decls_ok (snd sd)).
Abbreviation pair_ok := (λ pv : str * str,
  word_ok (fst pv) ∧ word_ok (snd pv)).

Lemma trim_not_elem_of (s : str) c : c ∉ s → c ∉ Js.trim s.
Proof. intros H Hin. by apply H, trim_subseteq. Qed.

Lemma push_rule_ok acc f sel body :
  groups f = [(2, body); (1, sel)] →
  "{"%char ∉ sel → "}"%char ∉ body →
  Forall rule_ok acc → Forall rule_ok (push_rule acc f).
Proof.
  intros Hf Hsel Hbody Hacc. unfold push_rule, group. rewrite Hf.
  cbn [cap Nat.eqb default]. unfold id.
  destruct (Js.trim sel) as [|a s] eqn:Es; [done|].
  destruct (Js.trim body) as [|b t] eqn:Eb; [done|].
  apply Forall_app. split; [done|]. apply Forall_singleton.
  cbn [selector declarations].
  rewrite <- Es, <- Eb. split; [|by apply trim_not_elem_of].
  unfold selector_ok. split_and!.
  - by rewrite Es.
  - apply trim_tight.
  - by apply trim_not_elem_of.
Qed.

Lemma parse_rules_ok (css : str) : Forall rule_ok (rules (parseCSSRules css)).
Proof.
  unfold parseCSSRules. cbv zeta. cbn [rules]. unfold matchAll.
  set (text := remove mediaRegex _).
  pose proof (scan_found
                (λ cs, ∃ sel body, cs = [(2, body); (1, sel)] ∧
                                   ("{"%char ∉ sel) ∧ ("}"%char ∉ body))
                (length text) ruleRegex
                (λ t s' cs, rule_captures (length text) t s' cs)
                (S (length text)) text) as Hfs.
  revert Hfs. generalize (fst (scan (S (length text)) (length text)
                                 ruleRegex text)).
  intros fs Hfs.
  assert (∀ acc, Forall rule_ok acc → Forall rule_ok (foldl push_rule acc fs))
    as H.
  { induction Hfs as [|f fs (sel & body & Hf & Hs & Hb) _ IH]; intros acc Hacc;
      [exact Hacc|].
    cbn [foldl]. apply IH. by eapply push_rule_ok. }
  apply H. constructor.
Qed.

Lemma parse_media_ok (css : str) :
  Forall (λ m, query_ok (query m)) (mediaRules (parseCSSRules css)).
Proof.
  unfold parseCSSRules. cbv zeta. cbn [mediaRules]. unfold matchAll.
  set (text := remove commentRegex css).
  pose proof (scan_found
                (λ cs, ∃ q, cap cs 1 = Some q ∧ ("{"%char ∉ q))
                (length text) mediaRegex
                (λ t s' cs, media_captures (length text) t s' cs)
                (S (length text)) text) as Hfs.
  apply Forall_fmap. eapply Forall_impl; [exact Hfs|].
  intros f (q & Hq & Hb). unfold compose. cbn [query]. unfold group.
  rewrite Hq. cbn [default]. unfold id.
  split; [apply trim_tight|by apply trim_not_elem_of].
Qed.

(** Dictionaries keep what holds of their entries. *)
Lemma Forall_set {V} (P : str * V → Prop) (o : Obj.t V) k v :
  Forall P o → P (k, v) → Forall P (Obj.set o k v).
Proof.
  intros Ho Hkv. induction Ho as [|[k0 v0] o H0 Ho IH]; simpl.
  - by apply Forall_singleton.
  - destruct (Obj.eqb k0 k) eqn:E.
    + apply obj_eqb_true in E as ->. by constructor.
    + by constructor.
Qed.

Lemma Forall_get {V} (P : str * V → Prop) (o : Obj.t V) k v :
  Forall P o → Obj.get o k = Some v → P (k, v).
Proof.
  intros Ho. induction Ho as [|[k0 v0] o H0 _ IH]; simpl; [done|].
  destruct (Obj.eqb k0 k) eqn:E; [|done].
  apply obj_eqb_true in E as ->. by intros [= <-].
Qed.

Lemma Forall_delete {V} (P : str * V → Prop) (o : Obj.t V) k :
  Forall P o → Forall P (Obj.delete o k).
Proof.
  intros Ho. induction Ho as [|[k0 v0] o H0 Ho IH]; simpl; [done|].
  destruct (Obj.eqb k0 k); [done|by constructor].
Qed.

Lemma word_of_piece (x decl : str) :
  ":"%char ∉ x → (∀ a, a ∈ x → a ∈ decl) →
  ";"%char ∉ decl → "}"%char ∉ decl → Js.trim x ≠ [] →
  word_ok (Js.trim x).
Proof.
  intros Hc Hsub Hs Hb Hne. split_and!; [done|apply trim_tight|..];
    apply trim_not_elem_of; [done|by intros ?%Hsub..].
Qed.

Lemma add_decl_ok sel (g : grouping) decl :
  selector_ok sel → ";"%char ∉ decl → "}"%char ∉ decl →
  Forall group_ok g → Forall group_ok (add_decl sel g decl).
Proof.
  intros Hsel Hs Hb Hg. unfold add_decl.
  pose proof (split_pieces ":" decl) as Hp.
  destruct (Js.split ":" decl) as [|x [|y l]]; cbn [map]; [done| |].
  { by destruct (Js.trim x). }
  apply Forall_cons in Hp as [[Hx1 Hx2] Hp].
  apply Forall_cons in Hp as [[Hy1 Hy2] _].
  destruct (Js.trim x) as [|a p] eqn:Ex; [done|].
  destruct (Js.trim y) as [|b v] eqn:Ey; [done|].
  rewrite <- Ex, <- Ey.
  assert (word_ok (Js.trim x)) as Hwx.
  { apply (word_of_piece x decl); try done. by rewrite Ex. }
  assert (word_ok (Js.trim y)) as Hwy.
  { apply (word_of_piece y decl); try done. by rewrite Ey. }
  assert (decls_ok (default [] (Obj.get g sel))) as [Hnd Hd].
  { destruct (Obj.get g sel) as [d|] eqn:E; simpl.
    - by destruct (Forall_get _ _ _ _ Hg E).
    - split; [apply NoDup_nil_2|constructor]. }
  apply Forall_set; [done|]. split; [done|]. split.
  - by apply keys_set_NoDup.
  - by apply Forall_set.
Qed.

Lemma add_decls_ok sel ds : ∀ g : grouping,
  selector_ok sel →
  Forall (λ decl : str, (";"%char ∉ decl) ∧ ("}"%char ∉ decl)) ds →
  Forall group_ok g → Forall group_ok (foldl (add_decl sel) g ds).
Proof.
  induction ds as [|decl ds IH]; intros g Hsel Hds Hg; [exact Hg|].
  apply Forall_cons in Hds as [[Hd1 Hd2] Hds].
  cbn [foldl]. apply IH; [done|done|]. by apply add_decl_ok.
Qed.

Lemma add_rule_ok (g : grouping) r :
  rule_ok r → Forall group_ok g → Forall group_ok (add_rule g r).
Proof.
  intros [Hsel Hb] Hg. unfold add_rule. apply add_decls_ok; [done| |].
  - eapply Forall_impl; [apply (split_pieces ";" (declarations r))|].
    intros decl [Hd1 Hd2]. split; [done|]. intros Hin. by apply Hb, Hd2.
  - destruct (Obj.get g (selector r)); [done|].
    apply Forall_set; [done|]. split; [done|].
    split; [apply NoDup_nil_2|constructor].
Qed.

Lemma group_rules_ok rs : Forall rule_ok rs → groups_ok (group_rules rs).
Proof.
  intros Hrs. split; [apply group_rules_keys_NoDup|].
  unfold group_rules.
  assert (∀ g : grouping, Forall group_ok g →
            Forall group_ok (foldl add_rule g rs)) as H.
  { induction Hrs as [|r rs Hr _ IH]; intros g Hg; [exact Hg|].
    cbn [foldl]. apply IH. by apply add_rule_ok. }
  apply H. constructor.
Qed.

Lemma drop_unused_ok U (g : grouping) :
  groups_ok g → groups_ok (drop_unused U g).
Proof.
  intros [Hnd Hg]. split; [by apply drop_unused_keys_NoDup|].
  destruct U as [u|]; [|done]. simpl.
  generalize (Obj.keys g). intros ks. clear Hnd. revert g Hg.
  induction ks as [|k ks IH]; intros g Hg; [exact Hg|].
  cbn [foldl]. apply IH. destruct (unused u k); [|done].
  by apply Forall_delete.
Qed.

Lemma parsed_groups_ok U (css : str) :
  groups_ok (drop_unused U (group_rules (rules (parseCSSRules css)))).
Proof. apply drop_unused_ok, group_rules_ok, parse_rules_ok. Qed.

(** What the filter leaves is kept by the filter. *)
Lemma deletes_subseteq u ks : ∀ g : grouping,
  Obj.keys (foldl (λ g sel, if unused u sel then Obj.delete g sel else g)
                  g ks) ⊆ Obj.keys g.
Proof.
  induction ks as [|k ks IH]; intros g; [done|]. cbn [foldl].
  etrans; [apply IH|]. destruct (unused u k); [|done].
  apply keys_delete_subseteq.
Qed.

Lemma deletes_unused u sel ks : ∀ g : grouping,
  NoDup (Obj.keys g) → unused u sel = true → sel ∈ ks →
  sel ∉ Obj.keys (foldl (λ g sel, if unused u sel then Obj.delete g sel
                                  else g) g ks).
Proof.
  induction ks as [|k ks IH]; intros g Hnd Hu Hin.
  { by apply elem_of_nil in Hin. }
  cbn [foldl]. destruct (decide (sel = k)) as [<-|Hne].
  - rewrite Hu. intros H. apply deletes_subseteq in H.
    pose proof (get_delete_eq g sel Hnd) as Hd.
    by apply get_None_keys in Hd.
  - apply elem_of_cons in Hin as [?|Hin]; [done|].
    apply IH; [|done|done].
    destruct (unused u k); [by apply keys_delete_NoDup|done].
Qed.

Lemma drop_unused_kept U (g : grouping) :
  NoDup (Obj.keys g) → all_kept U (drop_unused U g).
Proof.
  intros Hnd. unfold all_kept. apply Forall_forall. intros [sel d] Hin.
  destruct U as [u|]; [|done]. cbn [fst deleted drop_unused] in *.
  destruct (unused u sel) eqn:E; [|done]. exfalso.
  assert (sel ∈ Obj.keys (foldl (λ g sel, if unused u sel
                                          then Obj.delete g sel else g)
                                g (Obj.keys g))) as Hk.
  { unfold Obj.keys at 1. apply list_elem_of_fmap. by exists (sel, d). }
  apply (deletes_unused u sel (Obj.keys g) g); [done|done| |done].
  by apply deletes_subseteq in Hk.
Qed.

(** The output of the optimizer is the text of its groups and blocks. *)
Lemma optimizeCSS_blocks (css : str) U :
  optimizeCSS css U = render (emitted css U) (blocks css U).
Proof.
  rewrite optimizeCSS_eq. unfold render, blocks. f_equal.
  induction (mediaRules (parseCSSRules css)) as [|m ms IH]; [done|].
  cbn [map concat omap list_omap]. rewrite IH, media_text_eq.
  destruct (media_emitted U m) as [|x g] eqn:E; [done|].
  cbn [map concat]. unfold block_text. cbn [fst snd].
  by rewrite <- !app_assoc.
Qed.

Lemma blocks_spec (css : str) U :
  blocks_ok (blocks css U) ∧ Forall (λ b, all_kept U (snd b)) (blocks css U).
Proof.
  unfold blocks_ok, blocks. pose proof (parse_media_ok css) as Hq.
  induction Hq as [|m ms Hm _ [IH1 IH2]]; [by split; constructor|].
  cbn [omap list_omap].
  pose proof (parsed_groups_ok U (content m)) as Hok.
  pose proof (drop_unused_kept U _
                (group_rules_keys_NoDup (rules (parseCSSRules (content m)))))
    as Hkept.
  fold (media_emitted U m) in Hok, Hkept.
  destruct (media_emitted U m) as [|x g]; [done|].
  split; constructor; done.
Qed.

(** On dictionaries of own properties: an output all of whose groups have
    a declaration and whose pieces contain neither [@media] nor the opening
    of a comment is optimized into itself. *)
Lemma plain_output_fixed (css : str)
    (U : option (gset str)) :
  plain_output css U = true →
  optimizeCSS (optimizeCSS css U) U = optimizeCSS css U.
Proof.
  intros [HG HB]%andb_true_iff. rewrite (optimizeCSS_blocks css U).
  destruct (blocks_spec css U) as [Hok Hkept].
  apply optimizeCSS_render; try done.
  - apply parsed_groups_ok.
  - apply drop_unused_kept, group_rules_keys_NoDup.
Qed.

End FirstPass.

(** ** More on the matcher: what a match consumes *)

Section MatchFacts.
Import Re ReLib Text Pattern.

Abbreviation cont := (str → caps → option outcome).
Abbreviation final := (λ (s' : str) (cs' : caps), Some (s', cs')).

(** A pattern that succeeds has let its continuation succeed on what was
    left of the text. *)
Lemma rmatch_inv (total : nat) (r : regex) :
  ∀ (s : str) (cs : caps) (k : cont) o,
    rmatch total r s cs k = Some o →
    ∃ s' cs', s' `suffix_of` s ∧ k s' cs' = Some o.
Proof.
  induction r as [| c | p | r1 IH1 r2 IH2 | r1 IH1 r2 IH2 | g r IH | n r IH
                 | r IH | |]; intros s cs k o; simpl.
  - intros H. by exists s, cs.
  - destruct s as [|a s]; [done|]. destruct (Ascii.eqb a c); [|done].
    intros H. exists s, cs. split; [by apply suffix_cons_r|done].
  - destruct s as [|a s]; [done|]. destruct (p a); [|done].
    intros H. exists s, cs. split; [by apply suffix_cons_r|done].
  - intros (s1 & cs1 & H1 & (s2 & cs2 & H2 & Hk)%IH2)%IH1.
    exists s2, cs2. split; [by etrans|done].
  - destruct (rmatch total r1 s cs k) eqn:E.
    + intros [= <-]. by eapply IH1.
    + apply IH2.
  - generalize (length s) at 1. intros fuel. revert s cs o.
    induction fuel as [|fuel IHf]; intros s cs o; simpl.
    { intros H. by exists s, cs. }
    assert (∀ o, rmatch total r s cs
              (λ s' cs', if length s' <? length s
                         then rep_loop (rmatch total r) g k fuel s' cs'
                         else None) = Some o →
            ∃ s' cs', s' `suffix_of` s ∧ k s' cs' = Some o) as Hmore.
    { intros o' (s1 & cs1 & H1 & Hk)%IH.
      destruct (length s1 <? length s); [|done].
      apply IHf in Hk as (s2 & cs2 & H2 & Hk).
      exists s2, cs2. split; [by etrans|done]. }
    destruct g.
    + destruct (rmatch total r s cs _) eqn:E.
      * intros [= <-]. by apply Hmore.
      * intros H. by exists s, cs.
    + destruct (k s cs) eqn:E.
      * intros [= <-]. by exists s, cs.
      * apply Hmore.
  - intros (s1 & cs1 & H1 & Hk)%IH. eauto.
  - destruct (rmatch total r s cs _) as [[? cs']|]; [|done].
    intros H. by exists s, cs'.
  - destruct (length s =? total); [|done]. intros H. by exists s, cs.
  - destruct s; [|done]. intros H. by exists [], cs.
Qed.

Lemma match_here_suffix total r (s s' : str) cs :
  match_here total r s = Some (s', cs) → s' `suffix_of` s.
Proof.
  intros (s1 & cs1 & H1 & [= <- <-])%rmatch_inv. done.
Qed.

Lemma take_suffix_diff (s s' : str) :
  s' `suffix_of` s → take (length s - length s') s ++ s' = s.
Proof.
  intros [pre ->]. rewrite length_app.
  replace (length pre + length s' - length s') with (length pre) by lia.
  by rewrite take_app_length.
Qed.

Lemma match_here_text total r (s s' : str) cs :
  match_here total r s = Some (s', cs) →
  s = take (length s - length s') s ++ s' ∧
  match_here total r (take (length s - length s') s ++ s') = Some (s', cs).
Proof.
  intros E. pose proof (match_here_suffix _ _ _ _ _ E) as Hs.
  by rewrite (take_suffix_diff _ _ Hs).
Qed.

(** A found match cuts the text in three, and the pattern matches where the
    matched text starts. *)
Lemma search_found_text total r (s : str) f :
  search total r s = Some f →
  s = skipped f ++ matched f ++ after f ∧
  match_here total r (matched f ++ after f) = Some (after f, groups f).
Proof.
  revert f. induction s as [|a s IH]; intros f; rewrite search_eq.
  - destruct (match_here total r []) as [[s' cs]|] eqn:E; [|done].
    intros [= <-]. by apply match_here_text in E.
  - destruct (match_here total r (a :: s)) as [[s' cs]|] eqn:E.
    + intros [= <-]. by apply match_here_text in E.
    + destruct (search total r s) as [f'|] eqn:E'; [|done].
      intros [= <-]. destruct (IH f' eq_refl) as [Hs Hm].
      cbn [skipped matched after groups]. split; [|done].
      cbn [app]. by rewrite <- Hs.
Qed.

(** The matches of a scan, with the texts they were found in. *)
Lemma scan_found_text (P : found → Prop) total r (s0 : str) :
  (∀ t f, t `suffix_of` s0 → search total r t = Some f → P f) →
  ∀ fuel (s : str), s `suffix_of` s0 →
    Forall P (fst (scan fuel total r s)).
Proof.
  intros HP. induction fuel as [|fuel IH]; intros s Hs; [by apply Forall_nil|].
  rewrite scan_S. destruct (search total r s) as [f|] eqn:E;
    [|by apply Forall_nil].
  assert (after f `suffix_of` s0) as Ha.
  { apply search_found_text in E as [E _]. etrans; [|exact Hs].
    exists (skipped f ++ matched f). by rewrite <- app_assoc. }
  specialize (IH (after f) Ha).
  destruct (scan fuel total r (after f)) as [fs tl].
  cbn [fst] in *. apply Forall_cons. split; [|done]. by apply (HP s).
Qed.

(** What a scan leaves is made of the characters of the text. *)
Lemma scan_subseteq total r : ∀ fuel (s : str) fs tl,
  scan fuel total r s = (fs, tl) →
  ∀ c, c ∈ concat (map skipped fs) ++ tl → c ∈ s.
Proof.
  induction fuel as [|fuel IH]; intros s fs tl.
  - intros [= <- <-] c. by rewrite app_nil_l.
  - rewrite scan_S. destruct (search total r s) as [f|] eqn:E.
    + destruct (scan fuel total r (after f)) as [fs' tl'] eqn:E'.
      intros [= <- <-] c. cbn [map concat]. rewrite <- app_assoc.
      apply search_found_text in E as [E _]. rewrite E.
      intros [H|H]%elem_of_app; rewrite !elem_of_app; [by left|].
      right. right. eapply IH; [exact E'|done].
    + intros [= <- <-] c. by rewrite app_nil_l.
Qed.

Lemma remove_subseteq r (s : str) c : c ∈ remove r s → c ∈ s.
Proof.
  unfold remove, matchAll.
  destruct (scan _ _ r s) as [fs tl] eqn:E. by eapply scan_subseteq.
Qed.

(** The subject's length only matters to [^]: a pattern that matches alike
    for two lengths is searched and scanned alike. *)
Lemma search_total total total' r :
  (∀ s : str, match_here total r s = match_here total' r s) →
  ∀ s : str, search total r s = search total' r s.
Proof.
  intros H. induction s as [|a s IH];
    rewrite (search_eq total), (search_eq total'), H; [done|].
  by rewrite IH.
Qed.

Lemma scan_total total total' r :
  (∀ s : str, match_here total r s = match_here total' r s) →
  ∀ fuel (s : str), scan fuel total r s = scan fuel total' r s.
Proof.
  intros H. induction fuel as [|fuel IH]; intros s; [done|].
  rewrite !scan_S, (search_total _ _ _ H).
  destruct (search total' r s) as [f|]; [|done]. by rewrite IH.
Qed.

Lemma search_progress total r (s : str) f :
  progress r → search total r s = Some f → length (after f) < length s.
Proof.
  intros Hp [Hs Hm%Hp]%search_found_text.
  rewrite Hs, !length_app in *. lia.
Qed.

(** When no match is empty, a scan started with more rounds than the text
    has characters never runs out of them. *)
Lemma scan_fuel total r :
  progress r →
  ∀ fuel fuel' (s : str),
    length s < fuel → length s < fuel' →
    scan fuel total r s = scan fuel' total r s.
Proof.
  intros Hp. induction fuel as [|fuel IH]; intros fuel' s H1 H2; [lia|].
  destruct fuel' as [|fuel']; [lia|]. rewrite !scan_S.
  destruct (search total r s) as [f|] eqn:E; [|done].
  pose proof (search_progress _ _ _ _ Hp E).
  rewrite (IH fuel' (after f)) by lia. done.
Qed.

(** The scan of a text whose first match is known. *)
Lemma matchAll_first total r (s : str) f :
  progress r → lengthless r →
  search total r s = Some f →
  matchAll r s =
  (f :: fst (matchAll r (after f)), snd (matchAll r (after f))).
Proof.
  intros Hp Ht E. unfold matchAll at 1.
  rewrite (scan_total _ total _ (Ht _ _)), scan_S, E.
  pose proof (search_progress _ _ _ _ Hp E).
  unfold matchAll.
  rewrite (scan_total (length (after f)) total _ (Ht _ _)).
  rewrite (scan_fuel total r Hp (length s) (S (length (after f)))) by lia.
  by destruct (scan _ total r (after f)).
Qed.

End MatchFacts.

(** ** The validator: what a dialect can draw *)

(** Unfolds the checks of one line into the pushes they make. *)
Ltac line_pushes ft :=
  unfold Validator.line_result, Validator.check_line;
  cbn [Validator.errors Validator.warnings];
  rewrite ?tag_condition_false, !push_if_app;
  destruct ft; cbn [Validator.fileType_eqb orb andb negb];
  cbn [foldl Validator.wrongEvents];
  rewrite ?(check_event_app _ _ (_ ++ _));
  unfold Validator.check_event.

(** Proves a property of every push, one push at a time. *)
Ltac each_push tac :=
  repeat match goal with
         | |- Forall _ (_ ++ _) => apply Forall_app; split
         | |- Forall _ [] => apply Forall_nil_2
         | |- Forall _ [_] => apply Forall_singleton; tac
         | |- Forall _ (if ?c then _ else _) => destruct c
         | |- Forall _ (match ?x with Some _ => _ | None => _ end) =>
             destruct x
         end.

Section ValidatorDialects.
Import Re ReLib Validator Report.

Lemma result_eta (r : result) : r = Result (errors r) (warnings r).
Proof. by destruct r. Qed.

Lemma concat_imap_nil_on {A B} (P : A → Prop) (f : nat → A → list B)
    (l : list A) :
  Forall P l → (∀ j x, P x → f j x = []) → concat (imap f l) = [].
Proof.
  intros Hl. revert f. induction Hl as [|x l Hx _ IH]; intros f Hf;
    cbn [imap concat]; [done|].
  rewrite Hf, IH; [done| |done]. intros j y. apply Hf.
Qed.

Lemma concat_imap_nil {A B} (f : nat → A → list B) (l : list A) :
  (∀ j x, f j x = []) → concat (imap f l) = [].
Proof.
  intros Hf. apply (concat_imap_nil_on (λ _, True)); [|by intros].
  by apply Forall_true.
Qed.

Lemma vue_line code index line :
  line_result code vue index line = Result [] [].
Proof.
  unfold line_result, check_line. cbn [errors warnings].
  rewrite tag_condition_false. reflexivity.
Qed.

Lemma vue_result (code : str) : validateSyntax code vue = Result [] [].
Proof.
  rewrite (result_eta (validateSyntax code vue)).
  rewrite validateSyntax_errors, validateSyntax_warnings.
  rewrite !concat_imap_nil; [done|..]; intros j l; by rewrite vue_line.
Qed.

(** X1: A Vue source draws no diagnostic at all. *)
Theorem vue_never_reported (code : str) :
  validateSyntax code vue = Result [] [].
Proof. apply vue_result. Qed.

Lemma line_error_types code ft index line :
  Forall (λ d, type d ∈ error_types ft)
         (errors (line_result code ft index line)).
Proof.
  line_pushes ft;
    each_push ltac:(cbn [type error_types]; repeat constructor).
Qed.

Lemma line_warning_types code ft index line :
  Forall (λ d, type d ∈ warning_types ft)
         (warnings (line_result code ft index line)).
Proof.
  line_pushes ft;
    each_push ltac:(cbn [type warning_types]; repeat constructor).
Qed.

(** X2: The types of the diagnostics that each dialect can draw. *)
Theorem diagnostic_types_by_dialect (code : str) (ft : fileType) :
  Forall (λ d, type d ∈ error_types ft) (errors (validateSyntax code ft)) ∧
  Forall (λ d, type d ∈ warning_types ft) (warnings (validateSyntax code ft)).
Proof.
  rewrite validateSyntax_errors, validateSyntax_warnings.
  split; apply Forall_concat, Forall_forall;
    intros ws (j & l & -> & _)%elem_of_lookup_imap.
  - apply line_error_types.
  - apply line_warning_types.
Qed.

(** *** Line numbers *)

Lemma line_error_lines code ft index l :
  Forall (λ d, Validator.line d = index + 1)
         (errors (line_result code ft index l)).
Proof. line_pushes ft; each_push ltac:(reflexivity). Qed.

Lemma line_warning_lines code ft index l :
  Forall (λ d, Validator.line d = index + 1 ∨
               (ft = php ∧ Validator.line d = 1))
         (warnings (line_result code ft index l)).
Proof.
  line_pushes ft;
    each_push ltac:(first [by left | by right]).
Qed.

(** The elements of the blocks of an indexed concatenation come in the
    order of the blocks. *)
Lemma concat_imap_ordered {A B} (key : B → nat) (l : list A) :
  ∀ (f : nat → A → list B) (off : nat),
    (∀ j x, Forall (λ d, key d = off + j) (f j x)) →
    Forall (λ d, off ≤ key d < off + length l) (concat (imap f l)) ∧
    ∀ i j di dj,
      concat (imap f l) !! i = Some di → concat (imap f l) !! j = Some dj →
      i ≤ j → key di ≤ key dj.
Proof.
  induction l as [|x l IH]; intros f off Hf; cbn [imap concat length].
  { split; [by apply Forall_nil|]. intros i j di dj H. done. }
  destruct (IH (f ∘ S) (S off)) as [IH1 IH2].
  { intros j y. eapply Forall_impl; [apply (Hf (S j) y)|].
    intros d. cbn beta. lia. }
  pose proof (Hf 0 x) as H0. split.
  - apply Forall_app. split.
    + eapply Forall_impl; [exact H0|]. intros d. cbn beta. lia.
    + eapply Forall_impl; [exact IH1|]. intros d. cbn beta. lia.
  - intros i j di dj Hi Hj Hij.
    apply lookup_app_Some in Hi as [Hi|[Hi1 Hi2]];
      apply lookup_app_Some in Hj as [Hj|[Hj1 Hj2]].
    + apply list_elem_of_lookup_2 in Hi, Hj.
      rewrite Forall_forall in H0.
      rewrite (H0 _ Hi), (H0 _ Hj). done.
    + apply list_elem_of_lookup_2 in Hi, Hj2.
      rewrite Forall_forall in H0, IH1.
      rewrite (H0 _ Hi). pose proof (IH1 _ Hj2). lia.
    + apply lookup_lt_Some in Hj. lia.
    + eapply IH2; [exact Hi2|exact Hj2|lia].
Qed.

(** X3: Every diagnostic is anchored at a line of the source, and the errors
    come in the order of the lines. *)
Theorem diagnostics_follow_lines (code : str) (ft : fileType) :
  let r := validateSyntax code ft in
  Forall (λ d, 1 ≤ Validator.line d ≤ length (Js.split "010" code))
         (errors r ++ warnings r) ∧
  ∀ i j di dj,
    errors r !! i = Some di → errors r !! j = Some dj → i ≤ j →
    Validator.line di ≤ Validator.line dj.
Proof.
  cbn zeta. rewrite validateSyntax_errors, validateSyntax_warnings.
  destruct (concat_imap_ordered Validator.line (Js.split "010" code)
              (λ j l, errors (line_result code ft j l)) 1) as [H1 H2].
  { intros j l. eapply Forall_impl; [apply line_error_lines|].
    intros d. cbn beta. lia. }
  split; [|exact H2]. apply Forall_app. split.
  - eapply Forall_impl; [exact H1|]. intros d. cbn beta. lia.
  - apply Forall_concat, Forall_forall.
    intros ws (j & l & -> & Hj)%elem_of_lookup_imap.
    apply lookup_lt_Some in Hj.
    eapply Forall_impl; [apply line_warning_lines|].
    intros d. cbn beta. lia.
Qed.

Lemma diagnostics_follow_lines_witness :
  errors (validateSyntax ("#a" ++ "010"%char :: "#b") js) !! 0
  = Some (Diag 1 "Wrong comment syntax: Use '//' or '/* */' instead of '#'"
            comment_t None) ∧
  errors (validateSyntax ("#a" ++ "010"%char :: "#b") js) !! 1
  = Some (Diag 2 "Wrong comment syntax: Use '//' or '/* */' instead of '#'"
            comment_t None) ∧
  0 ≤ 1 ∧ 1 ≤ 2.
Proof.
  split; [reflexivity|]. split; [reflexivity|]. split; [lia|].
  exact (proj2 (diagnostics_follow_lines ("#a" ++ "010"%char :: "#b") js)
           0 1 _ _ eq_refl eq_refl (Nat.le_0_l 1)).
Defined.

End ValidatorDialects.

(** ** The validator: blank sources *)

Section ValidatorBlank.
Import Re ReLib Validator Report.

Lemma trimStart_nil s : Js.trimStart s = [] → blank s.
Proof.
  induction s as [|c s IH]; simpl; [by constructor|].
  destruct (Js.is_space c) eqn:E; [|done].
  intros H. constructor; [done|by apply IH].
Qed.

Lemma blank_trimStart s : blank s → Js.trimStart s = [].
Proof.
  induction 1 as [|c s Hc _ IH]; simpl; [done|]. by rewrite Hc.
Qed.

Lemma blank_rev s : blank (rev s) ↔ blank s.
Proof.
  unfold blank. split; intros H; apply Forall_rev in H;
    by rewrite ?rev_involutive in H.
Qed.

Lemma trim_nil s : Js.trim s = [] ↔ blank s.
Proof.
  unfold Js.trim, Js.trimEnd. split.
  - intros H. apply trimStart_nil.
    apply (f_equal (@rev ascii)) in H. rewrite rev_involutive in H.
    simpl in H.
    apply trimStart_nil in H. apply (proj1 (blank_rev _)) in H.
    pose proof (trimStart_stops s) as Hs.
    destruct (Js.trimStart s) as [|c t]; [done|].
    apply Forall_cons in H as [H _]. simpl in Hs. congruence.
  - intros H. by rewrite (blank_trimStart s H).
Qed.

(** A text with a character that is not white space does not occur in a
    blank one. *)
Lemma blank_includes (s w : str) :
  blank s → existsb (λ c, negb (Js.is_space c)) w = true →
  Js.includes s w = false.
Proof.
  intros Hs (c & Hc & Hn)%existsb_exists.
  destruct (Js.includes s w) eqn:E; [|done].
  apply includes_app in E as (pre & post & ->).
  apply Forall_app in Hs as [_ Hs]. apply Forall_app in Hs as [Hs _].
  apply list_elem_of_In in Hc. rewrite Forall_forall in Hs.
  rewrite (Hs c Hc) in Hn. done.
Qed.

Lemma lower_char_space c :
  Js.is_space c = true → Js.is_space (Js.lower_char c) = true.
Proof.
  destruct c as [[] [] [] [] [] [] [] []]; intros H; try discriminate H;
    reflexivity.
Qed.

Lemma blank_toLowerCase s : blank s → blank (Js.toLowerCase s).
Proof.
  intros H. apply Forall_map. eapply Forall_impl; [exact H|].
  intros c. apply lower_char_space.
Qed.

Lemma blank_line code ft index l :
  blank l → Js.trim code = [] →
  line_result code ft index l = Result [] [].
Proof.
  intros Hl Hcode. unfold line_result, check_line. cbn [errors warnings].
  rewrite tag_condition_false, Hcode, (proj2 (trim_nil l) Hl).
  cbn [foldl wrongEvents]. unfold check_event.
  rewrite !(blank_includes l) by (assumption || reflexivity).
  rewrite !(blank_includes (Js.toLowerCase l))
    by (by apply blank_toLowerCase || reflexivity).
  destruct ft; cbn [fileType_eqb orb andb negb push_if];
    rewrite ?andb_false_r; reflexivity.
Qed.

Lemma split_blank c s : blank s → Forall blank (Js.split c s).
Proof.
  intros H. eapply Forall_impl; [apply split_pieces|].
  intros t [_ Ht]. apply Forall_forall. intros a Ha.
  unfold blank in H. rewrite Forall_forall in H. auto.
Qed.

(** X4: A blank source draws no diagnostic, in any dialect. *)
Theorem blank_source_clean (code : str) (ft : fileType) :
  Js.trim code = [] → validateSyntax code ft = Result [] [].
Proof.
  intros Hcode. pose proof (proj1 (trim_nil code) Hcode) as Hb.
  rewrite (result_eta (validateSyntax code ft)).
  rewrite validateSyntax_errors, validateSyntax_warnings.
  pose proof (split_blank "010" code Hb) as Hls.
  rewrite !(concat_imap_nil_on blank _ _ Hls); [done|..];
    intros j l Hl; by rewrite blank_line.
Qed.

Lemma blank_source_clean_witness :
  Js.trim ("  " ++ "010"%char :: " ") = [] ∧
  validateSyntax ("  " ++ "010"%char :: " ") php = Result [] [].
Proof.
  split; [reflexivity|].
  exact (blank_source_clean ("  " ++ "010"%char :: " ") php eq_refl).
Defined.

End ValidatorBlank.

(** ** The validator: sources put together *)

Section ValidatorConcat.
Import Re ReLib Validator Report.

Lemma split_nonempty c s : Js.split c s ≠ [].
Proof.
  induction s as [|a s IH]; simpl; [done|].
  destruct (Ascii.eqb a c); [done|]. by destruct (Js.split c s).
Qed.

(** The pieces of two texts joined by the separator. *)
Lemma split_app c (a b : str) :
  Js.split c (a ++ c :: b) = Js.split c a ++ Js.split c b.
Proof.
  induction a as [|x a IH]; cbn [app Js.split].
  - by rewrite (proj2 (Ascii.eqb_eq c c) eq_refl).
  - destruct (Ascii.eqb x c); [by rewrite IH|].
    rewrite IH. pose proof (split_nonempty c a).
    by destruct (Js.split c a).
Qed.

(** Proves that the pushes of a line are those of the same line met
    [n] lines earlier, moved down. *)
Ltac shift_pushes :=
  lazymatch goal with
  | |- _ ++ _ = map _ (_ ++ _) => rewrite map_app; f_equal; shift_pushes
  | |- (if ?c then _ else _) = map _ (if ?c then _ else _) =>
      destruct c; shift_pushes
  | |- match ?x with Some _ => _ | None => _ end
       = map _ (match ?x with Some _ => _ | None => _ end) =>
      destruct x; shift_pushes
  | |- [] = map _ [] => reflexivity
  | |- [_] = map _ [_] =>
      cbn [map]; unfold shift;
      cbn [Validator.line message type suggestion]; do 2 f_equal; lia
  end.

Lemma line_errors_shift code code' ft n j l :
  errors (line_result code ft (n + j) l)
  = map (shift n) (errors (line_result code' ft j l)).
Proof. line_pushes ft; shift_pushes. Qed.

Lemma line_warnings_shift code code' ft n j l :
  ft ≠ php →
  warnings (line_result code ft (n + j) l)
  = map (shift n) (warnings (line_result code' ft j l)).
Proof. intros Hft. line_pushes ft; try done; shift_pushes. Qed.

Lemma line_errors_code code code' ft j l :
  errors (line_result code ft j l) = errors (line_result code' ft j l).
Proof. reflexivity. Qed.

Lemma line_warnings_code code code' ft j l :
  ft ≠ php →
  warnings (line_result code ft j l) = warnings (line_result code' ft j l).
Proof. intros Hft. by destruct ft. Qed.

Lemma concat_imap_map {A B C} (g : B → C) (f : nat → A → list B)
    (l : list A) :
  concat (imap (λ j x, map g (f j x)) l) = map g (concat (imap f l)).
Proof.
  revert f. induction l as [|x l IH]; intros f; cbn [imap concat]; [done|].
  rewrite map_app. f_equal. apply (IH (f ∘ S)).
Qed.

(** X5: The diagnostics of two sources joined by a line break are those of
    the first one followed by those of the second one, moved down by the
    number of lines of the first (for the warnings, outside PHP, whose tag
    check reads the whole source). *)
Theorem validate_joined_sources (a b : str) (ft : fileType) :
  let joined := a ++ "010"%char :: b in
  let n := length (Js.split "010" a) in
  errors (validateSyntax joined ft)
  = errors (validateSyntax a ft)
    ++ map (shift n) (errors (validateSyntax b ft)) ∧
  (ft ≠ php →
   warnings (validateSyntax joined ft)
   = warnings (validateSyntax a ft)
     ++ map (shift n) (warnings (validateSyntax b ft))).
Proof.
  cbn zeta. rewrite !validateSyntax_errors, !validateSyntax_warnings.
  rewrite split_app, !imap_app, !concat_app, <- !concat_imap_map.
  split; [|intros Hft];
    (apply (f_equal2 app); apply (f_equal (@concat diag)), imap_ext;
     intros j l _).
  - apply line_errors_code.
  - apply line_errors_shift.
  - by apply line_warnings_code.
  - by apply line_warnings_shift.
Qed.

Lemma validate_joined_sources_witness :
  js ≠ php ∧
  warnings (validateSyntax ("#x" ++ "010"%char :: "const y = 1") js)
  = warnings (validateSyntax "#x" js)
    ++ map (shift (length (Js.split "010" "#x")))
         (warnings (validateSyntax "const y = 1" js)).
Proof.
  assert (H : js ≠ php) by discriminate. split; [exact H|].
  exact (proj2 (validate_joined_sources "#x" "const y = 1" js) H).
Defined.

End ValidatorConcat.

(** ** The validator: single checks *)

(** As [each_push], keeping the test of every push as an equation. *)
Ltac each_push_eq tac :=
  repeat match goal with
         | |- Forall _ (_ ++ _) => apply Forall_app; split
         | |- Forall _ [] => apply Forall_nil_2
         | |- Forall _ [_] => apply Forall_singleton; tac
         | |- Forall _ (if ?c then _ else _) => destruct c eqn:?
         | |- Forall _ (match ?x with Some _ => _ | None => _ end) =>
             destruct x eqn:?
         end.

(** Finds a push among the pushes of a line. *)
Ltac find_push :=
  first [ apply list_elem_of_singleton; reflexivity
        | apply elem_of_app; first [left; find_push | right; find_push]
        | match goal with
          | |- _ ∈ (if ?c then _ else _) => destruct c; find_push
          | |- _ ∈ (match ?x with Some _ => _ | None => _ end) =>
              destruct x; find_push
          end ].

Section ValidatorChecks.
Import Re ReLib Validator Report.

Lemma elem_of_errors code ft d :
  d ∈ errors (validateSyntax code ft) ↔
  ∃ j l, Js.split "010" code !! j = Some l ∧
         d ∈ errors (line_result code ft j l).
Proof.
  rewrite validateSyntax_errors, elem_of_concat. split.
  - intros (es & (j & l & -> & Hj)%elem_of_lookup_imap & Hin). eauto.
  - intros (j & l & Hj & Hin). eexists. split; [|exact Hin].
    apply elem_of_lookup_imap. eauto.
Qed.


Lemma elem_of_Forall_eq {A} (P : Prop) (x : A) (l : list A) :
  Forall (λ d, d = x → P) l → x ∈ l → P.
Proof. rewrite Forall_forall. intros H Hx. by apply (H x). Qed.

(** *** The [#] comments *)

Lemma trimStart_split s : ∃ ws, blank ws ∧ s = ws ++ Js.trimStart s.
Proof.
  induction s as [|c s (ws & Hws & IH)]; simpl.
  - exists []. split; [constructor|done].
  - destruct (Js.is_space c) eqn:E.
    + exists (c :: ws). split; [by constructor|]. cbn [app]. by f_equal.
    + exists []. split; [constructor|done].
Qed.

Lemma trimEnd_split s : ∃ sp, blank sp ∧ s = Js.trimEnd s ++ sp.
Proof.
  unfold Js.trimEnd. destruct (trimStart_split (rev s)) as (ws & Hws & H).
  exists (rev ws). split; [by apply blank_rev|].
  apply (f_equal (@rev ascii)) in H.
  by rewrite rev_involutive, rev_app_distr in H.
Qed.

Lemma trimStart_blank_app ws c s :
  blank ws → Js.is_space c = false → Js.trimStart (ws ++ c :: s) = c :: s.
Proof.
  intros Hws Hc. induction Hws as [|a ws Ha _ IH]; simpl.
  - by rewrite Hc.
  - by rewrite Ha.
Qed.

(** Trimming the end does not change how a text starts, as far as words
    without white space go. *)
Lemma trimEnd_startsWith s w :
  Forall (λ c, Js.is_space c = false) w →
  Js.startsWith (Js.trimEnd s) w = Js.startsWith s w.
Proof.
  intros Hw. destruct (trimEnd_split s) as (sp & Hsp & Hs).
  destruct (Js.startsWith s w) eqn:E.
  - apply startsWith_app in E as [u Hu]. apply startsWith_app.
    destruct (prefix_weak_total w (Js.trimEnd s) s) as [[v Hv]|[v Hv]].
    + by exists u.
    + by exists sp.
    + by exists v.
    + destruct v as [|a v]; [exists []; by rewrite Hv, !app_nil_r|].
      exfalso. rewrite Hs in Hu at 1. rewrite Hv, <- app_assoc in Hu.
      apply app_inv_head in Hu. rewrite Hu in Hsp.
      apply Forall_cons in Hsp as [Ha _].
      rewrite Hv in Hw. apply Forall_app in Hw as [_ Hw].
      apply Forall_cons in Hw as [Ha' _]. congruence.
  - destruct (Js.startsWith (Js.trimEnd s) w) eqn:E'; [|done].
    apply startsWith_app in E' as [u Hu].
    rewrite (proj2 (startsWith_app s w)) in E; [done|].
    exists (u ++ sp). by rewrite Hs, Hu, <- app_assoc.
Qed.

Lemma trim_startsWith s w :
  Forall (λ c, Js.is_space c = false) w →
  Js.startsWith (Js.trim s) w = Js.startsWith (Js.trimStart s) w.
Proof. apply trimEnd_startsWith. Qed.

(** The test of the [#] check, read on the line itself. *)
Lemma hash_test l :
  Js.startsWith (Js.trim l) "#" && negb (Js.startsWith (Js.trim l) "#!/")
  = true ↔
  ∃ ws rest, blank ws ∧ l = ws ++ "#" ++ rest ∧
             Js.startsWith rest "!/" = false.
Proof.
  rewrite !trim_startsWith by (repeat constructor).
  rewrite andb_true_iff, negb_true_iff. split.
  - intros [[rest Hr]%startsWith_app H].
    destruct (trimStart_split l) as (ws & Hws & Hl).
    exists ws, rest. rewrite Hr in Hl, H. done.
  - intros (ws & rest & Hws & -> & H).
    change ("#" ++ rest) with ("#"%char :: rest).
    rewrite trimStart_blank_app by done. done.
Qed.

Lemma hash_error_in_line code ft n index l :
  script ft = true →
  hash_error n ∈ errors (line_result code ft index l) ↔
  n = index + 1 ∧
  Js.startsWith (Js.trim l) "#" && negb (Js.startsWith (Js.trim l) "#!/")
  = true.
Proof.
  intros Hft. split.
  - apply elem_of_Forall_eq.
    line_pushes ft; try discriminate Hft;
      each_push_eq ltac:(
        let H := fresh in
        intros H; first [exfalso; diag_neq H
                        | split; [exact (eq_sym (f_equal Validator.line H))
                                 | assumption ]]).
  - intros [-> Hc].
    line_pushes ft; try discriminate Hft; rewrite Hc; find_push.
Qed.

(** X6: In the script dialects a line is reported for a wrong [#] comment
    exactly when its first character that is not white space is a [#]
    that does not open [#!/]. *)
Theorem hash_comment_reported (code : str) (ft : fileType) (index : nat)
    (l : str) :
  script ft = true →
  Js.split "010" code !! index = Some l →
  hash_error (index + 1) ∈ errors (validateSyntax code ft) ↔
  ∃ ws rest, blank ws ∧ l = ws ++ "#" ++ rest ∧
             Js.startsWith rest "!/" = false.
Proof.
  intros Hft Hl. rewrite <- hash_test, elem_of_errors. split.
  - intros (j & l' & Hj & Hin).
    apply hash_error_in_line in Hin as [Hidx Hc]; [|done].
    assert (j = index) as -> by lia. by simplify_eq.
  - intros Hc. exists index, l. split; [done|].
    by apply hash_error_in_line.
Qed.

Lemma hash_comment_reported_witness :
  script js = true ∧
  Js.split "010" "  #x" !! 0 = Some ("  #x" : str) ∧
  (hash_error (0 + 1) ∈ errors (validateSyntax "  #x" js) ↔
   ∃ ws rest, blank ws ∧ ("  #x" : str) = ws ++ "#" ++ rest ∧
              Js.startsWith rest "!/" = false).
Proof.
  split; [reflexivity|]. split; [reflexivity|].
  exact (hash_comment_reported "  #x" js 0 "  #x" eq_refl eq_refl).
Defined.

End ValidatorChecks.

Section ValidatorSuggestion.
Import Re ReLib Validator Report.

Abbreviation final := (λ (s' : str) (cs' : caps), Some (s', cs')).

(** *** The suggestion of the [class] check *)

Lemma one_of_elem_of (cs : str) c : one_of cs c = true ↔ c ∈ cs.
Proof.
  unfold one_of. rewrite existsb_exists. split.
  - intros (x & Hx%list_elem_of_In & ->%Ascii.eqb_eq). done.
  - intros H. exists c. split; [by apply list_elem_of_In|].
    by apply Ascii.eqb_eq.
Qed.

Lemma none_of_run (cs : str) (run : str) :
  Forall (λ a, none_of cs a = true) run → ∀ c, c ∈ cs → c ∉ run.
Proof. intros H c Hc. by eapply run_not_elem_of. Qed.

(** What the pattern of the [class] attribute matches. *)
Lemma classAttr_match total (t s' : str) cs :
  match_here total classAttr t = Some (s', cs) →
  ∃ q1 v q2, t = "class=" ++ q1 :: v ++ q2 :: s' ∧
             q1 ∈ [dquote; squote] ∧ q2 ∈ [dquote; squote] ∧
             (dquote ∉ v) ∧ (squote ∉ v).
Proof.
  unfold match_here, classAttr. cbn [Seq].
  rewrite rmatch_Cat, rmatch_Word.
  destruct (Js.startsWith t "class=") eqn:E; [|done].
  apply startsWith_app in E as [t1 ->].
  rewrite drop_app_length. unfold quote at 1. rewrite rmatch_Cat.
  intros (q1 & t2 & -> & Hq1 & H)%rmatch_Cls_inv.
  unfold unquoted in H. rewrite rmatch_Cat in H.
  apply rep_cls_inv in H as (v & rest & -> & Hv & H).
  apply rmatch_Cls_inv in H as (q2 & s2 & -> & Hq2 & [= <- <-]).
  exists q1, v, q2. rewrite !one_of_elem_of in *.
  split_and!; [done..| |]; eapply none_of_run; try exact Hv; set_solver.
Qed.

Lemma replace_eq (s pat rep : str) :
  Js.replace s pat rep =
  if Js.startsWith s pat then rep ++ drop (length pat) s
  else match s with
       | [] => []
       | a :: s' => a :: Js.replace s' pat rep
       end.
Proof. by destruct s. Qed.

Lemma replace_prefix (pat rep s : str) :
  Js.replace (pat ++ s) pat rep = rep ++ s.
Proof.
  rewrite replace_eq.
  rewrite (proj2 (startsWith_app (pat ++ s) pat)) by by exists s.
  by rewrite drop_app_length.
Qed.

Lemma line_suggestions code ft index l :
  Forall (λ d, ∀ s, suggestion d = Some s →
            component ft = true ∧ Validator.line d = index + 1 ∧
            Js.includes l "className=" = false ∧
            ∃ m, exec classAttr l = Some m ∧
                 s = Js.replace (matched m) "class=" "className=")
         (errors (line_result code ft index l)).
Proof.
  line_pushes ft;
    each_push_eq ltac:(
      let H := fresh in
      intros ? H; first [discriminate H | injection H as <-];
      match goal with
      | H : _ && negb _ = true |- _ =>
          apply andb_true_iff in H as [_ H]; apply negb_true_iff in H
      end; eauto 10).
Qed.

(** X7: The suggestion of an error is the [class] attribute of its line,
    quotes and value, under the name [className]; only the component
    dialects, and only lines without [className=], draw one. *)
Theorem class_suggestion_renames_attribute (code : str) (ft : fileType)
    (d : diag) (s : str) :
  d ∈ errors (validateSyntax code ft) → suggestion d = Some s →
  component ft = true ∧
  ∃ l q1 v q2,
    Js.split "010" code !! (Validator.line d - 1) = Some l ∧
    q1 ∈ [dquote; squote] ∧ q2 ∈ [dquote; squote] ∧
    (dquote ∉ v) ∧ (squote ∉ v) ∧
    s = "className=" ++ q1 :: v ++ [q2] ∧
    Js.includes l ("class=" ++ q1 :: v ++ [q2]) = true ∧
    Js.includes l "className=" = false.
Proof.
  intros (j & l & Hj & Hin)%elem_of_errors Hs.
  pose proof (line_suggestions code ft j l) as HF.
  rewrite Forall_forall in HF.
  destruct (HF d Hin s Hs) as (Hft & Hline & Hcn & m & Hm & ->).
  split; [done|].
  apply search_found_text in Hm as [Hl Hm].
  apply classAttr_match in Hm as (q1 & v & q2 & Ht & Hq1 & Hq2 & Hv1 & Hv2).
  assert (matched m = "class=" ++ q1 :: v ++ [q2]) as Hmt.
  { apply (app_inv_tail (after m)). rewrite Ht.
    rewrite <- (app_assoc "class="). cbn [app].
    by rewrite <- (app_assoc v). }
  exists l, q1, v, q2. rewrite Hline.
  replace (j + 1 - 1) with j by lia.
  split_and!; try done.
  - by rewrite Hmt, replace_prefix.
  - apply includes_app. exists (skipped m), (after m). by rewrite <- Hmt.
Qed.

Lemma class_suggestion_renames_attribute_witness :
  let code : str := "<p class=" ++ dq ++ "a" ++ dq ++ ">" in
  let s : str := "className=" ++ dq ++ "a" ++ dq in
  let d := Diag 1 "Use 'className' instead of 'class' in JSX" attribute_t
             (Some s) in
  d ∈ errors (validateSyntax code jsx) ∧ suggestion d = Some s ∧
  component jsx = true ∧
  ∃ l q1 v q2,
    Js.split "010" code !! (Validator.line d - 1) = Some l ∧
    q1 ∈ [dquote; squote] ∧ q2 ∈ [dquote; squote] ∧
    (dquote ∉ v) ∧ (squote ∉ v) ∧
    s = "className=" ++ q1 :: v ++ [q2] ∧
    Js.includes l ("class=" ++ q1 :: v ++ [q2]) = true ∧
    Js.includes l "className=" = false.
Proof.
  cbv zeta.
  assert (H : Diag 1 "Use 'className' instead of 'class' in JSX" attribute_t
                (Some ("className=" ++ dq ++ "a" ++ dq))
              ∈ errors (validateSyntax ("<p class=" ++ dq ++ "a" ++ dq ++ ">")
                          jsx)).
  { apply list_elem_of_singleton. reflexivity. }
  split; [exact H|]. split; [reflexivity|].
  exact (class_suggestion_renames_attribute _ jsx _ _ H eq_refl).
Defined.

End ValidatorSuggestion.

Section ValidatorStatement.
Import Re ReLib Validator Report.

Abbreviation cont := (str → caps → option outcome).
Abbreviation final := (λ (s' : str) (cs' : caps), Some (s', cs')).

(** *** The semicolon check *)



Lemma rep1_cls_inv_ne total g p (s : str) cs (k : cont) o :
  rmatch total (Rep1 g (Cls p)) s cs k = Some o →
  ∃ run rest, s = run ++ rest ∧ run ≠ [] ∧
              Forall (λ c, p c = true) run ∧ k rest cs = Some o.
Proof.
  unfold Rep1. rewrite rmatch_Cat.
  intros (c & s' & -> & Hc & H)%rmatch_Cls_inv.
  apply rep_cls_inv in H as (run & rest & -> & Hrun & H).
  exists (c :: run), rest. split_and!; try done. by constructor.
Qed.

(** A repetition of a class succeeds as soon as the rest of the pattern
    succeeds after some run of the class. *)
Lemma rep_cls_some total g p (run rest : str) cs (k : cont) :
  Forall (λ c, p c = true) run → is_Some (k rest cs) →
  is_Some (rmatch total (Rep g (Cls p)) (run ++ rest) cs k).
Proof.
  intros Hrun Hk. induction Hrun as [|c run Hc _ IH]; cbn [app].
  - rewrite rep_unfold. cbn zeta. destruct g.
    + destruct (rmatch total (Cls p) rest cs _); [by eauto|done].
    + destruct Hk as [o ->]. by eauto.
  - rewrite rep_cls_cons by done. destruct g.
    + destruct IH as [o ->]. by eauto.
    + destruct (k (c :: run ++ rest) cs); [by eauto|done].
Qed.




(** What follows the opening word in a statement. *)
Abbreviation statement_tail :=
  (Cat (Rep1 true ws)
     (Cat (Rep1 true dot) (Cat (Cls (none_of ";{}[]")) Eos))).


Lemma none_of_not_elem_of (cs : str) c : none_of cs c = true ↔ c ∉ cs.
Proof.
  unfold none_of. rewrite negb_true_iff, <- one_of_elem_of.
  by destruct (one_of cs c).
Qed.










End ValidatorStatement.

(** ** The optimizer: texts without rules *)

Section CssEmpty.
Import Re ReLib Text Css.

Abbreviation final := (λ (s' : str) (cs' : caps), Some (s', cs')).

Lemma media_needs_brace total (s : str) :
  "{"%char ∉ s → match_here total mediaRegex s = None.
Proof.
  intros H. unfold match_here, mediaRegex. cbn [Seq].
  do 4 (apply rmatch_cat_none; intros ? ? ?).
  rewrite rmatch_Cat. apply rmatch_lit_none.
  repeat (eapply suffix_not_elem_of; [eassumption|]). exact H.
Qed.

Lemma rule_needs_brace total (s : str) :
  "{"%char ∉ s → match_here total ruleRegex s = None.
Proof.
  intros H. unfold match_here, ruleRegex. cbn [Seq].
  apply rmatch_cat_none; intros ? ? ?.
  rewrite rmatch_Cat. apply rmatch_lit_none.
  by eapply suffix_not_elem_of.
Qed.

(** X9: A text without [{], the empty text for one, has no rule and no
    media block, and is optimized to the empty text. *)
Theorem optimize_without_brace (css : str) (U : option (gset str)) :
  "{"%char ∉ css →
  parseCSSRules css = Parsed [] [] ∧ optimizeCSS css U = [].
Proof.
  intros H.
  assert ("{"%char ∉ remove commentRegex css) as H1.
  { intros Hin. by apply remove_subseteq in Hin. }
  assert (parseCSSRules css = Parsed [] []) as Hp.
  { unfold parseCSSRules.
    rewrite (matchAll_none mediaRegex), (remove_none mediaRegex).
    - rewrite (matchAll_none ruleRegex); [done|].
      intros t Ht. apply rule_needs_brace. by eapply suffix_not_elem_of.
    - intros t Ht. apply media_needs_brace. by eapply suffix_not_elem_of.
    - intros t Ht. apply media_needs_brace. by eapply suffix_not_elem_of. }
  split; [done|]. unfold optimizeCSS. rewrite Hp. by destruct U.
Qed.

Lemma optimize_without_brace_witness :
  ("{"%char ∉ ("a:b;" : str)) ∧
  parseCSSRules "a:b;" = Parsed [] [] ∧ optimizeCSS "a:b;" None = [].
Proof.
  assert (H : "{"%char ∉ ("a:b;" : str)).
  { intros H. apply list_elem_of_In in H. simpl in H.
    intuition discriminate. }
  split; [exact H|]. exact (optimize_without_brace "a:b;" None H).
Defined.

End CssEmpty.

(** ** The optimizer: the filter of the used classes *)

Section CssFilter.
Import Re ReLib Text Css.

Lemma filter_all {A} (f : A → bool) (l : list A) :
  (∀ x, x ∈ l → f x = true) → List.filter f l = l.
Proof.
  induction l as [|x l IH]; intros H; simpl; [done|].
  rewrite (H x) by set_solver. f_equal. apply IH. set_solver.
Qed.

Lemma filter_filter {A} (f g : A → bool) (l : list A) :
  List.filter f (List.filter g l) = List.filter (λ x, g x && f x) l.
Proof.
  induction l as [|x l IH]; simpl; [done|].
  destruct (g x); simpl; [|done]. destruct (f x); by rewrite IH.
Qed.

Lemma filter_ext_elem {A} (f g : A → bool) (l : list A) :
  (∀ x, x ∈ l → f x = g x) → List.filter f l = List.filter g l.
Proof.
  intros H. apply List.filter_ext_in. intros x Hx. apply H.
  by apply list_elem_of_In.
Qed.

(** Deleting a property filters it out. *)
Lemma delete_filter {V} (o : Obj.t V) k :
  NoDup (Obj.keys o) →
  Obj.delete o k = List.filter (λ kv, negb (Obj.eqb (fst kv) k)) o.
Proof.
  induction o as [|[k' v] o IH]; intros Hnd; simpl; [done|].
  apply NoDup_cons in Hnd as [Hk' Hnd].
  destruct (Obj.eqb k' k) eqn:E; simpl.
  - apply obj_eqb_true in E as ->. symmetry. apply filter_all.
    intros [k1 v1] Hin. simpl. apply negb_true_iff, obj_eqb_ne.
    intros ->. apply Hk'. apply list_elem_of_fmap. by exists (k, v1).
  - by rewrite IH.
Qed.

(** The loop of the deletions keeps the groups that are not unused. *)
Lemma deletes_filter u ks : ∀ g : grouping,
  NoDup (Obj.keys g) →
  foldl (λ g sel, if unused u sel then Obj.delete g sel else g) g ks
  = List.filter
      (λ sd, negb (unused u (fst sd) && bool_decide (fst sd ∈ ks))) g.
Proof.
  induction ks as [|k ks IH]; intros g Hnd; cbn [foldl].
  - symmetry. apply filter_all. intros x _.
    rewrite bool_decide_eq_false_2 by apply not_elem_of_nil.
    by rewrite andb_false_r.
  - rewrite IH by (destruct (unused u k); [by apply keys_delete_NoDup|done]).
    destruct (unused u k) eqn:E.
    + rewrite delete_filter, filter_filter by done.
      apply filter_ext_elem. intros [k1 v1] _. cbn [fst].
      destruct (decide (k1 = k)) as [->|Hne].
      * rewrite obj_eqb_refl, E.
        rewrite (bool_decide_eq_true_2 (k ∈ k :: ks)) by set_solver. done.
      * rewrite obj_eqb_ne by done. cbn [negb andb].
        do 2 f_equal. apply bool_decide_ext. set_solver.
    + apply filter_ext_elem. intros [k1 v1] _. cbn [fst].
      destruct (decide (k1 = k)) as [->|Hne].
      * by rewrite E.
      * do 2 f_equal. apply bool_decide_ext. set_solver.
Qed.

Lemma drop_unused_filter (u : gset str) (g : grouping) :
  NoDup (Obj.keys g) →
  drop_unused (Some u) g = List.filter (λ sd, negb (unused u (fst sd))) g.
Proof.
  intros Hnd. unfold drop_unused. rewrite deletes_filter by done.
  apply filter_ext_elem. intros [k v] Hin. cbn [fst].
  rewrite bool_decide_eq_true_2; [by rewrite andb_true_r|].
  apply list_elem_of_fmap. by exists (k, v).
Qed.

(** X10: With a set of used classes, the groups that stay are those whose
    selector the test of line 216 to 218 does not find unused, in their
    order and with their declarations; at the top level and in every media
    block. *)
Theorem filter_keeps_the_used (css : str) (u : gset str) :
  emitted css (Some u)
  = List.filter (λ sd, negb (unused u (fst sd))) (merged css) ∧
  ∀ m, media_emitted (Some u) m
       = List.filter (λ sd, negb (unused u (fst sd))) (media_merged m).
Proof.
  split; [|intros m]; apply drop_unused_filter, group_rules_keys_NoDup.
Qed.

(** A selector that is unused for a set of classes is unused for every
    smaller one. *)
Lemma unused_mono (u u' : gset str) sel :
  u ⊆ u' → unused u' sel = true → unused u sel = true.
Proof.
  intros Hsub. unfold unused. destruct (class_tokens sel) as [cls|]; [|done].
  rewrite !andb_true_iff. intros [H ?]. split; [|done].
  apply existsb_exists in H as (c & Hc & H). apply existsb_exists.
  exists c. split; [done|]. apply negb_true_iff in H. apply negb_true_iff.
  apply bool_decide_eq_false in H. apply bool_decide_eq_false. set_solver.
Qed.

Lemma filter_sublist {A} (f g : A → bool) (l : list A) :
  (∀ x, f x = true → g x = true) →
  List.filter f l `sublist_of` List.filter g l.
Proof.
  intros H. induction l as [|x l IH]; simpl; [done|].
  destruct (f x) eqn:E.
  - rewrite (H x E). by apply sublist_skip.
  - destruct (g x); [by apply sublist_cons|done].
Qed.

Lemma filter_sublist_all {A} (f : A → bool) (l : list A) :
  List.filter f l `sublist_of` l.
Proof.
  induction l as [|x l IH]; simpl; [done|].
  destruct (f x); [by apply sublist_skip|by apply sublist_cons].
Qed.

Lemma drop_unused_mono (u u' : gset str) (g : grouping) :
  NoDup (Obj.keys g) → u ⊆ u' →
  drop_unused (Some u) g `sublist_of` drop_unused (Some u') g ∧
  drop_unused (Some u') g `sublist_of` drop_unused None g.
Proof.
  intros Hnd Hsub. rewrite !drop_unused_filter by done. split.
  - apply filter_sublist. intros [k v]. cbn [fst].
    rewrite !negb_true_iff. intros H.
    destruct (unused u' k) eqn:E; [|done].
    by rewrite (unused_mono u u' k Hsub E) in H.
  - apply filter_sublist_all.
Qed.

(** X11: More used classes keep more: the groups that stay for a set of used
    classes stay, in the same order, for every larger set, and all of them
    are groups that are written when no set is given; at the top level and
    in every media block. *)
Theorem more_classes_keep_more (css : str) (u u' : gset str) :
  u ⊆ u' →
  (emitted css (Some u) `sublist_of` emitted css (Some u') ∧
   emitted css (Some u') `sublist_of` emitted css None) ∧
  ∀ m, media_emitted (Some u) m `sublist_of` media_emitted (Some u') m ∧
       media_emitted (Some u') m `sublist_of` media_emitted None m.
Proof.
  intros Hsub. split; [|intros m];
    by apply drop_unused_mono; [apply group_rules_keys_NoDup|].
Qed.

Lemma more_classes_keep_more_witness :
  ({["a" : str]} : gset str) ⊆ {["a" : str; "b" : str]} ∧
  emitted ".a{x:y}.b{z:w}" (Some {["a" : str]})
    `sublist_of` emitted ".a{x:y}.b{z:w}" (Some {["a" : str; "b" : str]}) ∧
  emitted ".a{x:y}.b{z:w}" (Some {["a" : str; "b" : str]})
    `sublist_of` emitted ".a{x:y}.b{z:w}" None.
Proof.
  assert (H : ({["a" : str]} : gset str) ⊆ {["a" : str; "b" : str]})
    by set_solver.
  split; [exact H|].
  exact (proj1 (more_classes_keep_more ".a{x:y}.b{z:w}" _ _ H)).
Defined.

End CssFilter.

(** ** The parser: comments *)

Section CssComments.
Import Re ReLib Text Css Pattern.

Abbreviation cont := (str → caps → option outcome).
Abbreviation final := (λ (s' : str) (cs' : caps), Some (s', cs')).

Lemma comment_lengthless : lengthless commentRegex.
Proof. intros total total' t. reflexivity. Qed.

Lemma comment_progress : progress commentRegex.
Proof.
  intros total t s' cs. unfold match_here, commentRegex. cbn [Seq].
  rewrite rmatch_Cat.
  intros (t1 & -> & (s1 & cs1 & Hs & [= <- <-])%rmatch_inv)%rmatch_Lit_inv.
  apply suffix_length in Hs. simpl. lia.
Qed.

(** Where nothing of the text [pre] starts a match, the matches of
    [pre ++ s] are those of [s]. *)
Lemma remove_skip r (pre s : str) :
  progress r → lengthless r →
  (∀ total t, t ≠ [] → t `suffix_of` pre →
              match_here total r (t ++ s) = None) →
  remove r (pre ++ s) = pre ++ remove r s.
Proof.
  intros Hp Ht Hpre. unfold remove.
  pose proof (search_skip (length s) r pre s (Hpre _)) as Hs.
  destruct (search (length s) r s) as [f|] eqn:E.
  - rewrite (matchAll_first (length s) r (pre ++ s) _ Hp Ht Hs).
    rewrite (matchAll_first (length s) r s _ Hp Ht E).
    cbn [after skipped map concat].
    destruct (matchAll r (after f)) as [fs tl]. cbn [fst snd map concat].
    by rewrite <- !app_assoc.
  - unfold matchAll. rewrite !scan_S.
    rewrite (search_total _ (length s) r (Ht _ _)), Hs.
    by rewrite E.
Qed.

(** Where the text starts with a match, that match goes. *)
Lemma remove_first r (m s : str) cs :
  progress r → lengthless r →
  (∀ total, match_here total r (m ++ s) = Some (s, cs)) →
  remove r (m ++ s) = remove r s.
Proof.
  intros Hp Ht Hm. unfold remove.
  pose proof (search_here _ _ _ _ _ (Hm (length s))) as Hs.
  rewrite (matchAll_first (length s) r (m ++ s) _ Hp Ht Hs).
  cbn [after skipped map concat].
  by destruct (matchAll r s) as [fs tl].
Qed.

Lemma comment_opening_later (pre t x : str) :
  free "/*" pre → t ≠ [] → t `suffix_of` pre →
  Js.startsWith (t ++ "/"%char :: x) "/*" = false.
Proof.
  intros Hfree Hne Hsuf. destruct t as [|a [|b t]]; [done|..].
  - cbn. by rewrite andb_false_r.
  - pose proof (free_startsWith _ _ _ Hfree Hsuf) as H.
    revert H. cbn. by destruct (Ascii.eqb a "/"), (Ascii.eqb b "*").
Qed.

Lemma comment_closing_later (c t x : str) :
  free "*/" c → t ≠ [] → t `suffix_of` c →
  Js.startsWith (t ++ "*"%char :: x) "*/" = false.
Proof.
  intros Hfree Hne Hsuf. destruct t as [|a [|b t]]; [done|..].
  - cbn. by rewrite andb_false_r.
  - pose proof (free_startsWith _ _ _ Hfree Hsuf) as H.
    revert H. cbn. by destruct (Ascii.eqb a "*"), (Ascii.eqb b "/").
Qed.

Lemma lit_needs_start total c (s : str) cs (k : cont) :
  Js.startsWith s [c] = false → rmatch total (Lit c) s cs k = None.
Proof.
  destruct s as [|b u]; [done|]. cbn [Js.startsWith].
  rewrite andb_true_r. intros H.
  apply rmatch_Lit_ne. intros ->.
  by rewrite (proj2 (Ascii.eqb_eq _ _) eq_refl) in H.
Qed.

Lemma comment_match total (c post : str) :
  free "*/" c →
  match_here total commentRegex (("/*" ++ c ++ "*/") ++ post)
  = Some (post, []).
Proof.
  intros Hc. unfold match_here, commentRegex. cbn [Seq].
  rewrite <- !app_assoc.
  change ("/*" ++ c ++ "*/" ++ post)
    with ("/"%char :: "*"%char :: c ++ "*"%char :: "/"%char :: post).
  rewrite rmatch_Cat, rmatch_Lit_cons, rmatch_Cat, rmatch_Lit_cons.
  rewrite rmatch_Cat, rep_lazy_skip.
  - apply rep_lazy_here.
    by rewrite rmatch_Cat, rmatch_Lit_cons, rmatch_Lit_cons.
  - intros t Hne Hsuf.
    pose proof (comment_closing_later c t ("/"%char :: post) Hc Hne Hsuf) as H.
    destruct t as [|a t]; [done|]. cbn [app] in *.
    rewrite rmatch_Cat.
    destruct (decide (a = "*"%char)) as [->|Ha]; [|by rewrite rmatch_Lit_ne].
    rewrite rmatch_Lit_cons. apply lit_needs_start.
    revert H. cbn [Js.startsWith list_ascii_of_string].
    by rewrite (proj2 (Ascii.eqb_eq _ _) eq_refl).
Qed.

Lemma remove_comment (pre c post : str) :
  free "/*" pre → free "*/" c →
  remove commentRegex (pre ++ ("/*" ++ c ++ "*/") ++ post)
  = pre ++ remove commentRegex post.
Proof.
  intros Hpre Hc.
  rewrite remove_skip;
    [|apply comment_progress|apply comment_lengthless|].
  - f_equal. apply (remove_first _ _ _ []);
      [apply comment_progress|apply comment_lengthless|].
    intros total. by apply comment_match.
  - intros total t Hne Hsuf. apply comment_needs_opening.
    rewrite <- !app_assoc.
    change ("/*" ++ c ++ "*/" ++ post)
      with ("/"%char :: "*"%char :: c ++ "*/" ++ post).
    by apply (comment_opening_later pre).
Qed.

Lemma remove_before (pre post : str) :
  free "/*" pre → last pre ≠ Some "/"%char →
  remove commentRegex (pre ++ post) = pre ++ remove commentRegex post.
Proof.
  intros Hpre Hlast.
  apply remove_skip;
    [apply comment_progress|apply comment_lengthless|].
  intros total t Hne Hsuf. apply comment_needs_opening.
  destruct t as [|a [|b t]]; [done|..].
  - destruct Hsuf as [p ->]. rewrite last_snoc in Hlast.
    cbn [app Js.startsWith list_ascii_of_string].
    rewrite (proj2 (Ascii.eqb_neq "/" a)); [done|congruence].
  - pose proof (free_startsWith _ _ _ Hpre Hsuf) as H.
    revert H. cbn. by destruct (Ascii.eqb a "/"), (Ascii.eqb b "*").
Qed.

(** X12: A comment is read as if it were not there. *)
Theorem comment_is_ignored (pre c post : str) (U : option (gset str)) :
  Js.includes pre "/*" = false → last pre ≠ Some "/"%char →
  Js.includes c "*/" = false →
  parseCSSRules (pre ++ ("/*" ++ c ++ "*/") ++ post)
  = parseCSSRules (pre ++ post) ∧
  optimizeCSS (pre ++ ("/*" ++ c ++ "*/") ++ post) U
  = optimizeCSS (pre ++ post) U.
Proof.
  intros Hpre Hlast Hc.
  assert (parseCSSRules (pre ++ ("/*" ++ c ++ "*/") ++ post)
          = parseCSSRules (pre ++ post)) as Hp.
  { unfold parseCSSRules.
    by rewrite remove_comment, remove_before. }
  split; [done|]. unfold optimizeCSS. by rewrite Hp.
Qed.

Lemma comment_is_ignored_witness :
  Js.includes "a{b:c}" "/*" = false ∧
  last ("a{b:c}" : str) ≠ Some "/"%char ∧
  Js.includes " d{e:f} " "*/" = false ∧
  parseCSSRules ("a{b:c}" ++ ("/*" ++ " d{e:f} " ++ "*/") ++ "g{h:i}")
  = parseCSSRules ("a{b:c}" ++ "g{h:i}") ∧
  optimizeCSS ("a{b:c}" ++ ("/*" ++ " d{e:f} " ++ "*/") ++ "g{h:i}") None
  = optimizeCSS ("a{b:c}" ++ "g{h:i}") None.
Proof.
  assert (H : last ("a{b:c}" : str) ≠ Some "/"%char) by discriminate.
  split; [reflexivity|]. split; [exact H|]. split; [reflexivity|].
  exact (comment_is_ignored "a{b:c}" " d{e:f} " "g{h:i}" None
           eq_refl H eq_refl).
Defined.

End CssComments.

(** ** The optimizer: the order and the values of the merge *)

Section CssOrder.
Import Re ReLib Text Css Merge.

Lemma keys_add_decl sel (g : grouping) decl :
  sel ∈ Obj.keys g → Obj.keys (add_decl sel g decl) = Obj.keys g.
Proof.
  intros Hin. unfold add_decl.
  destruct (map Js.trim (Js.split ":" decl)) as [|[|a p] [|[|b v] ?]];
    try done.
  rewrite keys_set. destruct (Obj.get g sel) eqn:E; [done|].
  by apply get_None_keys in E.
Qed.

Lemma keys_add_decls sel ds : ∀ g : grouping,
  sel ∈ Obj.keys g → Obj.keys (foldl (add_decl sel) g ds) = Obj.keys g.
Proof.
  induction ds as [|d ds IH]; intros g Hin; cbn [foldl]; [done|].
  rewrite IH; rewrite keys_add_decl; done.
Qed.

Lemma keys_add_rule (g : grouping) r :
  Obj.keys (add_rule g r) =
  if bool_decide (selector r ∈ Obj.keys g) then Obj.keys g
  else Obj.keys g ++ [selector r].
Proof.
  unfold add_rule. destruct (Obj.get g (selector r)) eqn:E.
  - apply get_Some_keys in E as Hin.
    by rewrite keys_add_decls, bool_decide_eq_true_2.
  - apply get_None_keys in E as Hin.
    rewrite keys_add_decls, keys_set, E, bool_decide_eq_false_2; try done.
    rewrite keys_set, E. set_solver.
Qed.

Lemma keys_add_rules rs : ∀ g : grouping,
  Obj.keys (foldl add_rule g rs) =
  Obj.keys g ++
  List.filter (λ y, bool_decide (y ∉ Obj.keys g))
              (first_occurrences (map selector rs)).
Proof.
  induction rs as [|r rs IH]; intros g; cbn [foldl map first_occurrences].
  { by rewrite app_nil_r. }
  rewrite IH, keys_add_rule. cbn [List.filter].
  destruct (decide (selector r ∈ Obj.keys g)) as [Hin|Hin].
  - rewrite bool_decide_eq_true_2 by done.
    rewrite (bool_decide_eq_false_2 (selector r ∉ Obj.keys g)) by tauto.
    f_equal. rewrite filter_filter. apply filter_ext_elem.
    intros y _. destruct (decide (y = selector r)) as [->|Hne].
    + by rewrite obj_eqb_refl, bool_decide_eq_false_2 by tauto.
    + by rewrite obj_eqb_ne.
  - rewrite bool_decide_eq_false_2 by done.
    rewrite (bool_decide_eq_true_2 (selector r ∉ Obj.keys g)) by done.
    rewrite <- app_assoc. cbn [app]. do 2 f_equal.
    rewrite filter_filter. apply filter_ext_elem.
    intros y _. destruct (decide (y = selector r)) as [->|Hne].
    + rewrite obj_eqb_refl. apply bool_decide_eq_false_2. set_solver.
    + rewrite obj_eqb_ne by done. cbn [negb andb].
      apply bool_decide_ext. set_solver.
Qed.

Lemma group_rules_keys rs :
  Obj.keys (group_rules rs) = first_occurrences (map selector rs).
Proof.
  unfold group_rules. rewrite keys_add_rules. cbn [Obj.keys map app].
  apply filter_all. intros y _. apply bool_decide_eq_true_2, not_elem_of_nil.
Qed.

Lemma keys_filter {V} (f : str → bool) (o : Obj.t V) :
  Obj.keys (List.filter (λ kv, f (fst kv)) o) = List.filter f (Obj.keys o).
Proof.
  induction o as [|[k v] o IH]; simpl; [done|].
  destruct (f k); simpl; by rewrite IH.
Qed.

Lemma drop_unused_keys U (g : grouping) :
  NoDup (Obj.keys g) →
  Obj.keys (drop_unused U g)
  = List.filter (λ sel, negb (deleted U sel)) (Obj.keys g).
Proof.
  intros Hnd. destruct U as [u|].
  - rewrite drop_unused_filter by done.
    apply (keys_filter (λ sel, negb (unused u sel))).
  - symmetry. by apply filter_all.
Qed.

(** On dictionaries of own properties: the groups are written in the
    order in which their selectors first occur among the rules, less those
    that the filter deletes; at the top level and in every media block. *)
Lemma emitted_keys_in_order (css : str)
    (U : option (gset str)) :
  Obj.keys (emitted css U)
  = List.filter (λ sel, negb (deleted U sel))
      (first_occurrences (map selector (rules (parseCSSRules css)))) ∧
  ∀ m, Obj.keys (media_emitted U m)
       = List.filter (λ sel, negb (deleted U sel))
           (first_occurrences
              (map selector (rules (parseCSSRules (content m))))).
Proof.
  split; [|intros m]; unfold emitted, merged, media_emitted;
    by rewrite drop_unused_keys, group_rules_keys
      by apply group_rules_keys_NoDup.
Qed.

End CssOrder.

Section CssValues.
Import Re ReLib Text Css Merge.

Lemma value_add_rule (g : grouping) r sel prop :
  value (add_rule g r) sel prop =
  if Obj.eqb (selector r) sel then
    match declared r prop with
    | Some v => Some v
    | None => value g sel prop
    end
  else value g sel prop.
Proof.
  unfold value. destruct (Obj.eqb (selector r) sel) eqn:E.
  - apply obj_eqb_true in E as <-. rewrite add_rule_get_eq.
    unfold rule_decls, declared, rule_decls. rewrite write_decls_get.
    destruct (Obj.get (foldl write_decl [] _) prop); [done|].
    by destruct (Obj.get g (selector r)).
  - rewrite add_rule_get_ne; [done|]. intros Heq.
    by rewrite Heq, obj_eqb_refl in E.
Qed.

Lemma value_add_rules rs sel prop : ∀ g : grouping,
  value (foldl add_rule g rs) sel prop =
  match last_declared rs sel prop with
  | Some v => Some v
  | None => value g sel prop
  end.
Proof.
  induction rs as [|r rs IH]; intros g; cbn [foldl last_declared]; [done|].
  rewrite IH, value_add_rule.
  destruct (last_declared rs sel prop); [done|].
  destruct (Obj.eqb (selector r) sel); [|done].
  by destruct (declared r prop).
Qed.

Lemma group_rules_value rs sel prop :
  value (group_rules rs) sel prop = last_declared rs sel prop.
Proof.
  unfold group_rules. rewrite value_add_rules.
  by destruct (last_declared rs sel prop).
Qed.

(** On dictionaries of own properties: the value of a property of a
    selector is the one that the last rule of that selector to declare the
    property gives it. *)
Lemma value_last_declared (css : str) (sel prop : str) :
  value (merged css) sel prop
  = last_declared (rules (parseCSSRules css)) sel prop ∧
  ∀ U, deleted U sel = false →
       value (emitted css U) sel prop
       = last_declared (rules (parseCSSRules css)) sel prop.
Proof.
  split; [apply group_rules_value|]. intros U HU.
  unfold value, emitted. rewrite drop_unused_get by done.
  apply group_rules_value.
Qed.

End CssValues.

(** ** The parser and the writer: what they hand over *)

Section CssWellFormed.
Import Re ReLib Text Css.

Abbreviation rule_of := (λ sd : str * Obj.t str,
                           Rule (fst sd) (write_decls (snd sd))).
Abbreviation media_of := (λ b : str * grouping,
                            MediaRule (fst b) (write_groups (snd b))).

Lemma push_rule_trimmed acc f :
  let P := λ r, selector r ≠ [] ∧ tight (selector r) ∧
                declarations r ≠ [] ∧ tight (declarations r) in
  Forall P acc → Forall P (push_rule acc f).
Proof.
  intros P Hacc. unfold push_rule.
  destruct (Js.trim (group f 1)) as [|a sel] eqn:E1; [done|].
  destruct (Js.trim (group f 2)) as [|b body] eqn:E2; [done|].
  apply Forall_app. split; [done|]. apply Forall_singleton.
  unfold P. cbn [selector declarations]. rewrite <- E1, <- E2.
  split_and!; try apply trim_tight; by rewrite ?E1, ?E2.
Qed.

Lemma parse_rules_trimmed (css : str) :
  Forall (λ r, selector r ≠ [] ∧ tight (selector r) ∧
               declarations r ≠ [] ∧ tight (declarations r))
         (rules (parseCSSRules css)).
Proof.
  unfold parseCSSRules. cbv zeta. cbn [rules].
  generalize (fst (matchAll ruleRegex
                     (remove mediaRegex (remove commentRegex css)))).
  intros fs.
  assert (∀ acc,
            Forall (λ r, selector r ≠ [] ∧ tight (selector r) ∧
                         declarations r ≠ [] ∧ tight (declarations r)) acc →
            Forall (λ r, selector r ≠ [] ∧ tight (selector r) ∧
                         declarations r ≠ [] ∧ tight (declarations r))
                   (foldl push_rule acc fs)) as H.
  { induction fs as [|f fs IH]; intros acc Hacc; [exact Hacc|].
    cbn [foldl]. apply IH. by apply push_rule_trimmed. }
  apply H. constructor.
Qed.

(** X15: What the parser hands over: a rule has a selector and declarations
    that are not empty and have no white space around them, a selector
    without [{] and declarations without [}]; the query of a media block
    has no white space around it and no [{]. *)
Theorem parsed_rules_are_trimmed (css : str) :
  Forall (λ r, (selector r ≠ [] ∧ tight (selector r) ∧
                ("{"%char ∉ selector r)) ∧
               (declarations r ≠ [] ∧ tight (declarations r) ∧
                ("}"%char ∉ declarations r)))
         (rules (parseCSSRules css)) ∧
  Forall (λ m, tight (query m) ∧ ("{"%char ∉ query m))
         (mediaRules (parseCSSRules css)).
Proof.
  split; [|apply parse_media_ok].
  pose proof (parse_rules_ok css) as H1.
  pose proof (parse_rules_trimmed css) as H2.
  rewrite Forall_forall in H1, H2. apply Forall_forall. intros r Hr.
  destruct (H1 r Hr) as [(_ & _ & ?) ?]. destruct (H2 r Hr) as (? & ? & ? & ?).
  done.
Qed.

(** X16: What the writer is given: at the top level and in every media block,
    no selector comes twice and no property comes twice in a group; a
    selector is not empty, has no white space around it and no [{]; a
    property or a value is not empty, has no white space around it and none
    of [:], [;] and [}]. *)
Theorem written_groups_are_wellformed (css : str) (U : option (gset str)) :
  groups_ok (emitted css U) ∧ ∀ m, groups_ok (media_emitted U m).
Proof. split; [|intros m]; apply parsed_groups_ok. Qed.

End CssWellFormed.

(** ** The writer and the parser: the round trip *)

(** A given character is not in a given word. *)
Ltac char_not_in :=
  let H := fresh in
  intros H; apply list_elem_of_In in H; simpl in H; intuition discriminate.

Section CssRoundTrip.
Import Re ReLib Text Css.

Abbreviation rule_of := (λ sd : str * Obj.t str,
                           Rule (fst sd) (write_decls (snd sd))).
Abbreviation media_of := (λ b : str * grouping,
                            MediaRule (fst b) (write_groups (snd b))).

Lemma plain_blocks_spec (B : list (str * grouping)) :
  plain_blocks B = true →
  Forall (λ b, plain (fst b) = true ∧ plain_groups (snd b) = true) B.
Proof.
  induction B as [|b B IH]; intros H; [constructor|].
  cbn [plain_blocks forallb] in H.
  apply andb_true_iff in H as [[? ?]%andb_true_iff HB].
  constructor; [done|by apply IH].
Qed.

Lemma parse_written (G : grouping) (B : list (str * grouping)) :
  groups_ok G → blocks_ok B →
  plain_groups G = true → plain_blocks B = true →
  parseCSSRules (render G B) = Parsed (map rule_of G) (map media_of B).
Proof.
  intros HG HB HpG HpB%plain_blocks_spec.
  destruct (groups_full G HG HpG) as (Hfull & Hclear & Hfree).
  unfold blocks_ok in HB. rewrite Forall_forall in HB, HpB.
  apply parse_render; [done| |done|].
  - apply Forall_forall. intros [q g] Hb. cbn [fst snd].
    destruct (HB _ Hb) as (Hq & Hg & Hne). destruct (HpB _ Hb) as [_ Hpg].
    split; [done|]. by apply groups_full.
  - unfold render. apply free_write_groups_app; try done; try char_not_in.
    apply free_blocks_comment. apply Forall_forall.
    intros [q g] Hb. cbn [fst snd].
    destruct (HB _ Hb) as (Hq & Hg & Hne). destruct (HpB _ Hb) as [Hpq Hpg].
    split; [by apply plain_free in Hpq as [_ ?]|]. by apply groups_full.
Qed.

(** On dictionaries of own properties: what is written is read back. *)
Lemma render_read_back (G : grouping)
    (B : list (str * grouping)) :
  groups_ok G → blocks_ok B →
  plain_groups G = true → plain_blocks B = true →
  parseCSSRules (render G B) = Parsed (map rule_of G) (map media_of B) ∧
  group_rules (rules (parseCSSRules (render G B))) = G ∧
  Forall2 (λ m b, query m = fst b ∧
                  group_rules (rules (parseCSSRules (content m))) = snd b)
          (mediaRules (parseCSSRules (render G B))) B.
Proof.
  intros HG HB HpG HpB. rewrite (parse_written G B) by done.
  cbn [rules mediaRules]. split; [done|].
  split; [by apply group_rules_render|].
  apply plain_blocks_spec in HpB. unfold blocks_ok in HB.
  apply Forall2_fmap_l, Forall_Forall2_diag, Forall_forall.
  rewrite Forall_forall in HB, HpB.
  intros [q g] Hb. split; [done|]. cbn [fst snd query content].
  destruct (HB _ Hb) as (Hq & Hg & Hne). destruct (HpB _ Hb) as [_ Hpg].
  pose proof (parse_written g [] Hg (Forall_nil_2 _) Hpg eq_refl) as Hp.
  unfold render in Hp. cbn [map concat] in Hp. rewrite app_nil_r in Hp.
  rewrite Hp. cbn [rules]. by apply group_rules_render.
Qed.

End CssRoundTrip.

(** ** The extractor *)

Section ExtractorFacts.
Import Re ReLib Text Extractor Pattern.

Abbreviation cont := (str → caps → option outcome).
Abbreviation final := (λ (s' : str) (cs' : caps), Some (s', cs')).


Lemma attribute_needs_name total (r : regex) (t : str) :
  r ∈ [stringRegex; templateRegex; conditionalRegex] →
  Js.startsWith t "className=" = false → match_here total r t = None.
Proof.
  intros Hr Ht. unfold match_here.
  repeat (apply elem_of_cons in Hr as [->|Hr];
          [cbn [stringRegex templateRegex conditionalRegex Seq];
           by rewrite rmatch_Cat, rmatch_Word, Ht|]).
  by apply elem_of_nil in Hr.
Qed.

Lemma collect_none (r : regex) (code : str) (classes : gset str) :
  r ∈ [stringRegex; templateRegex; conditionalRegex] →
  free "className=" code → collect r code classes = classes.
Proof.
  intros Hr Hfree. unfold collect. rewrite matchAll_none; [done|].
  intros t Ht. apply attribute_needs_name; [done|].
  by eapply free_startsWith.
Qed.

Lemma extract_none (code : str) :
  free "className=" code → extractClassNames code = ∅.
Proof.
  intros H. unfold extractClassNames. cbv zeta.
  rewrite !collect_none; try done; set_solver.
Qed.

(** X18: A text without [className=] has no class to extract. *)
Theorem no_attribute_no_class (code : str) :
  Js.includes code "className=" = false → extractClassNames code = ∅.
Proof. apply extract_none. Qed.

Lemma no_attribute_no_class_witness :
  Js.includes "<p class='a'>" "className=" = false ∧
  extractClassNames "<p class='a'>" = ∅.
Proof.
  split; [reflexivity|].
  exact (no_attribute_no_class "<p class='a'>" eq_refl).
Defined.

End ExtractorFacts.

Section ExtractorWords.
Import Re ReLib Text Extractor Pattern.

Abbreviation cont := (str → caps → option outcome).
Abbreviation final := (λ (s' : str) (cs' : caps), Some (s', cs')).

(** [s] has the text [x] in it. *)
Abbreviation has s x := (∃ a b : str, s = a ++ x ++ b).

Lemma has_suffix (s t x : str) : t `suffix_of` s → has t x → has s x.
Proof.
  intros [p ->] (a & b & ->). exists (p ++ a), b. by rewrite <- app_assoc.
Qed.

(** *** The pieces that [split(/\s+/)] gives *)

Lemma spaces_progress : progress (Rep1 true ws).
Proof.
  intros total t s' cs. unfold match_here, Rep1, ws. rewrite rmatch_Cat.
  intros (c & t1 & -> & _ & (s1 & cs1 & Hs & [= <- <-])%rmatch_inv)
         %rmatch_Cls_inv.
  apply suffix_length in Hs. simpl. lia.
Qed.

Lemma spaces_none total c (s : str) :
  match_here total (Rep1 true ws) (c :: s) = None → Js.is_space c = false.
Proof.
  unfold match_here, Rep1, ws. rewrite rmatch_Cat.
  destruct (Js.is_space c) eqn:E; [|done].
  rewrite rmatch_Cls_cons by done.
  destruct (rep_cls_some total true Js.is_space [] s [] final) as [o Ho];
    [constructor|by eexists|].
  cbn [app] in Ho. by rewrite Ho.
Qed.

Lemma split_loop_pieces total : ∀ fuel (piece s : str),
  length s < fuel →
  Forall (λ c, Js.is_space c = false) piece →
  Forall (λ x, Forall (λ c, Js.is_space c = false) x ∧
               has (rev piece ++ s) x)
         (split_loop fuel total (Rep1 true ws) piece s).
Proof.
  induction fuel as [|fuel IH]; intros piece s Hfuel Hpiece; [lia|].
  cbn [split_loop]. destruct s as [|a s].
  { apply Forall_singleton. split; [by apply Forall_rev|].
    exists [], []. by rewrite !app_nil_r. }
  destruct (match_here total (Rep1 true ws) (a :: s)) as [[rest cs]|] eqn:E.
  - pose proof (spaces_progress _ _ _ _ E) as Hlt.
    pose proof (match_here_suffix _ _ _ _ _ E) as Hsuf.
    rewrite (proj2 (Nat.eqb_neq _ _)) by lia. cbn [andb].
    apply Forall_cons. split.
    + split; [by apply Forall_rev|]. exists [], (a :: s). done.
    + eapply Forall_impl; [apply (IH [] rest); [simpl in *; lia|constructor]|].
      intros x [Hx Hhas]. split; [done|].
      eapply has_suffix; [|exact Hhas]. cbn [rev app].
      destruct Hsuf as [p ->]. exists (rev piece ++ p).
      by rewrite <- app_assoc.
  - apply spaces_none in E.
    eapply Forall_impl;
      [apply (IH (a :: piece) s); [simpl in *; lia|by constructor]|].
    intros x [Hx Hhas]. split; [done|].
    cbn [rev] in Hhas. by rewrite <- app_assoc in Hhas.
Qed.

Lemma split_spaces_pieces (s : str) :
  Forall (λ x, Forall (λ c, Js.is_space c = false) x ∧ has s x)
         (split (Rep1 true ws) s).
Proof.
  unfold split. destruct s as [|a s].
  - destruct (match_here 0 _ []); [constructor|].
    apply Forall_singleton. split; [constructor|by exists [], []].
  - apply (split_loop_pieces _ _ [] (a :: s)); [simpl; lia|constructor].
Qed.

(** *** What the three patterns capture *)

Abbreviation unquoted_run g :=
  ((dquote ∉ g) ∧ (squote ∉ g)).

Lemma unquoted_spec (g : str) :
  Forall (λ c, none_of [dquote; squote] c = true) g → unquoted_run g.
Proof. intros H. split; eapply none_of_run; try exact H; set_solver. Qed.

(** The quoted literal of the three patterns. *)
Lemma literal_captured total (t : str) cs (k : cont) o :
  rmatch total (Cat quote (Cat (Grp 1 (Rep1 true unquoted)) quote)) t cs k
  = Some o →
  ∃ g s' q q', k s' ((1, g) :: cs) = Some o ∧ g ≠ [] ∧ unquoted_run g ∧
               t = q :: g ++ q' :: s'.
Proof.
  rewrite rmatch_Cat. unfold quote at 1.
  intros (q & t1 & -> & _ & H)%rmatch_Cls_inv.
  rewrite rmatch_Cat, rmatch_Grp in H. unfold unquoted in H.
  apply rep1_cls_inv_ne in H as (g & rest & -> & Hne & Hg & H).
  rewrite take_app_length_diff in H. unfold quote in H.
  apply rmatch_Cls_inv in H as (q' & s' & -> & _ & H).
  destruct (unquoted_spec g Hg). by exists g, s', q, q'.
Qed.

Lemma attribute_captured total (r : regex) (t s' : str) cs :
  r ∈ [stringRegex; templateRegex; conditionalRegex] →
  match_here total r t = Some (s', cs) →
  ∃ g, cap cs 1 = Some g ∧ g ≠ [] ∧ unquoted_run g ∧ has t g.
Proof.
  intros Hr. unfold match_here.
  repeat (apply elem_of_cons in Hr as [->|Hr];
          [cbn [stringRegex templateRegex conditionalRegex Seq];
           rewrite rmatch_Cat, rmatch_Word;
           destruct (Js.startsWith t "className=") eqn:E; [|done];
           apply startsWith_app in E as [t1 ->]; rewrite drop_app_length|]);
    [| | |by apply elem_of_nil in Hr].
  - intros (g & s1 & q & q' & H & Hne & [? ?] & ->)%literal_captured.
    injection H as <- <-. exists g. split_and!; try done.
    exists ("className=" ++ [q]), (q' :: s1). by rewrite <- !app_assoc.
  - rewrite rmatch_Cat.
    intros (t2 & -> & H)%rmatch_Lit_inv.
    change (rmatch total
              (Cat quote (Cat (Grp 1 (Rep1 true unquoted)) quote)) t2 []
              (λ s cs, rmatch total (Lit "}") s cs final) = Some (s', cs))
      in H.
    apply literal_captured in H as (g & s1 & q & q' & H & Hne & [? ?] & ->).
    apply rmatch_Lit_inv in H as (s2 & -> & [= <- <-]).
    exists g. split_and!; try done.
    exists ("className=" ++ "{"%char :: [q]), (q' :: "}"%char :: s2).
    by rewrite <- !app_assoc.
  - rewrite rmatch_Cat.
    intros (t2 & -> & H)%rmatch_Lit_inv.
    rewrite rmatch_Cat in H.
    apply rep_cls_inv in H as (run & t3 & -> & _ & H).
    apply literal_captured in H as (g & s1 & q & q' & H & Hne & [? ?] & ->).
    injection H as <- <-. exists g. split_and!; try done.
    exists ("className=" ++ "{"%char :: run ++ [q]), (q' :: s1).
    rewrite <- !app_assoc. cbn [app]. by rewrite <- !app_assoc.
Qed.

(** *** The classes that are extracted *)

Lemma add_words_clean (code : str) (classes : gset str) (m : found) :
  unquoted_run (group m 1) → has code (group m 1) →
  (∀ c, c ∈ classes → clean_word code c) →
  ∀ c, c ∈ add_words classes m → clean_word code c.
Proof.
  intros [Hq1 Hq2] Hhas. unfold add_words.
  pose proof (split_spaces_pieces (group m 1)) as Hp.
  revert classes.
  induction Hp as [|x xs [Hx Hin] _ IH]; intros classes Hc; cbn [foldl];
    [done|].
  apply IH. destruct x as [|a x]; [done|].
  intros c [Hin'|Heq%elem_of_singleton]%elem_of_union; [by apply Hc|].
  subst c. destruct Hin as (p & q & Hg).
  unfold clean_word. split_and!; [done|done| | |].
  - intros H. apply Hq1. rewrite Hg. set_solver.
  - intros H. apply Hq2. rewrite Hg. set_solver.
  - apply includes_app. destruct Hhas as (p' & q' & ->).
    exists (p' ++ p), (q ++ q'). rewrite Hg. by rewrite <- !app_assoc.
Qed.

Lemma collect_clean (r : regex) (code : str) (classes : gset str) :
  r ∈ [stringRegex; templateRegex; conditionalRegex] →
  (∀ c, c ∈ classes → clean_word code c) →
  ∀ c, c ∈ collect r code classes → clean_word code c.
Proof.
  intros Hr. unfold collect, matchAll.
  assert (Forall (λ f, unquoted_run (group f 1) ∧ has code (group f 1))
            (fst (scan (S (length code)) (length code) r code))) as Hfs.
  { apply (scan_found_text _ _ _ code); [|done].
    intros t f Ht Hf. apply search_found_text in Hf as [Hs Hm].
    apply (attribute_captured _ _ _ _ _ Hr) in Hm
      as (g & Hcap & _ & Hg & Hhas).
    unfold group. rewrite Hcap. cbn [default]. unfold id.
    split; [done|]. eapply has_suffix; [exact Ht|].
    rewrite Hs. eapply has_suffix; [|exact Hhas].
    by exists (skipped f). }
  revert classes.
  induction Hfs as [|f fs [Hf1 Hf2] _ IH]; intros classes Hc; cbn [foldl];
    [done|].
  apply IH. by apply add_words_clean.
Qed.

(** X19: Every class that is extracted is a piece of the text that is not
    empty and has no white space and no quote in it. *)
Theorem extracted_classes_are_words (code : str) (c : str) :
  c ∈ extractClassNames code →
  c ≠ [] ∧ Forall (λ a, Js.is_space a = false) c ∧
  (dquote ∉ c) ∧ (squote ∉ c) ∧ Js.includes code c = true.
Proof.
  unfold extractClassNames. cbv zeta.
  assert (∀ x : str, x ∈ (∅ : gset str) → clean_word code x) as H0
    by set_solver.
  pose proof (collect_clean stringRegex code _ ltac:(set_solver) H0) as H1.
  pose proof (collect_clean templateRegex code _ ltac:(set_solver) H1) as H2.
  exact (collect_clean conditionalRegex code _ ltac:(set_solver) H2 c).
Qed.

Lemma extracted_classes_are_words_witness :
  ("a" : str) ∈ extractClassNames "<p className='a b'>" ∧
  ("a" : str) ≠ [] ∧ Forall (λ a, Js.is_space a = false) ("a" : str) ∧
  (dquote ∉ ("a" : str)) ∧ (squote ∉ ("a" : str)) ∧
  Js.includes "<p className='a b'>" "a" = true.
Proof.
  assert (H : ("a" : str) ∈ extractClassNames "<p className='a b'>").
  { apply (bool_decide_eq_true_1
             (("a" : str) ∈ extractClassNames "<p className='a b'>")).
    vm_compute. reflexivity. }
  split; [exact H|].
  exact (extracted_classes_are_words "<p className='a b'>" "a" H).
Defined.

End ExtractorWords.

Section ExtractorLiteral.
Import Re ReLib Text Extractor Pattern.

Abbreviation cont := (str → caps → option outcome).
Abbreviation final := (λ (s' : str) (cs' : caps), Some (s', cs')).
Abbreviation spaces := (Rep1 true ws).

(** *** The words that [split(/\s+/)] gives *)

Lemma spaces_match total (sp rest : str) :
  sp ≠ [] → blank sp → stops Js.is_space rest →
  match_here total spaces (sp ++ rest) = Some (rest, []).
Proof.
  intros Hne Hsp Hrest. unfold match_here, ws.
  by apply rep1_greedy_run.
Qed.

Lemma spaces_fail total c (s : str) :
  Js.is_space c = false → match_here total spaces (c :: s) = None.
Proof.
  intros Hc. unfold match_here, Rep1, ws. rewrite rmatch_Cat.
  cbn [rmatch]. by rewrite Hc.
Qed.

(** A word that starts where a piece is being read ends the piece. *)
Lemma split_loop_word total (w : str) : ∀ fuel (piece b : str),
  length (w ++ b) < fuel →
  Forall (λ c, Js.is_space c = false) w →
  (b = [] ∨ ∃ c b', b = c :: b' ∧ Js.is_space c = true) →
  ∃ tl, split_loop fuel total spaces piece (w ++ b) = (rev piece ++ w) :: tl.
Proof.
  induction w as [|a w IH]; intros fuel piece b Hfuel Hw Hb;
    (destruct fuel as [|fuel]; [simpl in Hfuel; lia|]); cbn [app split_loop].
  - rewrite app_nil_r. destruct Hb as [->|(c & b' & -> & Hc)]; [by eexists|].
    destruct (match_here total spaces (c :: b')) as [[rest cs]|] eqn:E.
    + pose proof (spaces_progress _ _ _ _ E) as Hlt.
      rewrite (proj2 (Nat.eqb_neq _ _)) by lia. by eexists.
    + apply spaces_none in E. congruence.
  - apply Forall_cons in Hw as [Ha Hw]. rewrite spaces_fail by done.
    destruct (IH fuel (a :: piece) b) as [tl Htl];
      [simpl in Hfuel; lia|done..|].
    exists tl. rewrite Htl. cbn [rev]. by rewrite <- app_assoc.
Qed.

Lemma trimStart_app_word (a w b : str) :
  w ≠ [] → Forall (λ c, Js.is_space c = false) w →
  Js.trimStart (a ++ w ++ b) =
  match Js.trimStart a with
  | [] => w ++ b
  | t => t ++ w ++ b
  end.
Proof.
  intros Hne Hw. destruct w as [|c w]; [done|].
  apply Forall_cons in Hw as [Hc _].
  induction a as [|x a IH]; cbn [app Js.trimStart].
  - by rewrite Hc.
  - destruct (Js.is_space x); [exact IH|done].
Qed.

Lemma trimStart_last (a a' : str) c :
  a = a' ++ [c] → Js.trimStart a = [] ∨ ∃ t, Js.trimStart a = t ++ [c].
Proof.
  intros ->. destruct (trimStart_suffix (a' ++ [c])) as [p Hp].
  destruct (Js.trimStart (a' ++ [c])) as [|x t] eqn:E; [by left|right].
  destruct (exists_last (l := x :: t)) as (t' & y & Ht); [done|].
  rewrite Ht in Hp. rewrite app_assoc in Hp.
  apply app_inj_tail in Hp as [_ ->]. by exists t'.
Qed.

(** A word that comes after white space is one of the pieces. *)
Lemma split_loop_later total (w b : str) : ∀ fuel (piece a a' : str) c,
  length (a ++ w ++ b) < fuel →
  a = a' ++ [c] → Js.is_space c = true →
  w ≠ [] → Forall (λ c, Js.is_space c = false) w →
  (b = [] ∨ ∃ c b', b = c :: b' ∧ Js.is_space c = true) →
  w ∈ split_loop fuel total spaces piece (a ++ w ++ b).
Proof.
  induction fuel as [|fuel IH]; intros piece a a' c Hfuel Ha Hc Hne Hw Hb;
    [lia|].
  destruct a as [|x a]; [by destruct a'|]. cbn [app split_loop].
  destruct (Js.is_space x) eqn:Hx.
  - destruct (trimStart_split (x :: a ++ w ++ b)) as (sp & Hsp & Hs).
    assert (sp ≠ []) as Hspne.
    { intros ->. cbn [app] in Hs. pose proof (trimStart_stops (x :: a ++ w ++ b)).
      rewrite <- Hs in H. simpl in H. congruence. }
    rewrite Hs at 1.
    rewrite (spaces_match total sp _ Hspne Hsp (trimStart_stops _)).
    assert (length (Js.trimStart (x :: a ++ w ++ b))
            < length (x :: a ++ w ++ b)) as Hlt.
    { rewrite Hs at 2. rewrite length_app. destruct sp; [done|simpl; lia]. }
    rewrite (proj2 (Nat.eqb_neq _ _)) by lia. cbn [andb].
    apply elem_of_cons. right.
    change (x :: a ++ w ++ b) with ((x :: a) ++ w ++ b) in *.
    rewrite trimStart_app_word in * by done.
    destruct (trimStart_last (x :: a) a' c Ha) as [Ht|[t Ht]]; rewrite Ht in *.
    + destruct (split_loop_word total w fuel [] b) as [tl Htl];
        [simpl in *; lia|done..|].
      rewrite Htl. apply elem_of_cons. by left.
    + destruct t as [|y t].
      * cbn [app] in *.
        apply (IH [] [c] [] c); try done. simpl in *. lia.
      * apply (IH [] ((y :: t) ++ [c]) (y :: t) c); try done.
        simpl in *. lia.
  - rewrite spaces_fail by done.
    destruct a' as [|y a']; [simplify_eq/=; congruence|].
    cbn [app] in Ha. injection Ha as -> ->.
    apply (IH (y :: piece) (a' ++ [c]) a' c); try done.
    simpl in Hfuel. lia.
Qed.

Lemma split_spaces_word (v w : str) :
  word_of v w → w ∈ split spaces v.
Proof.
  intros (Hne & Hw & a & b & -> & Ha & Hb). unfold split.
  destruct (a ++ w ++ b) as [|x s] eqn:E.
  { destruct a, w; done. }
  rewrite <- E. destruct Ha as [->|(a' & c & -> & Hc)].
  - destruct (split_loop_word (length (w ++ b)) w
                (2 * S (length (w ++ b))) [] b) as [tl Htl];
      [lia|done..|].
    cbn [app]. rewrite Htl. apply elem_of_cons. by left.
  - eapply split_loop_later; try done. lia.
Qed.

(** *** The first literal attribute *)

Lemma startsWith_long (u x w : str) :
  length w ≤ length u → Js.startsWith (u ++ x) w = Js.startsWith u w.
Proof.
  revert u. induction w as [|a w IH]; intros u Hlen; [done|].
  destruct u as [|b u]; [simpl in Hlen; lia|]. cbn [app Js.startsWith].
  rewrite IH; [done|]. simpl in Hlen. lia.
Qed.

(** The name of the attribute does not start in [pre] where it does not
    occur in [pre]: it has its [c] at the front only. *)
Lemma name_starts_later (pre u x : str) :
  free "className=" pre → u ≠ [] → u `suffix_of` pre →
  Js.startsWith (u ++ "className=" ++ x) "className=" = false.
Proof.
  intros Hfree Hne Hsuf.
  destruct (decide (length ("className=" : str) ≤ length u)) as [Hlen|Hlen].
  - rewrite startsWith_long by done. by eapply free_startsWith.
  - clear Hfree Hsuf. destruct u as [|a0 u]; [done|].
    do 9 (destruct u as [|? u];
          [clear; cbn [app Js.startsWith list_ascii_of_string];
           repeat match goal with
                  | |- context [Ascii.eqb ?a ?b] =>
                      is_var b; generalize (Ascii.eqb a b); intro
                  end;
           repeat match goal with b : bool |- _ => destruct b end;
           reflexivity|]).
    simpl in Hlen. lia.
Qed.

Lemma literal_match total (q q' : ascii) (v post : str) :
  q ∈ [dquote; squote] → q' ∈ [dquote; squote] →
  v ≠ [] → dquote ∉ v → squote ∉ v →
  match_here total stringRegex ("className=" ++ q :: v ++ q' :: post)
  = Some (post, [(1, v)]).
Proof.
  intros Hq Hq' Hne Hv1 Hv2. unfold match_here, stringRegex. cbn [Seq].
  rewrite rmatch_Cat, rmatch_Word.
  rewrite (proj2 (startsWith_app _ _)) by by eexists.
  rewrite drop_app_length. unfold quote at 1.
  rewrite rmatch_Cat, rmatch_Cls_cons by by apply one_of_elem_of.
  rewrite rmatch_Cat, rmatch_Grp. unfold unquoted.
  apply rep1_greedy_run; [done| | |].
  - apply Forall_forall. intros c Hc. apply none_of_not_elem_of.
    set_solver.
  - cbn [stops]. apply negb_false_iff. by apply one_of_elem_of.
  - rewrite take_app_length_diff. unfold quote.
    by rewrite rmatch_Cls_cons by by apply one_of_elem_of.
Qed.

Abbreviation add_word :=
  (λ (acc : gset str) (cls : str),
     match cls with [] => acc | _ :: _ => acc ∪ {[cls]} end).

Lemma add_word_list_subseteq (ps : list str) :
  ∀ acc : gset str, acc ⊆ foldl add_word acc ps.
Proof.
  induction ps as [|p ps IH]; intros acc; cbn [foldl]; [done|].
  etrans; [|apply IH]. destruct p; set_solver.
Qed.

Lemma add_word_list_elem_of (ps : list str) (w : str) :
  w ∈ ps → w ≠ [] → ∀ acc : gset str, w ∈ foldl add_word acc ps.
Proof.
  intros Hin Hne. induction ps as [|p ps IH]; intros acc; cbn [foldl];
    [by apply elem_of_nil in Hin|].
  apply elem_of_cons in Hin as [<-|Hin]; [|by apply IH].
  apply add_word_list_subseteq. destruct w; [done|set_solver].
Qed.

Lemma add_words_subseteq (classes : gset str) (m : found) :
  classes ⊆ add_words classes m.
Proof. apply add_word_list_subseteq. Qed.

Lemma add_words_elem_of (classes : gset str) (m : found) (w : str) :
  w ∈ split spaces (group m 1) → w ≠ [] → w ∈ add_words classes m.
Proof. intros Hin Hne. by apply add_word_list_elem_of. Qed.

Lemma collect_subseteq (r : regex) (code : str) (classes : gset str) :
  classes ⊆ collect r code classes.
Proof.
  unfold collect. generalize (fst (matchAll r code)). intros fs.
  revert classes. induction fs as [|f fs IH]; intros classes; cbn [foldl];
    [done|].
  etrans; [apply (add_words_subseteq _ f)|apply IH].
Qed.

(** X20: The classes named in the first literal [className] attribute of a
    text are extracted: every word of its value. *)
Theorem literal_classes_are_extracted (pre v post : str) (q q' : ascii)
    (w : str) :
  Js.includes pre "className=" = false →
  q ∈ [dquote; squote] → q' ∈ [dquote; squote] →
  dquote ∉ v → squote ∉ v →
  word_of v w →
  w ∈ extractClassNames (pre ++ "className=" ++ q :: v ++ q' :: post).
Proof.
  intros Hpre Hq Hq' Hv1 Hv2 Hw.
  assert (v ≠ []) as Hne.
  { destruct Hw as (Hw & _ & a & b & -> & _). by destruct a, w. }
  unfold extractClassNames. cbv zeta.
  do 2 apply collect_subseteq. unfold collect, matchAll.
  set (code := pre ++ "className=" ++ q :: v ++ q' :: post).
  rewrite scan_S. unfold code at 2.
  rewrite search_skip.
  - rewrite (search_here _ _ _ _ _ (literal_match _ q q' v post
                                      Hq Hq' Hne Hv1 Hv2)).
    cbn [after]. destruct (scan _ _ _ post) as [fs tl]. cbn [fst foldl].
    set (f := Found _ _ _ _).
    assert (w ∈ add_words ∅ f) as Hin.
    { apply add_words_elem_of; [|by destruct Hw].
      unfold f, group. cbn [groups cap Nat.eqb default]. unfold id.
      by apply split_spaces_word. }
    revert Hin. generalize (add_words ∅ f). clear. intros acc Hin.
    revert acc Hin. induction fs as [|f fs IH]; intros acc Hin; cbn [foldl];
      [done|].
    apply IH. by apply add_words_subseteq.
  - intros u Hu Hsuf. apply attribute_needs_name; [set_solver|].
    by apply (name_starts_later pre).
Qed.

Lemma literal_classes_are_extracted_witness :
  Js.includes "<p " "className=" = false ∧
  squote ∈ [dquote; squote] ∧
  (dquote ∉ ("a b" : str)) ∧ (squote ∉ ("a b" : str)) ∧
  word_of "a b" "b" ∧
  ("b" : str) ∈ extractClassNames
                  ("<p " ++ "className=" ++ squote :: "a b" ++ squote :: ">").
Proof.
  assert (Hq : squote ∈ [dquote; squote]) by (right; left).
  assert (H1 : dquote ∉ ("a b" : str)).
  { intros H. apply list_elem_of_In in H. simpl in H.
    intuition discriminate. }
  assert (H2 : squote ∉ ("a b" : str)).
  { intros H. apply list_elem_of_In in H. simpl in H.
    intuition discriminate. }
  assert (Hw : word_of "a b" "b").
  { split; [discriminate|]. split; [by repeat constructor|].
    exists ("a " : str), []. split; [reflexivity|]. split.
    - right. exists ("a" : str), " "%char. by split.
    - by left. }
  split; [reflexivity|]. split; [exact Hq|]. split; [exact H1|].
  split; [exact H2|]. split; [exact Hw|].
  exact (literal_classes_are_extracted "<p " "a b" ">" squote squote "b"
           eq_refl Hq Hq H1 H2 Hw).
Defined.

End ExtractorLiteral.

(** ** The handlers of the component *)

Section AppFacts.
Import Re ReLib Text Validator Css Extractor App.

(** X21: Validating a blank source changes nothing; validating another one
    shows the panel of the results or the message of success, never both,
    and the message of success exactly when the validator reports nothing:
    always, for a Vue source. *)
Theorem validation_shows_one_panel (jsxInput : str) (ft : fileType)
    (validation : option Validator.result) :
  (Js.trim jsxInput = [] →
   handleValidate jsxInput ft validation = validation) ∧
  (Js.trim jsxInput ≠ [] →
   let v := handleValidate jsxInput ft validation in
   shows_results v = negb (shows_success v) ∧
   (shows_success v = true ↔ validateSyntax jsxInput ft = Result [] []) ∧
   (ft = vue → shows_success v = true)).
Proof.
  unfold handleValidate. split; [by intros ->|]. intros Hne.
  destruct (Js.trim jsxInput) as [|c t]; [done|]. cbn zeta.
  cbn [shows_results shows_success]. split_and!.
  - by destruct (errors _), (warnings _).
  - destruct (validateSyntax jsxInput ft) as [[|e es] [|w ws]]; by split.
  - intros ->. by rewrite vue_result.
Qed.

Lemma validation_shows_one_panel_witness :
  Js.trim "<p/>" ≠ [] ∧
  shows_results (handleValidate "<p/>" vue None)
  = negb (shows_success (handleValidate "<p/>" vue None)) ∧
  (shows_success (handleValidate "<p/>" vue None) = true ↔
   validateSyntax "<p/>" vue = Result [] []) ∧
  (vue = vue → shows_success (handleValidate "<p/>" vue None) = true).
Proof.
  assert (H : Js.trim "<p/>" ≠ []) by discriminate.
  split; [exact H|].
  exact (proj2 (validation_shows_one_panel "<p/>" vue None) H).
Defined.

Lemma unused_empty sel :
  is_Some (class_tokens sel) → Js.includes sel ":" = false →
  unused ∅ sel = true.
Proof.
  intros [cls Hcls] Hc. unfold unused. rewrite Hcls, Hc.
  rewrite andb_true_r. unfold class_tokens in Hcls.
  destruct (fst (matchAll classRegex sel)) as [|m ms]; [done|].
  injection Hcls as <-. reflexivity.
Qed.

End AppFacts.

(** ** White space around the pieces of a style sheet *)

Section PaddingFacts.
Import Re ReLib Text Css Layout.

Lemma blank_app (a b : str) : blank (a ++ b) ↔ blank a ∧ blank b.
Proof. apply Forall_app. Qed.

Lemma blank_not_elem_of (a : str) c :
  blank a → Js.is_space c = false → c ∉ a.
Proof.
  intros Ha Hc Hin. unfold blank in Ha. rewrite Forall_forall in Ha.
  rewrite (Ha c Hin) in Hc. done.
Qed.

Lemma trimStart_blank_l (a s : str) :
  blank a → Js.trimStart (a ++ s) = Js.trimStart s.
Proof.
  induction 1 as [|c a Hc _ IH]; [done|]. cbn [app Js.trimStart].
  by rewrite Hc.
Qed.

Lemma trimEnd_blank_r (s b : str) :
  blank b → Js.trimEnd (s ++ b) = Js.trimEnd s.
Proof.
  intros Hb. unfold Js.trimEnd. rewrite rev_app_distr.
  rewrite trimStart_blank_l; [done|]. by apply blank_rev.
Qed.

Lemma trimStart_app_r (y b : str) :
  Js.trimStart (y ++ b) =
  match Js.trimStart y with
  | [] => Js.trimStart b
  | t => t ++ b
  end.
Proof.
  induction y as [|c y IH]; cbn [app Js.trimStart]; [by destruct (Js.trimStart b)|].
  destruct (Js.is_space c); [exact IH|done].
Qed.

Lemma trim_blank_l (a s : str) : blank a → Js.trim (a ++ s) = Js.trim s.
Proof. intros Ha. unfold Js.trim. by rewrite trimStart_blank_l. Qed.

Lemma trim_blank_r (s b : str) : blank b → Js.trim (s ++ b) = Js.trim s.
Proof.
  intros Hb. unfold Js.trim. rewrite trimStart_app_r.
  destruct (Js.trimStart s) as [|c t] eqn:E.
  - by rewrite (blank_trimStart b Hb).
  - by rewrite trimEnd_blank_r.
Qed.

(** A text with white space around it is trimmed to itself. *)
Lemma trim_padded (x y : str) : padded x y → tight x → Js.trim y = x.
Proof.
  intros (a & b & Ha & Hb & ->) Hx.
  rewrite trim_blank_l, trim_blank_r by done. by apply trim_of_tight.
Qed.

(** *** Splitting a text with white space around it *)

Lemma split_pad_l c (a s : str) :
  c ∉ a →
  Js.split c (a ++ s) =
  match Js.split c s with
  | y :: ys => (a ++ y) :: ys
  | [] => [a]
  end.
Proof.
  intros Ha. pose proof (split_nonempty c s) as Hs.
  induction a as [|x a IH]; cbn [app].
  - by destruct (Js.split c s).
  - cbn [Js.split]. rewrite (proj2 (Ascii.eqb_neq x c)) by set_solver.
    rewrite IH by set_solver. by destruct (Js.split c s).
Qed.

Lemma split_pad_r c (s b : str) :
  c ∉ b →
  ∃ init z, Js.split c s = init ++ [z] ∧
            Js.split c (s ++ b) = init ++ [z ++ b].
Proof.
  intros Hb. induction s as [|x s (init & z & Hs & Hsb)]; cbn [app].
  - exists [], []. split; [done|]. cbn [app]. by apply split_no_sep.
  - cbn [Js.split]. rewrite Hs, Hsb. destruct (Ascii.eqb x c).
    + by exists ([] :: init), z.
    + destruct init as [|i init]; cbn [app].
      * by exists [], (x :: z).
      * by exists ((x :: i) :: init), z.
Qed.

(** What a declaration writes does not depend on the white space around
    it. *)
Lemma write_decl_pad_l (o : Obj.t str) (a x : str) :
  blank a → write_decl o (a ++ x) = write_decl o x.
Proof.
  intros Ha. unfold write_decl.
  rewrite split_pad_l by by apply blank_not_elem_of.
  pose proof (split_nonempty ":" x).
  destruct (Js.split ":" x) as [|y ys]; [done|]. cbn [map].
  by rewrite trim_blank_l.
Qed.

Lemma write_decl_pad_r (o : Obj.t str) (x b : str) :
  blank b → write_decl o (x ++ b) = write_decl o x.
Proof.
  intros Hb. unfold write_decl.
  destruct (split_pad_r ":" x b) as (init & z & -> & ->);
    [by apply blank_not_elem_of|].
  rewrite !map_app. cbn [map]. by rewrite trim_blank_r.
Qed.

End PaddingFacts.

(** ** The declarations of a rule that is laid out *)

Section LaidDecls.
Import Re ReLib Text Css Layout.

Abbreviation pair_ok := (λ pv : str * str,
  word_ok (fst pv) ∧ word_ok (snd pv)).
Abbreviation set_pair := (λ (o : Obj.t str) (pv : str * str),
  Obj.set o (fst pv) (snd pv)).

(** Trimming the declarations of a rule does not change what they
    declare. *)
Lemma rule_decls_trim sel (body : str) (o : Obj.t str) :
  rule_decls (Rule sel (Js.trim body)) o = rule_decls (Rule sel body) o.
Proof.
  unfold rule_decls. cbn [declarations].
  destruct (trimStart_split body) as (a & Ha & Hbody).
  destruct (trimEnd_split (Js.trimStart body)) as (b & Hb & Ht).
  fold (Js.trim body) in Ht. set (e := Js.trim body) in *.
  rewrite Hbody, Ht. clear Hbody Ht.
  rewrite split_pad_l by (apply blank_not_elem_of; done).
  destruct (split_pad_r ";" e b) as (init & z & -> & ->);
    [by apply blank_not_elem_of|].
  destruct init as [|i init]; cbn [app foldl].
  - by rewrite write_decl_pad_l, write_decl_pad_r.
  - rewrite write_decl_pad_l by done. rewrite !foldl_app. cbn [foldl].
    by rewrite write_decl_pad_r.
Qed.

Lemma padded_not_elem_of (x y : str) c :
  padded x y → c ∉ x → Js.is_space c = false → c ∉ y.
Proof.
  intros (a & b & Ha & Hb & ->) Hx Hc.
  rewrite !elem_of_app. intros [H|[H|H]]; [|done|];
    revert H; by apply blank_not_elem_of.
Qed.

Lemma write_decl_laid (o : Obj.t str) (p v p' v' : str) :
  word_ok p → word_ok v → padded p p' → padded v v' →
  write_decl o (p' ++ ":" ++ v') = Obj.set o p v.
Proof.
  intros (Hp1 & Hp2 & Hp3 & _) (Hv1 & Hv2 & Hv3 & _) Hp Hv.
  unfold write_decl.
  change (p' ++ ":" ++ v') with (p' ++ ":"%char :: v').
  rewrite split_app_sep by by eapply padded_not_elem_of.
  rewrite split_no_sep by by eapply padded_not_elem_of.
  cbn [map]. rewrite (trim_padded p p'), (trim_padded v v') by done.
  destruct p; [done|]. by destruct v.
Qed.

Lemma write_decl_blank (o : Obj.t str) (x : str) :
  blank x → write_decl o x = o.
Proof.
  intros Hx. rewrite <- (app_nil_r x), write_decl_pad_l by done.
  apply write_decl_empty.
Qed.

Lemma laid_decls_fold (d : Obj.t str) (ps : list str) :
  laid_decls d ps → Forall pair_ok d →
  ∀ o, foldl write_decl o ps = foldl set_pair o d.
Proof.
  induction 1 as [|x d ps Hx _ IH|p v p' v' d ps Hp Hv _ IH]; intros Hd o;
    cbn [foldl]; [done|..].
  - rewrite write_decl_blank by done. by apply IH.
  - apply Forall_cons in Hd as [[? ?] Hd]. cbn [fst snd] in *.
    rewrite (write_decl_laid o p v) by done. by apply IH.
Qed.

Lemma written_decls_fold (d : Obj.t str) :
  Forall pair_ok d →
  ∀ o, foldl write_decl o (Js.split ";" (write_decls d)) = foldl set_pair o d.
Proof.
  intros Hd o. rewrite split_write_decls by done. rewrite foldl_app.
  cbn [foldl]. rewrite write_decl_empty. revert o.
  induction Hd as [|[p v] d [Hp Hv] _ IH]; intros o; cbn [map foldl]; [done|].
  cbn [fst snd] in *. rewrite write_decl_pair by done. apply IH.
Qed.

(** *** The text between the braces *)

Lemma split_join c (ps : list str) :
  ps ≠ [] → Forall (λ x, c ∉ x) ps → Js.split c (join c ps) = ps.
Proof.
  intros Hne Hps. induction Hps as [|x ps Hx Hps IH]; [done|].
  destruct ps as [|y ps].
  - by apply split_no_sep.
  - change (join c (x :: y :: ps)) with (x ++ c :: join c (y :: ps)).
    rewrite split_app_sep by done. by rewrite IH.
Qed.

Lemma elem_of_join c (ps : list str) (x : str) a :
  x ∈ ps → a ∈ x → a ∈ join c ps.
Proof.
  intros Hx Ha. induction ps as [|y ps IH]; [by apply elem_of_nil in Hx|].
  apply elem_of_cons in Hx as [<-|Hx].
  - destruct ps; [done|].
    change (join c (x :: l :: ps)) with (x ++ c :: join c (l :: ps)).
    set_solver.
  - destruct ps as [|z ps]; [by apply elem_of_nil in Hx|].
    change (join c (y :: z :: ps)) with (y ++ c :: join c (z :: ps)).
    specialize (IH Hx). set_solver.
Qed.

Lemma not_elem_of_join c (ps : list str) a :
  a ≠ c → Forall (λ x, a ∉ x) ps → a ∉ join c ps.
Proof.
  intros Hac Hps. induction Hps as [|x ps Hx Hps IH]; [apply not_elem_of_nil|].
  destruct ps as [|y ps]; [done|].
  change (join c (x :: y :: ps)) with (x ++ c :: join c (y :: ps)).
  set_solver.
Qed.

Lemma laid_decls_pieces (d : Obj.t str) (ps : list str) :
  laid_decls d ps → Forall pair_ok d →
  Forall (λ x, (";"%char ∉ x) ∧ ("}"%char ∉ x)) ps.
Proof.
  induction 1 as [|x d ps Hx _ IH|p v p' v' d ps Hp Hv _ IH]; intros Hd;
    [constructor|..].
  - constructor; [|by apply IH].
    split; by apply blank_not_elem_of.
  - apply Forall_cons in Hd as [[Hwp Hwv] Hd]. cbn [fst snd] in *.
    constructor; [|by apply IH].
    destruct Hwp as (_ & _ & _ & ? & ?). destruct Hwv as (_ & _ & _ & ? & ?).
    split; rewrite !elem_of_app;
      (intros [Hin|[Hin|Hin]];
       [ revert Hin; by eapply padded_not_elem_of
       | apply list_elem_of_singleton in Hin; discriminate Hin
       | revert Hin; by eapply padded_not_elem_of ]).
Qed.

Lemma laid_decls_body (d : Obj.t str) (ps : list str) :
  laid_decls d ps → Forall pair_ok d → d ≠ [] →
  ps ≠ [] ∧ Js.trim (join ";" ps) ≠ [] ∧ ("}"%char ∉ join ";" ps).
Proof.
  intros Hl Hd Hne. pose proof (laid_decls_pieces d ps Hl Hd) as Hps.
  assert (∃ x a, x ∈ ps ∧ a ∈ x ∧ Js.is_space a = false) as (x & a & Hx & Ha & Hsp).
  { clear Hps. induction Hl as [|x d ps Hx _ IH|p v p' v' d ps Hp Hv _ IH];
      [done|..].
    - destruct (IH Hd Hne) as (y & a & ? & ? & ?).
      exists y, a. split_and!; [set_solver|done..].
    - apply Forall_cons in Hd as [[(Hp1 & [Hp2 _] & _) _] _].
      cbn [fst] in *. destruct p as [|a p]; [done|].
      exists (p' ++ ":" ++ v'), a. split_and!; [set_solver| |done].
      destruct Hp as (pa & pb & _ & _ & ->). set_solver. }
  split_and!.
  - intros ->. by apply elem_of_nil in Hx.
  - intros Hb%trim_nil. unfold blank in Hb. rewrite Forall_forall in Hb.
    rewrite (Hb a) in Hsp; [done|]. by eapply elem_of_join.
  - apply not_elem_of_join; [done|]. eapply Forall_impl; [exact Hps|].
    by intros ? [_ ?].
Qed.

End LaidDecls.

(** ** The layout of a style sheet is immaterial *)

Section LayoutFacts.
Import Re ReLib Text Css Layout.

Abbreviation pair_ok := (λ pv : str * str,
  word_ok (fst pv) ∧ word_ok (snd pv)).
Abbreviation set_pair := (λ (o : Obj.t str) (pv : str * str),
  Obj.set o (fst pv) (snd pv)).
Abbreviation group_ok := (λ sd : str * Obj.t str,
  selector_ok (fst sd) ∧ Forall pair_ok (snd sd)).
Abbreviation pieces_free := (λ (w : str) (sd : str * Obj.t str),
  free w (fst sd) ∧
  Forall (λ pv : str * str, free w (fst pv) ∧ free w (snd pv)) (snd sd)).
(** The rule [r] declares the group [sd]. *)
Abbreviation declares := (λ (r : rule) (sd : str * Obj.t str),
  selector r = fst sd ∧ ∀ o, rule_decls r o = foldl set_pair o (snd sd)).

(** *** A word that white space and separators cannot complete *)

Section Free.
Variable w : str.
Hypothesis w_ne : w ≠ [].
Hypothesis w_space : ∀ c, c ∈ w → Js.is_space c = false.

Lemma free_nil : free w [].
Proof. unfold free. clear w_space. by destruct w. Qed.

Lemma free_blank_l (a x : str) : blank a → free w x → free w (a ++ x).
Proof.
  intros Ha Hx. induction Ha as [|c a Hc _ IH]; [done|].
  cbn [app]. apply free_cons; [|done|done].
  intros Hin. apply w_space in Hin. congruence.
Qed.

Lemma free_blank (a : str) : blank a → free w a.
Proof.
  intros Ha. rewrite <- (app_nil_r a). apply free_blank_l; [done|].
  apply free_nil.
Qed.

Lemma free_blank_r (x b : str) : blank b → free w x → free w (x ++ b).
Proof.
  intros Hb Hx. destruct Hb as [|c b Hc Hb]; [by rewrite app_nil_r|].
  apply free_sep; [|done|by apply free_blank].
  intros Hin. apply w_space in Hin. congruence.
Qed.

Lemma free_padded (x y : str) : padded x y → free w x → free w y.
Proof.
  intros (a & b & Ha & Hb & ->) Hx.
  apply free_blank_l; [done|]. by apply free_blank_r.
Qed.

Hypothesis w_colon : ":"%char ∉ w.
Hypothesis w_semi : ";"%char ∉ w.
Hypothesis w_open : "{"%char ∉ w.
Hypothesis w_close : "}"%char ∉ w.

Lemma free_join (ps : list str) : Forall (free w) ps → free w (join ";" ps).
Proof.
  induction 1 as [|p ps Hp Hps IH]; [apply free_nil|].
  destruct ps as [|q ps]; [done|].
  change (join ";" (p :: q :: ps)) with (p ++ ";"%char :: join ";" (q :: ps)).
  by apply free_sep.
Qed.

Lemma free_laid_decls (d : Obj.t str) (ps : list str) :
  laid_decls d ps →
  Forall (λ pv : str * str, free w (fst pv) ∧ free w (snd pv)) d →
  Forall (free w) ps.
Proof.
  induction 1 as [|x d ps Hx _ IH|p v p' v' d ps Hp Hv _ IH]; intros Hd;
    [constructor|..].
  - constructor; [by apply free_blank|by apply IH].
  - apply Forall_cons in Hd as [[? ?] Hd]. cbn [fst snd] in *.
    constructor; [|by apply IH].
    apply (free_sep w p' ":"%char); [done|by eapply free_padded..].
Qed.

Lemma free_laid_out (G : grouping) (text : str) :
  laid_out G text → Forall (pieces_free w) G → free w text.
Proof.
  induction 1 as [tl Htl|sel sel' d ps G rest Hsel Hd _ IH]; intros HG.
  - by apply free_blank.
  - apply Forall_cons in HG as [[? ?] HG]. cbn [fst snd] in *.
    apply (free_sep w sel' "{"%char); [done|by eapply free_padded|].
    apply (free_sep w _ "}"%char); [done| |by apply IH].
    apply free_join. by eapply free_laid_decls.
Qed.

End Free.

Lemma laid_out_free (G : grouping) (text : str) :
  laid_out G text → plain_groups G = true →
  free "@media" text ∧ free "/*" text.
Proof.
  intros Hl (_ & Hm & Hc)%plain_groups_spec.
  split; (eapply free_laid_out; [done| |char_not_in..|exact Hl|done]);
    intros c Hc'; apply list_elem_of_In in Hc'; simpl in Hc';
    intuition (subst; done).
Qed.

(** *** Reading a text that is laid out *)

Lemma scan_laid total (G : grouping) (text tail : str) :
  laid_out G text → Forall group_ok G → Forall (λ sd, snd sd ≠ []) G →
  (∀ pre t, blank pre → t `suffix_of` pre ++ tail →
            match_here total ruleRegex t = None) →
  ∀ fuel, length (text ++ tail) < fuel →
  Forall2 (λ f sd, ∃ sel' ps, groups f = [(2, join ";" ps); (1, sel')] ∧
                              padded (fst sd) sel' ∧ laid_decls (snd sd) ps)
          (fst (scan fuel total ruleRegex (text ++ tail))) G.
Proof.
  intros Hl Hok Hne Htail.
  induction Hl as [tl Htl|sel sel' d ps G rest Hsel Hd _ IH];
    intros fuel Hfuel; (destruct fuel as [|fuel]; [lia|]);
    rewrite scan_S.
  - rewrite search_none; [constructor|].
    intros t Ht. by apply (Htail tl).
  - apply Forall_cons in Hok as [[Hs Hp] Hok].
    apply Forall_cons in Hne as [Hd0 Hne]. cbn [fst snd] in *.
    destruct Hs as (Hs1 & Hs2 & Hs3).
    destruct (laid_decls_body d ps Hd Hp Hd0) as (Hps & Hbody & Hclose).
    rewrite <- !app_assoc in *.
    rewrite (search_here _ _ _ (rest ++ tail) [(2, join ";" ps); (1, sel')]).
    2:{ apply rule_match; [| |by intros E; rewrite E in Hbody|done].
        - destruct Hsel as (a & b & _ & _ & ->). by destruct a, sel.
        - by eapply padded_not_elem_of. }
    cbn [after].
    assert (length (rest ++ tail) < fuel) as Hrest.
    { rewrite !length_app in Hfuel. simpl in Hfuel.
      rewrite length_app. lia. }
    specialize (IH Hok Hne fuel Hrest).
    destruct (scan fuel total ruleRegex (rest ++ tail)) as [fs tl].
    cbn [fst] in *. constructor; [|done]. by exists sel', ps.
Qed.

(** Nothing is read from white space. *)
Lemma blank_no_rule total (pre t : str) :
  blank pre → t `suffix_of` pre ++ [] →
  match_here total ruleRegex t = None.
Proof.
  intros Hpre Ht. apply rule_needs_brace. rewrite app_nil_r in Ht.
  intros Hin. eapply (blank_not_elem_of pre "{"%char); [done|done|].
  destruct Ht as [k ->]. set_solver.
Qed.

Lemma push_laid (G : grouping) (fs : list found) :
  Forall2 (λ f sd, ∃ sel' ps, groups f = [(2, join ";" ps); (1, sel')] ∧
                              padded (fst sd) sel' ∧ laid_decls (snd sd) ps)
          fs G →
  Forall group_ok G → Forall (λ sd, snd sd ≠ []) G →
  ∀ acc, ∃ rs, foldl push_rule acc fs = acc ++ rs ∧ Forall2 declares rs G.
Proof.
  induction 1 as [|f [sel d] fs G (sel' & ps & Hf & Hsel & Hd) _ IH];
    intros Hok Hne acc.
  - exists []. split; [by rewrite app_nil_r|constructor].
  - apply Forall_cons in Hok as [[Hs Hp] Hok].
    apply Forall_cons in Hne as [Hd0 Hne]. cbn [fst snd] in *.
    destruct Hs as (Hs1 & Hs2 & Hs3).
    destruct (laid_decls_body d ps Hd Hp Hd0) as (Hps & Hbody & Hclose).
    cbn [foldl].
    assert (push_rule acc f = acc ++ [Rule sel (Js.trim (join ";" ps))])
      as ->.
    { unfold push_rule, group. rewrite Hf. cbn [cap Nat.eqb default].
      unfold id.
      rewrite (trim_padded sel sel') by done.
      destruct sel; [done|]. by destruct (Js.trim (join ";" ps)). }
    destruct (IH Hok Hne (acc ++ [Rule sel (Js.trim (join ";" ps))]))
      as (rs & -> & Hrs).
    exists (Rule sel (Js.trim (join ";" ps)) :: rs).
    split; [by rewrite <- app_assoc|]. constructor; [|done].
    split; [done|]. intros o. cbn [snd]. rewrite rule_decls_trim.
    unfold rule_decls. cbn [declarations].
    rewrite split_join; [by apply laid_decls_fold|done|].
    eapply Forall_impl; [by eapply laid_decls_pieces|]. by intros ? [? _].
Qed.

(** The rules read from a text that lays out the groups [G], with a
    [tail] from which nothing is read: one for each group, with its selector
    and its declarations. *)
Lemma parse_laid_tail (G : grouping) (text tail : str) :
  laid_out G text → Forall group_ok G → plain_groups G = true →
  free "@media" (text ++ tail) → free "/*" (text ++ tail) →
  (∀ total pre t, blank pre → t `suffix_of` pre ++ tail →
                  match_here total ruleRegex t = None) →
  ∃ rs, parseCSSRules (text ++ tail) = Parsed rs [] ∧ Forall2 declares rs G.
Proof.
  intros Hl Hok Hplain Hm Hc Htail.
  apply plain_groups_spec in Hplain as (Hne & _ & _).
  unfold parseCSSRules. cbv zeta.
  rewrite (remove_comments_free _ Hc).
  assert (∀ t, t `suffix_of` text ++ tail →
               match_here (length (text ++ tail)) mediaRegex t = None)
    as Hnone.
  { intros t Ht. apply media_needs_word. by eapply free_startsWith. }
  rewrite (remove_none _ _ Hnone), (matchAll_none _ _ Hnone). cbn [fst map].
  unfold matchAll.
  pose proof (scan_laid (length (text ++ tail)) G text tail Hl Hok Hne
                (Htail _) (S (length (text ++ tail))) ltac:(lia)) as Hfs.
  destruct (push_laid G _ Hfs Hok Hne []) as (rs & -> & Hrs).
  by exists rs.
Qed.

Lemma parse_laid (G : grouping) (text : str) :
  laid_out G text → Forall group_ok G → plain_groups G = true →
  ∃ rs, parseCSSRules text = Parsed rs [] ∧ Forall2 declares rs G.
Proof.
  intros Hl Hok Hplain.
  destruct (laid_out_free G text Hl Hplain) as [Hm Hc].
  rewrite <- (app_nil_r text).
  apply parse_laid_tail; [done|done|done|by rewrite app_nil_r..|].
  intros total. apply blank_no_rule.
Qed.

(** *** Grouping depends on what a rule declares *)

Lemma set_get_id {V} (o : Obj.t V) k v :
  Obj.get o k = Some v → Obj.set o k v = o.
Proof.
  induction o as [|[k0 v0] o IH]; simpl; [done|].
  destruct (Obj.eqb k0 k) eqn:E; [by intros [= ->]|].
  intros H. by rewrite IH.
Qed.

Lemma set_set {V} (o : Obj.t V) k v v' :
  Obj.set (Obj.set o k v) k v' = Obj.set o k v'.
Proof.
  induction o as [|[k0 v0] o IH]; simpl.
  - by rewrite obj_eqb_refl.
  - destruct (Obj.eqb k0 k) eqn:E; simpl; rewrite E; [done|by rewrite IH].
Qed.

Lemma add_decl_at sel (g : grouping) o decl :
  Obj.get g sel = Some o →
  add_decl sel g decl = Obj.set g sel (write_decl o decl).
Proof.
  intros Hg. unfold add_decl, write_decl. rewrite Hg. cbn [default].
  destruct (map Js.trim _) as [|[|? ?] [|[|? ?] ?]]; try done;
    by rewrite set_get_id.
Qed.

Lemma add_decls_at sel ds : ∀ (g : grouping) o,
  Obj.get g sel = Some o →
  foldl (add_decl sel) g ds = Obj.set g sel (foldl write_decl o ds).
Proof.
  induction ds as [|x ds IH]; intros g o Hg; cbn [foldl].
  - by rewrite set_get_id.
  - rewrite (add_decl_at sel g o) by done.
    rewrite (IH _ (write_decl o x)) by apply get_set_eq.
    apply set_set.
Qed.

Lemma add_rule_decls (g : grouping) r :
  add_rule g r =
  match Obj.get g (selector r) with
  | Some o => Obj.set g (selector r) (rule_decls r o)
  | None => Obj.set g (selector r) (rule_decls r [])
  end.
Proof.
  unfold add_rule, rule_decls. destruct (Obj.get g (selector r)) eqn:E.
  - by apply add_decls_at.
  - rewrite (add_decls_at _ _ _ []) by apply get_set_eq. apply set_set.
Qed.

Lemma group_rules_declares (G : grouping) (rs rs' : list rule) :
  Forall2 declares rs G → Forall2 declares rs' G →
  ∀ acc, foldl add_rule acc rs = foldl add_rule acc rs'.
Proof.
  intros H. revert rs'.
  induction H as [|r sd rs G [Hs Hd] _ IH]; intros rs' H' acc.
  - by apply Forall2_nil_inv_r in H' as ->.
  - apply Forall2_cons_inv_r in H' as (r' & rs'' & [Hs' Hd'] & H' & ->).
    cbn [foldl]. rewrite (IH rs'' H').
    f_equal. rewrite !add_rule_decls, Hs, Hs'.
    destruct (Obj.get acc (fst sd)); by rewrite Hd, Hd'.
Qed.

(** *** The text of the writer is laid out *)

Lemma padded_refl (x : str) : padded x x.
Proof.
  exists [], []. split_and!; [constructor..|by rewrite app_nil_r].
Qed.

Lemma written_decls_laid (d : Obj.t str) :
  ∃ ps, laid_decls d ps ∧ ps ≠ [] ∧ join ";" ps = write_decls d.
Proof.
  induction d as [|[p v] d (ps & Hl & Hne & Hj)].
  - exists [[]]. split_and!; [|done..].
    apply laid_blank; constructor.
  - exists ((p ++ ":" ++ v) :: ps). split_and!; [|done|].
    + apply laid_decl; [apply padded_refl..|done].
    + rewrite write_decls_cons, <- Hj. destruct ps as [|q ps]; [done|].
      change (join ";" ((p ++ ":" ++ v) :: q :: ps))
        with ((p ++ ":" ++ v) ++ ";"%char :: join ";" (q :: ps)).
      by rewrite <- !app_assoc.
Qed.

Lemma written_laid_out (G : grouping) : laid_out G (write_groups G).
Proof.
  induction G as [|[sel d] G IH]; [apply laid_end; constructor|].
  rewrite write_groups_unfold.
  destruct (written_decls_laid d) as (ps & Hl & _ & <-).
  apply laid_rule; [apply padded_refl|done..].
Qed.

(** X23: The layout of a style sheet is immaterial.  A text that lays out
    the rules [G] one after the other, with any white space around the
    selectors, the properties and the values and with empty declarations
    anywhere between the semicolons, is optimized into the same output as
    the compact text of the same rules, whatever the filter.  Every rule
    has at least one declaration; the selectors, properties and values are
    the trimmed ones that the parser accepts and contain neither [@media]
    nor the opening of a comment; a selector may come several times. *)
Theorem layout_is_immaterial (G : grouping) (text : str)
    (U : option (gset str)) :
  laid_out G text →
  Forall (λ sd, selector_ok (fst sd) ∧
                Forall (λ pv, word_ok (fst pv) ∧ word_ok (snd pv)) (snd sd))
         G →
  plain_groups G = true →
  optimizeCSS text U = optimizeCSS (write_groups G) U.
Proof.
  intros Hl Hok Hplain.
  destruct (parse_laid G text Hl Hok Hplain) as (rs & Hp & Hrs).
  destruct (parse_laid G (write_groups G) (written_laid_out G) Hok Hplain)
    as (rs' & Hp' & Hrs').
  rewrite !optimizeCSS_eq. unfold emitted, merged, group_rules.
  rewrite Hp, Hp'. cbn [rules mediaRules].
  by rewrite (group_rules_declares G rs rs').
Qed.

Lemma layout_is_immaterial_witness :
  let G : grouping :=
    [(".a" : str, [("color" : str, "red" : str)]);
     (".a" : str, [("margin" : str, "0" : str)])] in
  let text : str :=
    " .a " ++ "{" ++ join ";" [" color : red " : str; "" : str; " " : str]
    ++ "}" ++ ".a" ++ "{" ++ join ";" ["margin:0" : str] ++ "}" ++ " " in
  laid_out G text ∧
  optimizeCSS text (Some ({[ "a" : str ]})) =
  optimizeCSS (write_groups G) (Some ({[ "a" : str ]})).
Proof.
  cbv zeta.
  assert (Hb : ∀ s : str, forallb Js.is_space s = true → blank s).
  { intros s Hs. apply Forall_forall. intros c Hc%list_elem_of_In.
    by apply (proj1 (forallb_forall _ _) Hs). }
  assert (Hl : laid_out
            [(".a" : str, [("color" : str, "red" : str)]);
             (".a" : str, [("margin" : str, "0" : str)])]
            (" .a " ++ "{" ++
             join ";" [" color : red " : str; "" : str; " " : str]
             ++ "}" ++ ".a" ++ "{" ++ join ";" ["margin:0" : str] ++ "}"
             ++ " ")).
  { apply laid_rule.
    - exists (" " : str), (" " : str). split_and!; [by apply Hb..|done].
    - apply (laid_decl "color" "red" " color " " red ").
      + exists (" " : str), (" " : str). split_and!; [by apply Hb..|done].
      + exists (" " : str), (" " : str). split_and!; [by apply Hb..|done].
      + apply laid_blank; [by apply Hb|].
        apply laid_blank; [by apply Hb|]. apply laid_none.
    - apply laid_rule.
      + apply padded_refl.
      + apply (laid_decl "margin" "0" "margin" "0");
          [apply padded_refl..|apply laid_none].
      + apply laid_end. by apply Hb. }
  split; [exact Hl|].
  refine (layout_is_immaterial _ _ _ Hl _ eq_refl).
  repeat first [ split | apply Forall_nil_2 | apply Forall_cons_2
               | discriminate | reflexivity | char_not_in | exact I ].
Defined.

End LayoutFacts.

(** ** A value with a colon *)

Section CssColon.
Import Re ReLib Text Css Layout.

Lemma scan_rule_nil total fuel : scan fuel total ruleRegex [] = ([], []).
Proof.
  destruct fuel as [|fuel]; [done|]. rewrite scan_S.
  rewrite search_none; [done|]. intros t Ht. apply rule_needs_brace.
  apply suffix_nil_inv in Ht as ->. apply not_elem_of_nil.
Qed.

(** The rules read from the text of one rule. *)
Lemma parse_one_rule (sel body : str) :
  sel ≠ [] → "{"%char ∉ sel → body ≠ [] → "}"%char ∉ body →
  plain (sel ++ "{" ++ body ++ "}") = true →
  parseCSSRules (sel ++ "{" ++ body ++ "}") =
  Parsed (match Js.trim sel, Js.trim body with
          | _ :: _, _ :: _ => [Rule (Js.trim sel) (Js.trim body)]
          | _, _ => []
          end) [].
Proof.
  intros Hs1 Hs2 Hb1 Hb2 [Hm Hc]%plain_free.
  unfold parseCSSRules. cbv zeta. rewrite (remove_comments_free _ Hc).
  set (text := sel ++ "{" ++ body ++ "}") in *.
  assert (∀ t, t `suffix_of` text →
               match_here (length text) mediaRegex t = None) as Hnone.
  { intros t Ht. apply media_needs_word. by eapply free_startsWith. }
  rewrite (remove_none _ _ Hnone), (matchAll_none _ _ Hnone). cbn [fst map].
  unfold matchAll. rewrite scan_S.
  rewrite (search_here _ _ text [] [(2, body); (1, sel)])
    by by apply (rule_match _ sel body []).
  cbn [after]. rewrite scan_rule_nil. cbn [fst foldl].
  unfold push_rule, group. cbn [groups cap Nat.eqb default]. unfold id.
  destruct (Js.trim sel); [done|]. by destruct (Js.trim body).
Qed.

Lemma write_decl_second_colon (o : Obj.t str) (p v w : str) :
  ":"%char ∉ p → ":"%char ∉ v →
  write_decl o (p ++ ":" ++ v ++ ":" ++ w) = write_decl o (p ++ ":" ++ v).
Proof.
  intros Hp Hv. unfold write_decl.
  change (p ++ ":" ++ v ++ ":" ++ w) with (p ++ ":"%char :: v ++ ":"%char :: w).
  change (p ++ ":" ++ v) with (p ++ ":"%char :: v).
  rewrite !split_app_sep, (split_no_sep _ v) by done. cbn [map].
  destruct (Js.trim p); [done|]. destruct (Js.trim v); [done|].
  by destruct (Js.split ":" w).
Qed.

Lemma colon_not_blank (x y : str) : Js.trim (x ++ ":" ++ y) ≠ [].
Proof.
  intros H%trim_nil. unfold blank in H. rewrite Forall_forall in H.
  specialize (H ":"%char). discriminate H. set_solver.
Qed.

(** X24: A value is cut at its second colon.  Where the only declaration of
    a rule is [p:v:w], the optimizer writes what it writes for [p:v]: the
    colon after [v] and the text [w] behind it are lost, as in
    [background:url(http://x)]. *)
Theorem value_cut_at_second_colon (sel p v w : str)
    (U : option (gset str)) :
  sel ≠ [] → "{"%char ∉ sel →
  ":"%char ∉ p → ":"%char ∉ v →
  ";"%char ∉ p ++ v ++ w → "}"%char ∉ p ++ v ++ w →
  plain (sel ++ "{" ++ (p ++ ":" ++ v ++ ":" ++ w) ++ "}") = true →
  optimizeCSS (sel ++ "{" ++ (p ++ ":" ++ v ++ ":" ++ w) ++ "}") U =
  optimizeCSS (sel ++ "{" ++ (p ++ ":" ++ v) ++ "}") U.
Proof.
  intros Hs1 Hs2 Hp Hv Hsemi Hclose Hplain.
  rewrite !not_elem_of_app in Hsemi, Hclose.
  destruct Hsemi as (Hp1 & Hv1 & Hw1), Hclose as (Hp2 & Hv2 & Hw2).
  assert (plain (sel ++ "{" ++ (p ++ ":" ++ v) ++ "}") = true) as Hplain'.
  { apply plain_free in Hplain as [Hm Hc].
    unfold plain. apply andb_true_iff.
    split; apply negb_true_iff;
      [ change (free "@media" (sel ++ "{" ++ (p ++ ":" ++ v) ++ "}"))
      | change (free "/*" (sel ++ "{" ++ (p ++ ":" ++ v) ++ "}")) ];
      (replace (sel ++ "{" ++ (p ++ ":" ++ v) ++ "}")
         with ((sel ++ "{" ++ p ++ ":" ++ v) ++ "}"%char :: [])
         by (by rewrite <- !app_assoc);
       apply free_sep; [char_not_in| |done];
       eapply (free_infix _ _ [] (":" ++ w ++ "}"));
       cbn [app]; rewrite <- !app_assoc).
    - by rewrite <- !app_assoc in Hm.
    - by rewrite <- !app_assoc in Hc. }
  rewrite !optimizeCSS_eq. unfold emitted, merged.
  rewrite !parse_one_rule; [|done|done|by destruct p|set_solver|done
                            |done|done|by destruct p|set_solver|done].
  cbn [rules mediaRules].
  pose proof (colon_not_blank p (v ++ ":" ++ w)) as H1.
  pose proof (colon_not_blank p v) as H2.
  destruct (Js.trim sel) as [|c s] eqn:Es; [done|]. rewrite <- Es. clear Es.
  destruct (Js.trim (p ++ ":" ++ v ++ ":" ++ w)) eqn:E1; [done|].
  destruct (Js.trim (p ++ ":" ++ v)) eqn:E2; [done|].
  rewrite <- E1, <- E2. unfold group_rules. cbn [foldl].
  rewrite !add_rule_decls. cbn [selector Obj.get].
  rewrite !rule_decls_trim. unfold rule_decls. cbn [declarations].
  rewrite !split_no_sep by set_solver. cbn [foldl].
  by rewrite write_decl_second_colon.
Qed.

Lemma value_cut_at_second_colon_witness :
  optimizeCSS (".a" ++ "{" ++ ("background" ++ ":" ++ "url(http" ++ ":"
                               ++ "//x.png)") ++ "}") None =
  optimizeCSS (".a" ++ "{" ++ ("background" ++ ":" ++ "url(http") ++ "}")
    None.
Proof.
  apply value_cut_at_second_colon;
    first [ discriminate | reflexivity | char_not_in ].
Defined.

End CssColon.

(** ** A rule behind a media block *)

Section CssSwallow.
Import Re ReLib Text Css Layout.

Abbreviation group_ok := (λ sd : str * Obj.t str,
  selector_ok (fst sd) ∧
  Forall (λ pv : str * str, word_ok (fst pv) ∧ word_ok (snd pv)) (snd sd)).

(** The text of a match of the rule pattern. *)
Lemma rule_shape total (t s' : str) cs :
  match_here total ruleRegex t = Some (s', cs) →
  ∃ sel body, t = sel ++ "{" ++ body ++ "}" ++ s' ∧
              ("{"%char ∉ sel) ∧ ("}"%char ∉ body).
Proof.
  unfold match_here, ruleRegex. cbn [Seq].
  rewrite rmatch_Cat, rmatch_Grp.
  intros (sel & rest & -> & Hsel & H)%rep1_cls_inv.
  rewrite take_app_length_diff in H.
  rewrite rmatch_Cat in H. apply rmatch_Lit_inv in H as (rest' & -> & H).
  rewrite rmatch_Cat, rmatch_Grp in H.
  apply rep1_cls_inv in H as (body & rest & -> & Hbody & H).
  rewrite take_app_length_diff in H.
  apply rmatch_Lit_inv in H as (rest' & -> & H).
  injection H as <- <-. exists sel, body. split_and!; [done| |].
  - eapply run_not_elem_of; [exact Hsel|]. by apply list_elem_of_singleton.
  - eapply run_not_elem_of; [exact Hbody|]. by apply list_elem_of_singleton.
Qed.

Lemma first_sep_inj (c : ascii) (a a' x x' : str) :
  c ∉ a → c ∉ a' → a ++ c :: x = a' ++ c :: x' → a = a' ∧ x = x'.
Proof.
  revert a'. induction a as [|b a IH]; intros [|b' a'] Ha Ha' E.
  - by injection E as <-.
  - injection E as <- _. set_solver.
  - injection E as -> _. set_solver.
  - injection E as <- E. apply not_elem_of_cons in Ha as [_ Ha].
    apply not_elem_of_cons in Ha' as [_ Ha'].
    destruct (IH a' Ha Ha' E) as [-> ->]. done.
Qed.

(** Nothing is read from a rule that is not closed. *)
Lemma open_rule_no_match total (u body t : str) :
  "{"%char ∉ u → "}"%char ∉ body → t `suffix_of` u ++ "{" ++ body →
  match_here total ruleRegex t = None.
Proof.
  intros Hu Hbody [k Hk].
  destruct (match_here total ruleRegex t) as [[s' cs]|] eqn:E; [|done].
  exfalso. apply rule_shape in E as (a & b & -> & Ha & Hb).
  change (u ++ "{" ++ body) with (u ++ "{"%char :: body) in Hk.
  change (a ++ "{" ++ b ++ "}" ++ s')
    with (a ++ "{"%char :: b ++ "}"%char :: s') in Hk.
  apply app_eq_inv in Hk as [(k' & Hu' & Hk)|(k' & _ & Hk)].
  - apply first_sep_inj in Hk as [_ <-]; [|done|].
    + set_solver.
    + subst u. set_solver.
  - destruct k' as [|c k'].
    + apply (first_sep_inj _ [] a) in Hk as [_ Hk];
        [subst body; set_solver|apply not_elem_of_nil|done].
    + injection Hk as _ ->. set_solver.
Qed.

Lemma scan_media_nil total fuel : scan fuel total mediaRegex [] = ([], []).
Proof.
  destruct fuel as [|fuel]; [done|]. rewrite scan_S.
  rewrite search_none; [done|]. intros t Ht. apply media_needs_word.
  by apply suffix_nil_inv in Ht as ->.
Qed.

(** A text that is one media block, whatever its content: the block is
    read, and no rule of the top level. *)
Lemma parse_block (q content : str) :
  tight q → "{"%char ∉ q → clear "@media" content →
  free "/*" ("@media " ++ q ++ "{" ++ content ++ "}") →
  parseCSSRules ("@media " ++ q ++ "{" ++ content ++ "}")
  = Parsed [] [MediaRule q content].
Proof.
  intros Hq1 Hq2 Hclear Hc. unfold parseCSSRules. cbv zeta.
  rewrite (remove_comments_free _ Hc).
  set (text := "@media " ++ q ++ "{" ++ content ++ "}") in *.
  destruct (media_block_match (length text) q content [] Hq1 Hq2 Hclear
              ltac:(by left)) as (cs & q1 & Hm & Hc1 & Htrim & Hc2).
  change ("@media " ++ q ++ "{" ++ content ++ "}" ++ []) with text in Hm.
  unfold remove, matchAll.
  rewrite (scan_S _ _ mediaRegex), (search_here _ _ _ _ _ Hm).
  cbn [after]. rewrite scan_media_nil.
  cbn [fst snd map concat skipped app]. rewrite scan_rule_nil.
  cbn [fst foldl]. unfold group. cbn [groups]. rewrite Hc1, Hc2.
  cbn [default]. unfold id. by rewrite Htrim.
Qed.

(** *** Where [@media] cannot start *)

Lemma clear_app w (s t : str) : clear w s → clear w t → clear w (s ++ t).
Proof.
  intros Hs Ht x rest Hx [k Hk].
  apply app_eq_inv in Hk as [(k' & -> & ->)|(k' & -> & ->)].
  - destruct k' as [|c k']; [by apply Ht|].
    rewrite <- app_assoc. apply Hs; [done|]. by exists k.
  - apply Ht; [done|]. by exists k'.
Qed.

Lemma clear_without_at (s : str) : "@"%char ∉ s → clear "@media" s.
Proof.
  intros Hs t rest Ht [k ->]. destruct t as [|a t]; [done|].
  destruct (Js.startsWith ((a :: t) ++ rest) "@media") eqn:E; [|done].
  apply startsWith_app in E as [u E]. injection E as -> _. set_solver.
Qed.

Lemma laid_out_last (G : grouping) (text : str) :
  laid_out G text → text ≠ [] →
  ∃ s c, text = s ++ [c] ∧ (c = "}"%char ∨ Js.is_space c = true).
Proof.
  induction 1 as [tl Htl|sel sel' d ps G rest Hsel Hd _ IH]; intros Hne.
  - destruct (exists_last Hne) as (s & c & ->). exists s, c.
    split; [done|]. right. apply blank_app in Htl as [_ Htl].
    by apply Forall_cons in Htl as [? _].
  - destruct rest as [|a rest].
    + exists (sel' ++ "{" ++ join ";" ps), "}"%char.
      split; [by rewrite <- !app_assoc|by left].
    + destruct (IH ltac:(done)) as (s & c & -> & Hc).
      exists (sel' ++ "{" ++ join ";" ps ++ "}" ++ s), c.
      split; [by rewrite <- !app_assoc|done].
Qed.

Lemma laid_out_clear (G : grouping) (text : str) :
  laid_out G text → plain_groups G = true → clear "@media" text.
Proof.
  intros Hl Hplain. destruct (laid_out_free G text Hl Hplain) as [Hm _].
  destruct (decide (text = [])) as [->|Hne]; [apply clear_nil|].
  destruct (laid_out_last G text Hl Hne) as (s & c & -> & Hc).
  apply free_clear; [done|]. intros Hin.
  apply list_elem_of_In in Hin. simpl in Hin.
  destruct Hc as [->|Hc]; [intuition discriminate|].
  intuition (subst; discriminate).
Qed.

(** X25: A rule behind a media block is lost.  Where a media block whose
    content lays out the rules [G] is followed by one more rule
    [sel{body}], the media pattern runs on to the last closing brace of the
    text: the rule becomes an unclosed tail of the content of the block, so
    that it is read neither at the top level nor in the block, and the
    output is the output for the block alone. *)
Theorem rule_behind_media_block_is_lost (G : grouping)
    (q inner sel body : str) (U : option (gset str)) :
  tight q → "{"%char ∉ q → free "/*" q →
  laid_out G inner →
  Forall (λ sd, selector_ok (fst sd) ∧
                Forall (λ pv, word_ok (fst pv) ∧ word_ok (snd pv)) (snd sd))
         G →
  plain_groups G = true →
  "{"%char ∉ sel → "}"%char ∉ body → "@"%char ∉ sel ++ body →
  free "/*" (sel ++ "{" ++ body) →
  optimizeCSS ("@media " ++ q ++ "{" ++ inner ++ "}"
               ++ sel ++ "{" ++ body ++ "}") U =
  optimizeCSS ("@media " ++ q ++ "{" ++ inner ++ "}") U.
Proof.
  intros Hq1 Hq2 Hq3 Hl Hok Hplain Hsel Hbody Hat Hc.
  destruct (laid_out_free G inner Hl Hplain) as [Him Hic].
  pose proof (laid_out_clear G inner Hl Hplain) as Hclear.
  set (tail := "}" ++ sel ++ "{" ++ body).
  assert (clear "@media" tail) as Htc.
  { apply clear_without_at. unfold tail.
    rewrite not_elem_of_app in Hat. destruct Hat as [? ?].
    change ("}" ++ sel ++ "{" ++ body)
      with ("}"%char :: sel ++ "{"%char :: body).
    rewrite not_elem_of_cons, not_elem_of_app, not_elem_of_cons. done. }
  assert (free "/*" tail) as Htf.
  { apply free_cons; [char_not_in|done|done]. }
  assert (free "/*" (inner ++ tail)) as Hcf.
  { unfold tail. by apply (free_sep "/*" inner "}"%char); [char_not_in|..]. }
  assert (clear "@media" (inner ++ tail)) as Hcc by by apply clear_app.
  assert (free "@media" (inner ++ tail)) as Hcm.
  { unfold free. destruct (Js.includes (inner ++ tail) "@media") eqn:E;
      [|done].
    apply includes_app in E as (pre & post & E).
    destruct ("@media" ++ post) as [|a t] eqn:Et; [done|].
    pose proof (Hcc (a :: t) [] ltac:(done) ltac:(by exists pre)) as H0.
    rewrite app_nil_r, <- Et in H0.
    change (Js.startsWith ("@media" ++ post) "@media") with true in H0.
    done. }
  assert (free "/*" ("@media " ++ q ++ "{" ++ inner ++ "}")) as Hf2.
  { change ("@media " ++ ?x) with
      ("@"%char :: "m"%char :: "e"%char :: "d"%char :: "i"%char :: "a"%char
       :: " "%char :: x).
    do 7 (apply free_cons; [char_not_in|done|]).
    apply (free_sep "/*" q "{"%char); [char_not_in|done|].
    by apply (free_sep "/*" inner "}"%char); [char_not_in|..]. }
  assert (free "/*" ("@media " ++ q ++ "{" ++ (inner ++ tail) ++ "}")) as Hf1.
  { change ("@media " ++ ?x) with
      ("@"%char :: "m"%char :: "e"%char :: "d"%char :: "i"%char :: "a"%char
       :: " "%char :: x).
    do 7 (apply free_cons; [char_not_in|done|]).
    apply (free_sep "/*" q "{"%char); [char_not_in|done|].
    by apply (free_sep "/*" (inner ++ tail) "}"%char); [char_not_in|..]. }
  replace ("@media " ++ q ++ "{" ++ inner ++ "}" ++ sel ++ "{" ++ body ++ "}")
    with ("@media " ++ q ++ "{" ++ (inner ++ tail) ++ "}")
    by (unfold tail; by rewrite <- !app_assoc).
  rewrite !optimizeCSS_eq. unfold emitted, merged.
  rewrite !parse_block by done. cbn [rules mediaRules map concat].
  rewrite !app_nil_r. f_equal.
  rewrite !media_text_eq. unfold media_emitted. cbn [content query].
  destruct (parse_laid G inner Hl Hok Hplain) as (rs & -> & Hrs).
  destruct (parse_laid_tail G inner tail Hl Hok Hplain Hcm Hcf)
    as (rs' & -> & Hrs').
  { intros total pre t Hpre Ht. unfold tail in Ht.
    apply (open_rule_no_match total (pre ++ "}" ++ sel) body); [|done|].
    - rewrite !not_elem_of_app. split_and!; [|char_not_in|done].
      by apply blank_not_elem_of.
    - by rewrite <- !app_assoc. }
  cbn [rules]. unfold group_rules.
  by rewrite (group_rules_declares G rs' rs).
Qed.

Lemma rule_behind_media_block_is_lost_witness :
  let G : grouping := [(".a" : str, [("b" : str, "c" : str)])] in
  let inner : str := " .a " ++ "{" ++ join ";" ["b:c" : str] ++ "}" ++ "" in
  laid_out G inner ∧
  optimizeCSS ("@media " ++ "(x)" ++ "{" ++ inner ++ "}"
               ++ ".d" ++ "{" ++ "e:f" ++ "}") None =
  optimizeCSS ("@media " ++ "(x)" ++ "{" ++ inner ++ "}") None.
Proof.
  cbv zeta.
  assert (Hl : laid_out [(".a" : str, [("b" : str, "c" : str)])]
                 (" .a " ++ "{" ++ join ";" ["b:c" : str] ++ "}" ++ "")).
  { apply laid_rule.
    - exists (" " : str), (" " : str).
      split_and!; [by repeat constructor..|done].
    - apply (laid_decl "b" "c" "b" "c");
        [apply padded_refl..|apply laid_none].
    - apply laid_end. constructor. }
  split; [exact Hl|].
  refine (rule_behind_media_block_is_lost _ "(x)" _ ".d" "e:f" None
            _ _ _ Hl _ eq_refl _ _ _ _);
    repeat first [ split | apply Forall_nil_2 | apply Forall_cons_2
                 | discriminate | reflexivity | char_not_in | exact I ].
Defined.

End CssSwallow.

(** ** The run on ordinary style sheets *)

Section RunOrdinary.
Import Re ReLib Text Css Dict.

Abbreviation effective := (λ decl : str,
  match map Js.trim (Js.split ":" decl) with
  | (_ :: _) as prop :: (_ :: _) as val :: _ => Some (prop, val)
  | _ => None
  end).
Abbreviation og := (λ sd : str * Obj.t str,
  Run.ordinary_selector (fst sd) = true ∧
  Forall (λ pv : str * str, Run.ordinary_property (fst pv) = true) (snd sd)).

Lemma bind_returns {A B} (m : M A) (k : A → M B) h a h' :
  m h = (Returns a, h') → bind m k h = k a h'.
Proof. intros H. unfold bind. by rewrite H. Qed.

Lemma bind_throws {A B} (m : M A) (k : A → M B) h h' :
  m h = (Throws, h') → bind m k h = (Throws, h').
Proof. intros H. unfold bind. by rewrite H. Qed.

Lemma forallb_omap {A B} (f : A → option B) (P : B → bool) (l : list A) :
  forallb P (omap f l) = true →
  Forall (λ x, ∀ y, f x = Some y → P y = true) l.
Proof.
  induction l as [|x l IH]; intros H; [constructor|].
  cbn in H. destruct (f x) as [y|] eqn:E; cbn [forallb] in H.
  - apply andb_true_iff in H as [Hy H]. constructor; [|by apply IH].
    intros y' Hy'. rewrite E in Hy'. by injection Hy' as <-.
  - constructor; [|by apply IH]. intros y' Hy'. by rewrite E in Hy'.
Qed.

Lemma ordinary_groups_spec (g : grouping) :
  Run.ordinary_groups g = true ↔ Forall og g.
Proof.
  unfold Run.ordinary_groups. rewrite forallb_forall, Forall_forall.
  split; intros H sd Hsd.
  - apply list_elem_of_In, H in Hsd.
    apply andb_true_iff in Hsd as [? Hd]. split; [done|].
    rewrite forallb_forall in Hd. apply Forall_forall.
    intros pv Hpv. by apply Hd, list_elem_of_In.
  - apply list_elem_of_In, H in Hsd as [Hs Hd].
    apply andb_true_iff. split; [done|].
    apply forallb_forall. intros pv Hpv.
    rewrite Forall_forall in Hd. by apply Hd, list_elem_of_In.
Qed.

(** *** The order of [Object.keys] *)

Lemma ordinary_selector_index k :
  Run.ordinary_selector k = true → is_index k = false.
Proof.
  unfold Run.ordinary_selector. intros [[H _]%andb_true_iff _]%andb_true_iff.
  by apply negb_true_iff.
Qed.

Lemma ordinary_property_index k :
  Run.ordinary_property k = true → is_index k = false.
Proof.
  unfold Run.ordinary_property. intros [H _]%andb_true_iff.
  by apply negb_true_iff.
Qed.

Lemma ordered_id {V} (o : Obj.t V) :
  Forall (λ e, is_index (fst e) = false) o → ordered o = o.
Proof.
  intros H. unfold ordered.
  assert (indexed o = []) as ->.
  { induction H as [|e o He _ IH]; [done|]. unfold indexed in *.
    cbn [foldr]. unfold is_index in He.
    by destruct (array_index (fst e)). }
  cbn [map app]. induction H as [|e o He _ IH]; [done|].
  cbn [List.filter]. by rewrite He, IH.
Qed.

Lemma keys_returns {V} (o : Obj.t V) h :
  keys_fn h = true → keys o h = (Returns (Obj.keys (ordered o)), h).
Proof. intros H. unfold keys. by rewrite H. Qed.

(** *** Grouping *)

Lemma lookup_ordinary (g : grouping) sel h :
  Run.ordinary_selector sel = true → added h = [] →
  lookup g sel h =
  (Returns match Obj.get g sel with
           | Some decls => Own decls
           | None => Undefined
           end, h).
Proof.
  unfold Run.ordinary_selector.
  intros [[_ Hp%negb_true_iff]%andb_true_iff Hm%negb_true_iff]%andb_true_iff
         Hh.
  unfold lookup. rewrite Hp, Hh, Hm. by destruct (Obj.get g sel).
Qed.

Lemma lookup_own (g : grouping) sel decls h :
  Obj.get g sel = Some decls → lookup g sel h = (Returns (Own decls), h).
Proof. intros H. unfold lookup. by rewrite H. Qed.

Lemma add_decl_ordinary sel (g : grouping) decl h :
  is_Some (Obj.get g sel) →
  (∀ pv, effective decl = Some pv → Run.ordinary_property (fst pv) = true) →
  Run.add_decl sel g decl h = (Returns (add_decl sel g decl), h).
Proof.
  intros [d Hd] Hp. unfold Run.add_decl, add_decl.
  destruct (map Js.trim (Js.split ":" decl)) as [|[|a p] [|[|b v] l]];
    try done.
  specialize (Hp _ eq_refl). cbn [fst] in Hp.
  unfold Run.ordinary_property in Hp.
  apply andb_true_iff in Hp as [_ Hp%negb_true_iff].
  unfold assign. rewrite (bind_returns _ _ _ _ _ (lookup_own g sel d h Hd)).
  by rewrite Hp, Hd.
Qed.

Lemma add_decls_ordinary sel ds : ∀ (g : grouping) h,
  is_Some (Obj.get g sel) →
  Forall (λ decl, ∀ pv, effective decl = Some pv →
                        Run.ordinary_property (fst pv) = true) ds →
  forEach (Run.add_decl sel) ds g h
  = (Returns (foldl (add_decl sel) g ds), h).
Proof.
  induction ds as [|decl ds IH]; intros g h Hg Hds; [done|].
  apply Forall_cons in Hds as [Hd Hds]. cbn [forEach foldl].
  rewrite (bind_returns _ _ _ _ _ (add_decl_ordinary sel g decl h Hg Hd)).
  apply IH; [by apply add_decl_get|done].
Qed.

Lemma add_rule_ordinary (g : grouping) r h :
  added h = [] → Run.ordinary_selector (selector r) = true →
  forallb (λ pv, Run.ordinary_property (fst pv)) (Run.writes r) = true →
  Run.add_rule g r h = (Returns (add_rule g r), h).
Proof.
  intros Hh Hs Hw. unfold Run.add_rule, add_rule.
  rewrite (bind_returns _ _ _ _ _ (lookup_ordinary g (selector r) h Hs Hh)).
  apply forallb_omap in Hw.
  destruct (Obj.get g (selector r)) as [d|] eqn:E; cbn [falsy].
  - apply add_decls_ordinary; [by rewrite E|done].
  - apply add_decls_ordinary; [by rewrite get_set_eq|done].
Qed.

Lemma add_rules_ordinary rs : ∀ (g : grouping) h,
  added h = [] → Run.ordinary_rules rs = true →
  forEach Run.add_rule rs g h = (Returns (foldl add_rule g rs), h).
Proof.
  induction rs as [|r rs IH]; intros g h Hh Hrs; [done|].
  cbn [Run.ordinary_rules forallb] in Hrs.
  apply andb_true_iff in Hrs as [[Hs Hw]%andb_true_iff Hrs].
  cbn [forEach foldl].
  rewrite (bind_returns _ _ _ _ _ (add_rule_ordinary g r h Hh Hs Hw)).
  by apply IH.
Qed.

Lemma group_rules_ordinary rs h :
  added h = [] → Run.ordinary_rules rs = true →
  Run.group_rules rs h = (Returns (group_rules rs), h).
Proof. apply add_rules_ordinary. Qed.

(** The groups of ordinary rules are ordinary. *)
Lemma add_decl_og sel (g : grouping) decl :
  Run.ordinary_selector sel = true →
  (∀ pv, effective decl = Some pv → Run.ordinary_property (fst pv) = true) →
  Forall og g → Forall og (add_decl sel g decl).
Proof.
  intros Hs Hp Hg. unfold add_decl. cbv beta in Hp.
  destruct (map Js.trim (Js.split ":" decl)) as [|[|a p] [|[|b v] l]];
    try done.
  specialize (Hp _ eq_refl). cbn [fst] in Hp.
  apply Forall_set; [done|]. split; [done|]. cbn [snd].
  apply Forall_set; [|done].
  destruct (Obj.get g sel) as [d|] eqn:E; [|constructor].
  by destruct (Forall_get _ _ _ _ Hg E).
Qed.

Lemma add_rule_og (g : grouping) r :
  Run.ordinary_selector (selector r) = true →
  forallb (λ pv, Run.ordinary_property (fst pv)) (Run.writes r) = true →
  Forall og g → Forall og (add_rule g r).
Proof.
  intros Hs Hw%forallb_omap Hg. unfold add_rule.
  set (ds := Js.split ";" (declarations r)) in *. clearbody ds.
  set (g0 := match Obj.get g (selector r) with
             | Some _ => g
             | None => Obj.set g (selector r) []
             end).
  assert (Forall og g0) as Hg0.
  { subst g0. destruct (Obj.get g (selector r)); [done|].
    apply Forall_set; [done|]. split; [done|constructor]. }
  clearbody g0. revert g0 Hg0.
  induction Hw as [|decl ds Hd _ IH]; intros g0 Hg0; [done|].
  cbn [foldl]. apply IH. by apply add_decl_og.
Qed.

Lemma group_rules_og rs :
  Run.ordinary_rules rs = true → Forall og (group_rules rs).
Proof.
  unfold group_rules. intros Hrs.
  assert (Forall og ([] : grouping)) as Hg by constructor.
  revert Hg. generalize ([] : grouping).
  induction rs as [|r rs IH]; intros g Hg; [done|].
  cbn [Run.ordinary_rules forallb] in Hrs.
  apply andb_true_iff in Hrs as [[Hs Hw]%andb_true_iff Hrs].
  cbn [foldl]. apply IH; [done|]. by apply add_rule_og.
Qed.

Lemma drop_unused_og U (g : grouping) :
  Forall og g → Forall og (drop_unused U g).
Proof.
  destruct U as [u|]; [|done]. unfold drop_unused.
  generalize (Obj.keys g). intros ks. revert g.
  induction ks as [|k ks IH]; intros g Hg; [done|].
  cbn [foldl]. apply IH. destruct (unused u k); [|done].
  by apply Forall_delete.
Qed.

Lemma og_ordered (g : grouping) : Forall og g → ordered g = g.
Proof.
  intros H. apply ordered_id. eapply Forall_impl; [exact H|].
  intros sd [Hs _]. by apply ordinary_selector_index.
Qed.

Lemma og_ordered_decls (g : grouping) :
  Forall og g → map (λ sd, (fst sd, ordered (snd sd))) g = g.
Proof.
  induction 1 as [|[sel d] g [_ Hd] _ IH]; [done|].
  cbn [map fst snd] in *. rewrite IH. f_equal. f_equal. apply ordered_id.
  eapply Forall_impl; [exact Hd|].
  intros pv Hp. by apply ordinary_property_index.
Qed.

(** *** The filter *)

Lemma drop_unused_ordinary U (g : grouping) h :
  keys_fn h = true → Forall og g →
  Run.drop_unused U g h = (Returns (drop_unused U g), h).
Proof.
  intros Hh Hg. destruct U as [u|]; [|done].
  unfold Run.drop_unused, drop_unused.
  rewrite (bind_returns _ _ _ _ _ (keys_returns g h Hh)).
  by rewrite og_ordered.
Qed.

(** *** The writer *)

Abbreviation wf := (λ g : grouping,
  NoDup (Obj.keys g) ∧ Forall (λ sd, NoDup (Obj.keys (snd sd))) g).

Lemma get_elem {V} (o : Obj.t V) k v :
  NoDup (Obj.keys o) → (k, v) ∈ o → Obj.get o k = Some v.
Proof.
  induction o as [|[k0 v0] o IH]; intros Hnd Hin; [by apply elem_of_nil in Hin|].
  cbn [Obj.keys map fst] in Hnd. apply NoDup_cons in Hnd as [Hk Hnd].
  cbn [Obj.get]. apply elem_of_cons in Hin as [[= -> ->]|Hin].
  - by rewrite obj_eqb_refl.
  - rewrite obj_eqb_ne; [by apply IH|]. intros ->. apply Hk.
    apply list_elem_of_fmap. by exists (k, v).
Qed.

Lemma elem_of_get {V} (o : Obj.t V) k v :
  Obj.get o k = Some v → (k, v) ∈ o.
Proof.
  intros (o1 & o2 & -> & _)%get_Some_split. set_solver.
Qed.

Lemma elem_of_insert {V} (n : N) (e : str * V) l x :
  x ∈ insert n e l ↔ x = (n, e) ∨ x ∈ l.
Proof.
  induction l as [|[m e'] l IH]; cbn [insert]; [set_solver|].
  destruct (n <? m)%N; [set_solver|]. rewrite !elem_of_cons, IH. tauto.
Qed.

Lemma elem_of_indexed {V} (o : Obj.t V) n e :
  (n, e) ∈ indexed o ↔ e ∈ o ∧ array_index (fst e) = Some n.
Proof.
  unfold indexed. induction o as [|e0 o IH]; cbn [foldr]; [set_solver|].
  destruct (array_index (fst e0)) as [m|] eqn:E.
  - rewrite elem_of_insert, IH, elem_of_cons. split.
    + intros [[= -> ->]|[? ?]]; [by split; [left|]|by split; [right|]].
    + intros [[->|?] Hn]; [left|right; done]. congruence.
  - rewrite IH, elem_of_cons. split; [naive_solver|].
    intros [[->|?] Hn]; [congruence|done].
Qed.

Lemma elem_of_ordered {V} (o : Obj.t V) e : e ∈ ordered o ↔ e ∈ o.
Proof.
  unfold ordered. rewrite elem_of_app, list_elem_of_fmap.
  rewrite list_elem_of_In, filter_In, <- list_elem_of_In.
  unfold is_index. split.
  - intros [([n e'] & -> & H)|[H _]]; [|done].
    by apply elem_of_indexed in H as [? _].
  - intros H. destruct (array_index (fst e)) as [n|] eqn:E; [left|by right].
    exists (n, e). split; [done|]. by apply elem_of_indexed.
Qed.

Lemma fold_keys (f : str → str → str) (d : Obj.t str) :
  NoDup (Obj.keys d) →
  ∀ (l : Obj.t str) (out : str), (∀ e, e ∈ l → e ∈ d) →
    foldl (λ out k, out ++ f k (default [] (Obj.get d k))) out (Obj.keys l)
    = out ++ concat (map (λ e, f (fst e) (snd e)) l).
Proof.
  intros Hnd. induction l as [|[k v] l IH]; intros out Hl.
  - by rewrite app_nil_r.
  - cbn [Obj.keys map fst snd foldl concat].
    rewrite (get_elem d k v) by (done || set_solver). cbn [default].
    fold (Obj.keys l). rewrite IH by set_solver. by rewrite <- app_assoc.
Qed.

Lemma write_decls_returns (d : Obj.t str) (out : str) h :
  keys_fn h = true → NoDup (Obj.keys d) →
  Run.write_decls d out h = (Returns (out ++ write_decls (ordered d)), h).
Proof.
  intros Hh Hnd. unfold Run.write_decls.
  rewrite (bind_returns _ _ _ _ _ (keys_returns d h Hh)). unfold ret.
  rewrite (fold_keys (λ p v, p ++ ":" ++ v ++ ";") d Hnd)
    by (intros e; apply elem_of_ordered).
  rewrite write_decls_concat. apply (f_equal (λ x, (Returns x, h))).
  apply (f_equal (app out)), (f_equal (@concat ascii)).
  apply map_ext. by intros [p v].
Qed.

Lemma write_groups_returns (g : grouping) (out : str) h :
  keys_fn h = true → wf g →
  Run.write_groups g out h = (Returns (out ++ Run.groups_text g), h).
Proof.
  intros Hh [Hnd Hd]. unfold Run.write_groups, Run.groups_text.
  rewrite (bind_returns _ _ _ _ _ (keys_returns g h Hh)).
  assert (∀ e, e ∈ ordered g → e ∈ g) as Hl
    by (intros e; apply elem_of_ordered).
  revert out Hl. generalize (ordered g). intros l.
  induction l as [|[sel d] l IH]; intros out Hl.
  - cbn. by rewrite app_nil_r.
  - cbn [Obj.keys map fst snd forEach]. fold (Obj.keys l).
    assert ((sel, d) ∈ g) as Hsd by set_solver.
    rewrite (get_elem g sel d) by done. cbn [default].
    rewrite Forall_forall in Hd.
    erewrite bind_returns; cycle 1.
    { erewrite bind_returns;
        [|apply write_decls_returns; [done|apply (Hd _ Hsd)]].
      reflexivity. }
    rewrite IH by set_solver.
    rewrite write_groups_cons. unfold group_text.
    by rewrite <- !app_assoc.
Qed.

Lemma groups_text_ordinary (g : grouping) :
  Forall og g → Run.groups_text g = write_groups g.
Proof.
  intros Hg. unfold Run.groups_text.
  by rewrite og_ordered, og_ordered_decls.
Qed.

(** *** The whole run *)

Lemma parsed_wf U (css : str) :
  wf (drop_unused U (group_rules (rules (parseCSSRules css)))).
Proof.
  destruct (parsed_groups_ok U css) as [Hnd Hg]. split; [done|].
  eapply Forall_impl; [exact Hg|]. by intros sd [_ [? _]].
Qed.

Lemma emitted_ordinary U rs h :
  added h = [] → keys_fn h = true → Run.ordinary_rules rs = true →
  (let* g := Run.group_rules rs in Run.drop_unused U g) h
  = (Returns (drop_unused U (group_rules rs)), h).
Proof.
  intros Ha Hk Hrs.
  rewrite (bind_returns _ _ _ _ _ (group_rules_ordinary rs h Ha Hrs)).
  apply drop_unused_ordinary; [done|]. by apply group_rules_og.
Qed.

Lemma write_media_ordinary U out m h :
  added h = [] → keys_fn h = true →
  Run.ordinary_rules (rules (parseCSSRules (content m))) = true →
  Run.write_media U out m h = (Returns (write_media U out m), h).
Proof.
  intros Ha Hk Hrs. unfold Run.write_media, write_media. cbv zeta.
  set (rs := rules (parseCSSRules (content m))) in *.
  rewrite (bind_returns _ _ _ _ _ (group_rules_ordinary rs h Ha Hrs)).
  pose proof (group_rules_og rs Hrs) as Hg.
  rewrite (bind_returns _ _ _ _ _ (drop_unused_ordinary U _ h Hk Hg)).
  pose proof (drop_unused_og U _ Hg) as Hg'.
  rewrite (bind_returns _ _ _ _ _ (keys_returns _ h Hk)).
  rewrite (og_ordered _ Hg').
  destruct (0 <? length (Obj.keys (drop_unused U (group_rules rs))));
    [|done].
  subst rs.
  rewrite (bind_returns _ _ _ _ _
             (write_groups_returns _ _ h Hk (parsed_wf U (content m)))).
  unfold ret. rewrite (groups_text_ordinary _ Hg').
  by rewrite <- !app_assoc.
Qed.

Lemma write_medias_ordinary U ms : ∀ out h,
  added h = [] → keys_fn h = true →
  forallb (λ m, Run.ordinary_rules (rules (parseCSSRules (content m)))) ms
  = true →
  forEach (Run.write_media U) ms out h
  = (Returns (foldl (write_media U) out ms), h).
Proof.
  induction ms as [|m ms IH]; intros out h Ha Hk Hms; [done|].
  cbn [forallb] in Hms. apply andb_true_iff in Hms as [Hm Hms].
  cbn [forEach foldl].
  rewrite (bind_returns _ _ _ _ _ (write_media_ordinary U out m h Ha Hk Hm)).
  by apply IH.
Qed.

(** On an ordinary style sheet, with the built-in objects as the language
    defines them, the run returns what [Css.optimizeCSS] computes and
    leaves the built-in objects as they are. *)
Lemma run_ordinary (css : str) U :
  Run.ordinary css = true →
  Run.optimizeCSS css U pristine = (Returns (optimizeCSS css U), pristine).
Proof.
  unfold Run.ordinary. cbv zeta. intros [Hrs Hms]%andb_true_iff.
  unfold Run.optimizeCSS, optimizeCSS. cbv zeta.
  rewrite (bind_returns _ _ _ _ _
             (group_rules_ordinary _ pristine eq_refl Hrs)).
  pose proof (group_rules_og _ Hrs) as Hg.
  rewrite (bind_returns _ _ _ _ _
             (drop_unused_ordinary U _ pristine eq_refl Hg)).
  rewrite (bind_returns _ _ _ _ _
             (write_groups_returns _ [] pristine eq_refl (parsed_wf U css))).
  rewrite (groups_text_ordinary _ (drop_unused_og U _ Hg)).
  cbn [app]. by apply write_medias_ordinary.
Qed.

Lemma merged_ordinary (css : str) :
  Run.ordinary css = true →
  Run.merged css pristine = (Returns (merged css), pristine).
Proof.
  unfold Run.ordinary. cbv zeta. intros [Hrs _]%andb_true_iff.
  by apply group_rules_ordinary.
Qed.

Lemma emitted_run_ordinary (css : str) U :
  Run.ordinary css = true →
  Run.emitted css U pristine = (Returns (emitted css U), pristine).
Proof.
  unfold Run.ordinary. cbv zeta. intros [Hrs _]%andb_true_iff.
  by apply emitted_ordinary.
Qed.

Lemma media_emitted_ordinary (css : str) U m :
  Run.ordinary css = true → m ∈ mediaRules (parseCSSRules css) →
  Run.media_emitted U m pristine = (Returns (media_emitted U m), pristine).
Proof.
  unfold Run.ordinary. cbv zeta. intros [_ Hms]%andb_true_iff Hm.
  rewrite forallb_forall in Hms.
  apply emitted_ordinary; [done..|]. by apply Hms, list_elem_of_In.
Qed.

End RunOrdinary.

(** ** The filter and the writer on any dictionary *)

Section RunFilter.
Import Re ReLib Text Css Dict.

Abbreviation wf := (λ g : grouping,
  NoDup (Obj.keys g) ∧ Forall (λ sd, NoDup (Obj.keys (snd sd))) g).

Lemma forEach_invariant {A S} (P : S → Prop) (f : S → A → M S) (l : list A) :
  (∀ s a h s' h', f s a h = (Returns s', h') → P s → P s') →
  ∀ s h s' h', forEach f l s h = (Returns s', h') → P s → P s'.
Proof.
  intros Hf. induction l as [|a l IH]; intros s h s' h' H Hs.
  - injection H as <- _. done.
  - cbn [forEach] in H. unfold bind in H.
    destruct (f s a h) as [[s1|] h1] eqn:E; [|done].
    apply (IH _ _ _ _ H). by eapply Hf.
Qed.

(** *** The dictionaries of the run have no key twice *)

Lemma set_wf (g : grouping) k d :
  wf g → NoDup (Obj.keys d) → wf (Obj.set g k d).
Proof.
  intros [Hnd Hd] Hk. split; [by apply keys_set_NoDup|].
  by apply Forall_set.
Qed.

Lemma assign_wf (g : grouping) k prop val h g' h' :
  assign g k prop val h = (Returns g', h') → wf g → wf g'.
Proof.
  unfold assign, bind, lookup. intros H Hg.
  destruct (Obj.get g k) as [d|] eqn:E.
  - destruct (Obj.eqb prop "__proto__"); injection H as <- _; [done|].
    apply set_wf; [done|]. apply keys_set_NoDup.
    destruct Hg as [_ Hg]. by apply (Forall_get _ _ _ _ Hg E).
  - destruct (Obj.eqb k "__proto__").
    { destruct (Obj.eqb prop "__proto__"); by injection H as <- _. }
    destruct (Obj.get (added h) k).
    { destruct (Obj.eqb prop "__proto__"); [by injection H as <- _|done]. }
    destruct (bool_decide (k ∈ methods)); [|done].
    destruct (Obj.eqb prop "__proto__"); [by injection H as <- _|].
    destruct (readonly k prop); [done|].
    destruct (Obj.eqb k "constructor" && Obj.eqb prop "keys");
      by injection H as <- _.
Qed.

Lemma add_decl_wf sel (g : grouping) decl h g' h' :
  Run.add_decl sel g decl h = (Returns g', h') → wf g → wf g'.
Proof.
  unfold Run.add_decl.
  destruct (map Js.trim (Js.split ":" decl)) as [|[|a p] [|[|b v] l]];
    try (by intros [= <- _]).
  apply assign_wf.
Qed.

Lemma add_rule_wf (g : grouping) r h g' h' :
  Run.add_rule g r h = (Returns g', h') → wf g → wf g'.
Proof.
  unfold Run.add_rule, bind at 1, lookup. intros H Hg.
  eapply (forEach_invariant wf); [|exact H|].
  - intros. by eapply add_decl_wf.
  - destruct (falsy _); [|done]. apply set_wf; [done|constructor].
Qed.

Lemma group_rules_wf rs h (g : grouping) h' :
  Run.group_rules rs h = (Returns g, h') → wf g.
Proof.
  intros H. eapply (forEach_invariant wf); [|exact H|].
  - intros. by eapply add_rule_wf.
  - split; constructor.
Qed.

(** *** What the filter leaves *)

Lemma deletes_get u ks sel : ∀ g : grouping,
  unused u sel = false →
  Obj.get (foldl (λ g k, if unused u k then Obj.delete g k else g) g ks) sel
  = Obj.get g sel.
Proof.
  induction ks as [|k ks IH]; intros g Hsel; [done|].
  cbn [foldl]. rewrite IH by done.
  destruct (unused u k) eqn:E; [|done].
  apply get_delete_ne. intros ->. congruence.
Qed.

Lemma deletes_wf u ks : ∀ g : grouping,
  wf g → wf (foldl (λ g k, if unused u k then Obj.delete g k else g) g ks).
Proof.
  induction ks as [|k ks IH]; intros g Hg; [done|].
  cbn [foldl]. apply IH. destruct (unused u k); [|done].
  destruct Hg as [Hnd Hd]. split; [by apply keys_delete_NoDup|].
  by apply Forall_delete.
Qed.

Lemma drop_unused_returns U (g : grouping) h :
  keys_fn h = true →
  ∃ g', Run.drop_unused U g h = (Returns g', h) ∧
        (wf g → wf g') ∧
        (∀ sel, deleted U sel = false → Obj.get g' sel = Obj.get g sel) ∧
        (NoDup (Obj.keys g) →
         ∀ sel, deleted U sel = true → sel ∉ Obj.keys g').
Proof.
  intros Hh. destruct U as [u|].
  - unfold Run.drop_unused.
    rewrite (bind_returns _ _ _ _ _ (keys_returns g h Hh)).
    eexists. split; [reflexivity|]. split_and!.
    + apply deletes_wf.
    + intros sel Hsel. by apply deletes_get.
    + intros Hnd sel Hsel. cbn [deleted] in Hsel.
      rewrite deletes_filter by done.
      intros ([sel' d] & -> & Hin)%list_elem_of_fmap.
      apply list_elem_of_In, filter_In in Hin as [Hin Hf].
      cbn [fst] in *. rewrite Hsel in Hf.
      rewrite bool_decide_eq_true_2 in Hf; [done|].
      apply list_elem_of_fmap. exists (sel', d). split; [done|].
      by apply elem_of_ordered, list_elem_of_In.
  - exists g. split; [done|]. split_and!; [done|done|].
    intros _ sel Hsel. done.
Qed.

Lemma emits_elem (l : grouping) sel decls :
  (sel, decls) ∈ l → emits (write_groups l) sel decls.
Proof.
  intros (l1 & l2 & ->)%list_elem_of_split.
  rewrite write_groups_app, write_groups_cons.
  by exists (write_groups l1), (write_groups l2).
Qed.

(** A group of a dictionary of the run that the filter does not delete
    stays with its declarations and is written. *)
Lemma kept_group U rs h (g : grouping) h' sel decls :
  Run.group_rules rs h = (Returns g, h') → keys_fn h' = true →
  Obj.get g sel = Some decls → deleted U sel = false →
  Run.kept U g h' sel decls.
Proof.
  intros Hg%group_rules_wf Hh Hsel Hdel.
  destruct (drop_unused_returns U g h' Hh) as (g' & Hd & Hwf & Hget & _).
  exists g', ([] ++ Run.groups_text g'). split_and!; [done| | |].
  - by rewrite Hget.
  - apply write_groups_returns; [done|by apply Hwf].
  - cbn [app]. unfold Run.groups_text. apply emits_elem.
    apply list_elem_of_fmap. exists (sel, decls). split; [done|].
    apply elem_of_ordered, elem_of_get. by rewrite Hget.
Qed.

(** *** The whole run *)

Lemma keys_throws {V} (o : Obj.t V) h :
  keys_fn h = false → keys o h = (Throws, h).
Proof. intros H. unfold keys. by rewrite H. Qed.

Lemma write_media_append U (out : str) m h out' h' :
  Run.write_media U out m h = (Returns out', h') → ∃ post, out' = out ++ post.
Proof.
  unfold Run.write_media. intros H.
  destruct (Run.group_rules (rules (parseCSSRules (content m))) h)
    as [[g|] h1] eqn:Eg; [|by rewrite (bind_throws _ _ _ _ Eg) in H].
  rewrite (bind_returns _ _ _ _ _ Eg) in H.
  destruct (keys_fn h1) eqn:Hk.
  - destruct (drop_unused_returns U g h1 Hk) as (g' & Hd & Hwf & _).
    rewrite (bind_returns _ _ _ _ _ Hd) in H.
    rewrite (bind_returns _ _ _ _ _ (keys_returns g' h1 Hk)) in H.
    destruct (0 <? length (Obj.keys (ordered g'))).
    + rewrite (bind_returns _ _ _ _ _
                 (write_groups_returns g' _ h1 Hk
                    (Hwf (group_rules_wf _ _ _ _ Eg)))) in H.
      injection H as <- _. eexists. by rewrite <- !app_assoc.
    + injection H as <- _. exists []. by rewrite app_nil_r.
  - destruct U as [u|]; unfold Run.drop_unused in H.
    + rewrite (bind_throws _ _ _ _ (bind_throws _ _ _ _ (keys_throws g h1 Hk)))
        in H. done.
    + unfold bind at 1, ret at 1 in H.
      by rewrite (bind_throws _ _ _ _ (keys_throws g h1 Hk)) in H.
Qed.

Lemma write_medias_append U ms : ∀ (out : str) h out' h',
  forEach (Run.write_media U) ms out h = (Returns out', h') →
  ∃ post, out' = out ++ post.
Proof.
  induction ms as [|m ms IH]; intros out h out' h' H.
  - injection H as <- _. exists []. by rewrite app_nil_r.
  - cbn [forEach] in H.
    destruct (Run.write_media U out m h) as [[out1|] h1] eqn:E;
      [|by rewrite (bind_throws _ _ _ _ E) in H].
    rewrite (bind_returns _ _ _ _ _ E) in H.
    apply write_media_append in E as [p1 ->].
    apply IH in H as [p2 ->]. exists (p1 ++ p2). by rewrite <- app_assoc.
Qed.

(** When the run returns, every group of the top level that the filter
    does not delete is in the output, with its declarations. *)
Lemma run_keeps (css : str) U h (out : str) h' (g : grouping) h1 sel decls :
  Run.optimizeCSS css U h = (Returns out, h') →
  Run.merged css h = (Returns g, h1) →
  Obj.get g sel = Some decls → deleted U sel = false →
  emits out sel (ordered decls).
Proof.
  unfold Run.optimizeCSS, Run.merged. cbv zeta. intros H Hg Hsel Hdel.
  rewrite (bind_returns _ _ _ _ _ Hg) in H.
  destruct (keys_fn h1) eqn:Hk.
  - destruct (kept_group U _ _ _ _ sel decls Hg Hk Hsel Hdel)
      as (g' & text & Hd & _ & Hw & pre & post & ->).
    rewrite (bind_returns _ _ _ _ _ Hd), (bind_returns _ _ _ _ _ Hw) in H.
    apply write_medias_append in H as [p ->].
    exists pre, (post ++ p). by rewrite <- !app_assoc.
  - destruct U as [u|]; unfold Run.drop_unused in H.
    + rewrite (bind_throws _ _ _ _ (bind_throws _ _ _ _ (keys_throws g h1 Hk)))
        in H. done.
    + unfold bind at 1, ret at 1 in H. unfold Run.write_groups in H.
      by rewrite (bind_throws _ _ _ _
                    (bind_throws _ _ _ _ (keys_throws g h1 Hk))) in H.
Qed.

End RunFilter.

(** ** The claims on the optimizer, on the run *)

Section RunClaims.
Import Re ReLib Text Css Dict Merge.

Abbreviation rule_of := (λ sd : str * Obj.t str,
                           Rule (fst sd) (write_decls (snd sd))).
Abbreviation media_of := (λ b : str * grouping,
                            MediaRule (fst b) (write_groups (snd b))).
Abbreviation pair_ok := (λ pv : str * str,
  word_ok (fst pv) ∧ word_ok (snd pv)).
Abbreviation og := (λ sd : str * Obj.t str,
  Run.ordinary_selector (fst sd) = true ∧
  Forall (λ pv : str * str, Run.ordinary_property (fst pv) = true) (snd sd)).

(** *** The rules of a text that the writer wrote *)

Lemma split_pair (p v : str) :
  word_ok p → word_ok v →
  map Js.trim (Js.split ":" (p ++ ":" ++ v)) = [p; v].
Proof.
  intros (Hp1 & Hp2 & Hp3 & _) (Hv1 & Hv2 & Hv3 & _).
  change (p ++ ":" ++ v) with (p ++ ":"%char :: v).
  rewrite split_app_sep, split_no_sep by done. cbn [map].
  by rewrite !trim_of_tight.
Qed.

Lemma writes_rendered sel (d : Obj.t str) :
  Forall pair_ok d → Run.writes (Rule sel (write_decls d)) = d.
Proof.
  intros Hd. unfold Run.writes. cbn [declarations].
  rewrite split_write_decls by done.
  induction Hd as [|[p v] d [Hp Hv] _ IH]; [done|].
  cbn [map app fst snd] in *. cbn [omap list_omap].
  rewrite (split_pair p v) by done. rewrite IH.
  destruct Hp as (Hp & _), Hv as (Hv & _). destruct p; [done|].
  by destruct v.
Qed.

Lemma rendered_ordinary (G : grouping) :
  Forall (λ sd, Forall pair_ok (snd sd)) G → Forall og G →
  Run.ordinary_rules (map rule_of G) = true.
Proof.
  intros Hok Hg. unfold Run.ordinary_rules. apply forallb_forall.
  intros r ([sel d] & -> & Hin)%list_elem_of_In%list_elem_of_fmap.
  rewrite Forall_forall in Hok, Hg.
  destruct (Hg _ Hin) as [Hs Hd]. cbn [fst snd selector] in *.
  rewrite Hs, (writes_rendered sel d) by apply (Hok _ Hin).
  cbn [andb]. apply forallb_forall. intros pv Hpv.
  rewrite Forall_forall in Hd. by apply Hd, list_elem_of_In.
Qed.

Lemma groups_ok_pairs (G : grouping) :
  groups_ok G → Forall (λ sd, Forall pair_ok (snd sd)) G.
Proof.
  intros [_ H]. eapply Forall_impl; [exact H|]. by intros sd [_ [_ ?]].
Qed.

(** The output of an ordinary style sheet is ordinary. *)
Lemma output_ordinary (css : str) U :
  Run.ordinary css = true → plain_output css U = true →
  Run.ordinary (optimizeCSS css U) = true.
Proof.
  intros Hord [HG HB]%andb_true_iff.
  pose proof Hord as [Hrs Hms]%andb_true_iff.
  rewrite forallb_forall in Hms.
  destruct (blocks_spec css U) as [Hbok _].
  pose proof (parsed_groups_ok U css) as HGok. fold (merged css) in HGok.
  fold (emitted css U) in HGok.
  rewrite optimizeCSS_blocks. unfold Run.ordinary. cbv zeta.
  rewrite (parse_written _ _ HGok Hbok HG HB). cbn [rules mediaRules].
  apply andb_true_iff. split.
  - apply rendered_ordinary; [by apply groups_ok_pairs|].
    by apply drop_unused_og, group_rules_og.
  - apply forallb_forall.
    intros m ([q g] & -> & Hb)%list_elem_of_In%list_elem_of_fmap.
    cbn [content fst snd].
    apply plain_blocks_spec in HB. rewrite Forall_forall in HB.
    unfold blocks_ok in Hbok. rewrite Forall_forall in Hbok.
    destruct (HB _ Hb) as [_ Hpg]. destruct (Hbok _ Hb) as (_ & Hgok & _).
    cbn [fst snd] in *.
    pose proof (parse_written g [] Hgok ltac:(constructor) Hpg eq_refl)
      as Hp.
    unfold render in Hp. cbn [map concat] in Hp. rewrite app_nil_r in Hp.
    rewrite Hp. cbn [rules].
    apply rendered_ordinary; [by apply groups_ok_pairs|].
    unfold blocks in Hb. apply list_elem_of_omap in Hb as (m & Hm & Hb).
    unfold media_emitted in Hb.
    destruct (drop_unused U _) as [|x g'] eqn:E; [done|].
    injection Hb as _ <-. rewrite <- E.
    apply drop_unused_og, group_rules_og, Hms. by apply list_elem_of_In.
Qed.

(** *** The claims *)




(** C2 (amended): on an ordinary style sheet, when every group of the
    output has a declaration and no selector, property, value or media
    query of the output contains the text [@media] or the opening of a
    comment, the run returns an output that the next run, with the same
    used classes, returns again. *)
Theorem optimize_idempotent_on_plain_output (css : str)
    (U : option (gset str)) :
  Run.ordinary css = true → plain_output css U = true →
  ∃ output,
    Run.optimizeCSS css U pristine = (Returns output, pristine) ∧
    Run.optimizeCSS output U pristine = (Returns output, pristine).
Proof.
  intros Hord Hplain. exists (optimizeCSS css U).
  split; [by apply run_ordinary|].
  rewrite run_ordinary by by apply output_ordinary.
  by rewrite plain_output_fixed.
Qed.

Lemma optimize_idempotent_on_plain_output_witness :
  Run.ordinary "a{b:c}a{b:d;e:f}@media (max-width:600px){.x{color:red}}"
  = true ∧
  plain_output "a{b:c}a{b:d;e:f}@media (max-width:600px){.x{color:red}}"
    (Some {["x" : str]}) = true ∧
  ∃ output,
    Run.optimizeCSS
      "a{b:c}a{b:d;e:f}@media (max-width:600px){.x{color:red}}"
      (Some {["x" : str]}) pristine = (Returns output, pristine) ∧
    Run.optimizeCSS output (Some {["x" : str]}) pristine
    = (Returns output, pristine).
Proof.
  split; [vm_compute; reflexivity|]. split; [vm_compute; reflexivity|].
  apply (optimize_idempotent_on_plain_output
           "a{b:c}a{b:d;e:f}@media (max-width:600px){.x{color:red}}"
           (Some {["x" : str]})); vm_compute; reflexivity.
Defined.

(** C2 (as stated, refuted): a rule whose only declaration has no value is
    written as a group without declarations, which the next run does not
    read as a rule; and a group whose only property is [__proto__] is
    written without it. *)
Lemma optimize_not_idempotent :
  Run.optimizeCSS css_bare None pristine = (Returns ("a{}" : str), pristine) ∧
  Run.optimizeCSS "a{}" None pristine = (Returns [], pristine) ∧
  Run.optimizeCSS "a{__proto__:b}" None pristine
  = (Returns ("a{}" : str), pristine).
Proof. split_and!; vm_compute; reflexivity. Qed.

(** C3: with the used classes {a}, the style sheet of [.a] and [.b], in
    either order, is reduced to the rule of [.a].  And a selector without
    any class token is kept whatever the used classes are: whenever the run
    returns, the group of such a selector of the top level is in the
    output with the declarations merged for it; in every dictionary that
    the run groups, at the top level or for a media block, the filter
    leaves its group and the writer writes it; and on an ordinary style
    sheet every such selector of a rule, at the top level and inside a
    media block, has its group in the output. *)
Theorem class_filter_keeps_used_and_classless :
  (Run.optimizeCSS css_a_b (Some {["a" : str]}) pristine
   = (Returns (".a{color:red;}" : str), pristine) ∧
   Run.optimizeCSS css_b_a (Some {["a" : str]}) pristine
   = (Returns (".a{color:red;}" : str), pristine)) ∧
  (∀ (css : str) (U : option (gset str)) h (output : str) h'
     (g : grouping) h1 (sel : str) (decls : Obj.t str),
     Run.optimizeCSS css U h = (Returns output, h') →
     Run.merged css h = (Returns g, h1) →
     Obj.get g sel = Some decls → class_tokens sel = None →
     emits output sel (ordered decls)) ∧
  (∀ (rs : list rule) (U : option (gset str)) h (g : grouping) h'
     (sel : str) (decls : Obj.t str),
     Run.group_rules rs h = (Returns g, h') → keys_fn h' = true →
     Obj.get g sel = Some decls → class_tokens sel = None →
     Run.kept U g h' sel decls) ∧
  (∀ (css : str) (U : option (gset str)) (sel : str),
     Run.ordinary css = true → class_tokens sel = None →
     Run.optimizeCSS css U pristine
     = (Returns (optimizeCSS css U), pristine) ∧
     kept_everywhere css U sel).
Proof.
  split; [split; vm_compute; reflexivity|]. split_and!.
  - intros css U h output h' g h1 sel decls Hrun Hg Hsel Hcls.
    eapply run_keeps; [done..|]. by apply deleted_no_class.
  - intros rs U h g h' sel decls Hg Hh Hsel Hcls.
    eapply kept_group; [done..|]. by apply deleted_no_class.
  - intros css U sel Hord Hcls. split; [by apply run_ordinary|].
    by apply selector_kept, deleted_no_class.
Qed.

Lemma class_filter_keeps_used_and_classless_witness :
  Run.ordinary "#main{margin:0}" = true ∧
  class_tokens "#main" = None ∧
  top_selector "#main{margin:0}" "#main" ∧
  Run.optimizeCSS "#main{margin:0}" (Some ∅) pristine
  = (Returns (optimizeCSS "#main{margin:0}" (Some ∅)), pristine) ∧
  kept_top "#main{margin:0}" (Some ∅) "#main" ∧
  Run.optimizeCSS "constructor{a:b}p{c:d}" (Some ∅) pristine
  = (Returns ("p{c:d;}" : str), pristine) ∧
  emits "p{c:d;}" "p" (ordered [("c" : str, "d" : str)]).
Proof.
  assert (Ho : Run.ordinary "#main{margin:0}" = true)
    by (vm_compute; reflexivity).
  assert (Hc : class_tokens "#main" = None) by reflexivity.
  assert (H : top_selector "#main{margin:0}" "#main").
  { unfold top_selector. vm_compute. apply list_elem_of_singleton.
    reflexivity. }
  split; [exact Ho|]. split; [exact Hc|]. split; [exact H|].
  destruct (proj2 (proj2 (proj2 class_filter_keeps_used_and_classless))
              "#main{margin:0}" (Some ∅) "#main" Ho Hc) as [Hrun Hkept].
  split; [exact Hrun|]. split; [exact (proj1 Hkept H)|].
  split; [vm_compute; reflexivity|].
  exact (proj1 (proj2 class_filter_keeps_used_and_classless)
           "constructor{a:b}p{c:d}" (Some ∅) pristine "p{c:d;}" pristine
           [("p" : str, [("c" : str, "d" : str)])] pristine "p"
           [("c" : str, "d" : str)] eq_refl eq_refl eq_refl eq_refl).
Defined.

(** C4: [.unused:hover], whose only class is not used, is kept with the
    empty set of used classes.  And a selector with a [:] is kept for every
    set of used classes: whenever the run returns, the group of such a
    selector of the top level is in the output with the declarations merged
    for it; in every dictionary that the run groups, at the top level or
    for a media block, the filter leaves its group and the writer writes
    it; and on an ordinary style sheet every such selector of a rule, at
    the top level and inside a media block, has its group in the output. *)
Theorem pseudo_selector_never_dropped :
  Run.optimizeCSS css_hover (Some ∅) pristine
  = (Returns (".unused:hover{color:red;}" : str), pristine) ∧
  (∀ (css : str) (U : option (gset str)) h (output : str) h'
     (g : grouping) h1 (sel : str) (decls : Obj.t str),
     Run.optimizeCSS css U h = (Returns output, h') →
     Run.merged css h = (Returns g, h1) →
     Obj.get g sel = Some decls → Js.includes sel ":" = true →
     emits output sel (ordered decls)) ∧
  (∀ (rs : list rule) (U : option (gset str)) h (g : grouping) h'
     (sel : str) (decls : Obj.t str),
     Run.group_rules rs h = (Returns g, h') → keys_fn h' = true →
     Obj.get g sel = Some decls → Js.includes sel ":" = true →
     Run.kept U g h' sel decls) ∧
  (∀ (css : str) (U : option (gset str)) (sel : str),
     Run.ordinary css = true → Js.includes sel ":" = true →
     Run.optimizeCSS css U pristine
     = (Returns (optimizeCSS css U), pristine) ∧
     kept_everywhere css U sel).
Proof.
  split; [vm_compute; reflexivity|]. split_and!.
  - intros css U h output h' g h1 sel decls Hrun Hg Hsel Hcls.
    eapply run_keeps; [done..|]. by apply deleted_pseudo.
  - intros rs U h g h' sel decls Hg Hh Hsel Hcls.
    eapply kept_group; [done..|]. by apply deleted_pseudo.
  - intros css U sel Hord Hcls. split; [by apply run_ordinary|].
    by apply selector_kept, deleted_pseudo.
Qed.

Lemma pseudo_selector_never_dropped_witness :
  Run.ordinary css_hover = true ∧
  Js.includes ".unused:hover" ":" = true ∧
  top_selector css_hover ".unused:hover" ∧
  Run.optimizeCSS css_hover (Some ∅) pristine
  = (Returns (optimizeCSS css_hover (Some ∅)), pristine) ∧
  kept_top css_hover (Some ∅) ".unused:hover" ∧
  Run.optimizeCSS ".u:hover{c:d}toString{a:b}" (Some ∅) pristine
  = (Returns (".u:hover{c:d;}" : str), pristine) ∧
  emits ".u:hover{c:d;}" ".u:hover" (ordered [("c" : str, "d" : str)]).
Proof.
  assert (Ho : Run.ordinary css_hover = true) by (vm_compute; reflexivity).
  assert (Hc : Js.includes ".unused:hover" ":" = true) by reflexivity.
  assert (H : top_selector css_hover ".unused:hover").
  { unfold top_selector. vm_compute. apply list_elem_of_singleton.
    reflexivity. }
  split; [exact Ho|]. split; [exact Hc|]. split; [exact H|].
  destruct (proj2 (proj2 (proj2 pseudo_selector_never_dropped))
              css_hover (Some ∅) ".unused:hover" Ho Hc) as [Hrun Hkept].
  split; [exact Hrun|]. split; [exact (proj1 Hkept H)|].
  split; [vm_compute; reflexivity|].
  exact (proj1 (proj2 pseudo_selector_never_dropped)
           ".u:hover{c:d}toString{a:b}" (Some ∅) pristine ".u:hover{c:d;}"
           pristine [(".u:hover" : str, [("c" : str, "d" : str)])] pristine
           ".u:hover" [("c" : str, "d" : str)]
           eq_refl eq_refl eq_refl eq_refl).
Defined.

End RunClaims.

(** ** More on the run *)

Section RunMore.
Import Re ReLib Text Css Dict Merge Extractor App.

Abbreviation rule_of := (λ sd : str * Obj.t str,
                           Rule (fst sd) (write_decls (snd sd))).
Abbreviation media_of := (λ b : str * grouping,
                            MediaRule (fst b) (write_groups (snd b))).
Abbreviation og := (λ sd : str * Obj.t str,
  Run.ordinary_selector (fst sd) = true ∧
  Forall (λ pv : str * str, Run.ordinary_property (fst pv) = true) (snd sd)).

Lemma keys_ordinary (g : grouping) :
  Forall og g → keys g pristine = (Returns (Obj.keys g), pristine).
Proof.
  intros Hg. rewrite keys_returns by done. by rewrite og_ordered.
Qed.

(** X13: On an ordinary style sheet the groups are written in the order in
    which their selectors first occur among the rules, less those that the
    filter deletes; at the top level and in every media block. *)
Theorem groups_in_order_of_first_occurrence (css : str)
    (U : option (gset str)) :
  Run.ordinary css = true →
  (∃ g, Run.emitted css U pristine = (Returns g, pristine) ∧
        keys g pristine =
        (Returns
           (List.filter (λ sel, negb (deleted U sel))
              (first_occurrences (map selector (rules (parseCSSRules css))))),
         pristine)) ∧
  ∀ m, m ∈ mediaRules (parseCSSRules css) →
       ∃ g, Run.media_emitted U m pristine = (Returns g, pristine) ∧
            keys g pristine =
            (Returns
               (List.filter (λ sel, negb (deleted U sel))
                  (first_occurrences
                     (map selector (rules (parseCSSRules (content m)))))),
             pristine).
Proof.
  intros Hord. pose proof Hord as [Hrs Hms]%andb_true_iff.
  rewrite forallb_forall in Hms.
  destruct (emitted_keys_in_order css U) as [Htop Hmedia]. split.
  - exists (emitted css U). split; [by apply emitted_run_ordinary|].
    rewrite keys_ordinary, Htop; [done|].
    by apply drop_unused_og, group_rules_og.
  - intros m Hm. exists (media_emitted U m).
    split; [by apply (media_emitted_ordinary css)|].
    rewrite keys_ordinary, Hmedia; [done|].
    apply drop_unused_og, group_rules_og, Hms. by apply list_elem_of_In.
Qed.

Lemma groups_in_order_of_first_occurrence_witness :
  Run.ordinary "b{x:y}a{x:y}b{z:w}" = true ∧
  ∃ g, Run.emitted "b{x:y}a{x:y}b{z:w}" None pristine
       = (Returns g, pristine) ∧
       keys g pristine = (Returns ["b" : str; "a" : str], pristine).
Proof.
  assert (Ho : Run.ordinary "b{x:y}a{x:y}b{z:w}" = true)
    by (vm_compute; reflexivity).
  split; [exact Ho|].
  exact (proj1 (groups_in_order_of_first_occurrence "b{x:y}a{x:y}b{z:w}"
                  None Ho)).
Defined.

(** X14: On an ordinary style sheet, in the merged groups, the value of a
    property of a selector is the one that the last rule of that selector
    to declare the property gives it, and a property that no rule of the
    selector declares is not there; so it is in the groups that are
    written, for a selector that the filter does not delete. *)
Theorem merged_value_is_last_declared (css : str) (sel prop : str) :
  Run.ordinary css = true →
  (∃ g, Run.merged css pristine = (Returns g, pristine) ∧
        Merge.value g sel prop
        = last_declared (rules (parseCSSRules css)) sel prop) ∧
  ∀ U, deleted U sel = false →
       ∃ g, Run.emitted css U pristine = (Returns g, pristine) ∧
            Merge.value g sel prop
            = last_declared (rules (parseCSSRules css)) sel prop.
Proof.
  intros Hord. destruct (value_last_declared css sel prop) as [H1 H2].
  split.
  - exists (merged css). split; [by apply merged_ordinary|done].
  - intros U HU. exists (emitted css U).
    split; [by apply emitted_run_ordinary|by apply H2].
Qed.

Lemma merged_value_is_last_declared_witness :
  Run.ordinary ".b{color:red}.b{color:blue}" = true ∧
  deleted None ".b" = false ∧
  ∃ g, Run.emitted ".b{color:red}.b{color:blue}" None pristine
       = (Returns g, pristine) ∧
       Merge.value g ".b" "color"
       = last_declared (rules (parseCSSRules ".b{color:red}.b{color:blue}"))
           ".b" "color".
Proof.
  assert (Ho : Run.ordinary ".b{color:red}.b{color:blue}" = true)
    by (vm_compute; reflexivity).
  split; [exact Ho|]. split; [reflexivity|].
  exact (proj2 (merged_value_is_last_declared ".b{color:red}.b{color:blue}"
                  ".b" "color" Ho) None eq_refl).
Defined.

(** X17: What is written is read back: the text of ordinary groups and
    media blocks (every group with a declaration, no piece with [@media] or
    the opening of a comment) is parsed into one rule for each group and
    one media rule for each block, in order, and the run groups the rules
    into the groups again. *)
Theorem written_text_is_read_back (G : grouping)
    (B : list (str * grouping)) :
  groups_ok G → blocks_ok B →
  plain_groups G = true → plain_blocks B = true →
  Run.ordinary_groups G = true →
  forallb (λ b, Run.ordinary_groups (snd b)) B = true →
  parseCSSRules (render G B) = Parsed (map rule_of G) (map media_of B) ∧
  Run.group_rules (rules (parseCSSRules (render G B))) pristine
  = (Returns G, pristine) ∧
  Forall2 (λ m b, query m = fst b ∧
                  Run.group_rules (rules (parseCSSRules (content m)))
                    pristine = (Returns (snd b), pristine))
          (mediaRules (parseCSSRules (render G B))) B.
Proof.
  intros HG HB HpG HpB HoG HoB.
  destruct (render_read_back G B HG HB HpG HpB) as (Hp & Hg & _).
  split; [done|]. split.
  - rewrite group_rules_ordinary, Hg; [done..|].
    rewrite Hp. cbn [rules].
    apply rendered_ordinary; [by apply groups_ok_pairs|].
    by apply ordinary_groups_spec.
  - rewrite Hp. cbn [mediaRules].
    apply Forall2_fmap_l, Forall_Forall2_diag, Forall_forall.
    intros [q g] Hb. cbv beta. cbn [query content fst snd].
    split; [done|].
    rewrite forallb_forall in HoB.
    unfold blocks_ok in HB. rewrite Forall_forall in HB.
    apply plain_blocks_spec in HpB. rewrite Forall_forall in HpB.
    destruct (HB _ Hb) as (_ & Hgok & _). destruct (HpB _ Hb) as [_ Hpg].
    cbn [fst snd] in *.
    pose proof (parse_written g [] Hgok ltac:(constructor) Hpg eq_refl)
      as Hpw.
    unfold render in Hpw. cbn [map concat] in Hpw.
    rewrite app_nil_r in Hpw. cbn [content]. rewrite Hpw. cbn [rules].
    rewrite group_rules_ordinary, group_rules_render; [done..|].
    apply rendered_ordinary; [by apply groups_ok_pairs|].
    apply ordinary_groups_spec.
    apply (HoB (q, g)). by apply list_elem_of_In.
Qed.

Lemma written_text_is_read_back_witness :
  let G : grouping := [("a" : str, [("b" : str, "c" : str)])] in
  let B : list (str * grouping) :=
    [("(x)" : str, [(".y" : str, [("d" : str, "e" : str)])])] in
  groups_ok G ∧ blocks_ok B ∧
  plain_groups G = true ∧ plain_blocks B = true ∧
  Run.ordinary_groups G = true ∧
  forallb (λ b, Run.ordinary_groups (snd b)) B = true ∧
  parseCSSRules (render G B) = Parsed (map rule_of G) (map media_of B) ∧
  Run.group_rules (rules (parseCSSRules (render G B))) pristine
  = (Returns G, pristine) ∧
  Forall2 (λ m b, query m = fst b ∧
                  Run.group_rules (rules (parseCSSRules (content m)))
                    pristine = (Returns (snd b), pristine))
          (mediaRules (parseCSSRules (render G B))) B.
Proof.
  cbv zeta.
  assert (HG : groups_ok [("a" : str, [("b" : str, "c" : str)])]).
  { repeat first [ split | apply NoDup_nil_2 | apply NoDup_cons_2
                 | apply Forall_nil_2 | apply Forall_cons_2
                 | apply not_elem_of_nil | discriminate | reflexivity
                 | char_not_in | exact I ]. }
  assert (HB : blocks_ok
                 [("(x)" : str, [(".y" : str, [("d" : str, "e" : str)])])]).
  { repeat first [ split | apply NoDup_nil_2 | apply NoDup_cons_2
                 | apply Forall_nil_2 | apply Forall_cons_2
                 | apply not_elem_of_nil | discriminate | reflexivity
                 | char_not_in | exact I ]. }
  split; [exact HG|]. split; [exact HB|].
  split; [reflexivity|]. split; [reflexivity|].
  split; [reflexivity|]. split; [reflexivity|].
  exact (written_text_is_read_back _ _ HG HB eq_refl eq_refl eq_refl
           eq_refl).
Defined.

(** X22: With a code that is not blank and has no [className=] in it, as a
    markup that writes [class=], the mode ['jsx-css'] optimizes with the
    empty set of used classes.  The filter then leaves no group whose
    selector has a class and no [:], in any dictionary that the run groups;
    and on an ordinary style sheet the state [output] is set to the
    optimized text, which has no such group at the top level or in a media
    block. *)
Theorem classes_all_dropped_without_attribute (jsxInput cssInput : str) :
  Js.trim jsxInput ≠ [] → Js.includes jsxInput "className=" = false →
  usedClasses jsx_css jsxInput = Some ∅ ∧
  (∀ (rs : list rule) h (g : grouping) h' (g' : grouping) h'' (sel : str),
     Run.group_rules rs h = (Returns g, h') →
     Run.drop_unused (Some ∅) g h' = (Returns g', h'') →
     is_Some (class_tokens sel) → Js.includes sel ":" = false →
     sel ∉ Obj.keys g') ∧
  (Run.ordinary cssInput = true →
   App.result jsx_css jsxInput cssInput pristine
   = (Output (optimizeCSS cssInput (Some ∅)), pristine) ∧
   ∀ sel, is_Some (class_tokens sel) → Js.includes sel ":" = false →
          (sel ∉ Obj.keys (emitted cssInput (Some ∅))) ∧
          ∀ m, sel ∉ Obj.keys (media_emitted (Some ∅) m)).
Proof.
  intros Hne Hfree.
  assert (usedClasses jsx_css jsxInput = Some ∅) as HU.
  { unfold usedClasses. destruct (Js.trim jsxInput); [done|].
    by rewrite extract_none. }
  split; [done|]. split.
  - intros rs h g h' g' h'' sel Hg Hd Hcls Hc.
    pose proof (unused_empty sel Hcls Hc) as Hun.
    destruct (keys_fn h') eqn:Hk.
    + destruct (drop_unused_returns (Some ∅) g h' Hk)
        as (g1 & Hd1 & _ & _ & Hdel).
      rewrite Hd1 in Hd. injection Hd as <- _.
      apply Hdel; [|done]. by apply group_rules_wf in Hg as [? _].
    + unfold Run.drop_unused, bind, keys in Hd. by rewrite Hk in Hd.
  - intros Hord. split.
    + unfold App.result. by rewrite HU, run_ordinary.
    + intros sel Hcls Hc. pose proof (unused_empty sel Hcls Hc) as Hun.
      split; [|intros m]; unfold emitted, merged, media_emitted;
        rewrite drop_unused_keys by apply group_rules_keys_NoDup;
        rewrite list_elem_of_In, filter_In; cbn [deleted]; rewrite Hun;
        by intros [_ ?].
Qed.

Lemma classes_all_dropped_without_attribute_witness :
  Js.trim "<p class='a'>" ≠ [] ∧
  Js.includes "<p class='a'>" "className=" = false ∧
  Run.ordinary ".a{b:c}" = true ∧
  App.result jsx_css "<p class='a'>" ".a{b:c}" pristine
  = (Output (optimizeCSS ".a{b:c}" (Some ∅)), pristine) ∧
  optimizeCSS ".a{b:c}" (Some ∅) = [].
Proof.
  assert (H : Js.trim "<p class='a'>" ≠ []) by discriminate.
  split; [exact H|]. split; [reflexivity|]. split; [reflexivity|].
  split; [|reflexivity].
  exact (proj1 (proj2 (proj2 (classes_all_dropped_without_attribute
                                "<p class='a'>" ".a{b:c}" H eq_refl))
                  eq_refl)).
Defined.

End RunMore.
